(** * Hillipop: likelihood engine and multipole binning

    A shallow embedding of [hillipop.py] (the [hillipop] class and the [Bins]
    class) and the verification of its specification.

    Conventions of the embedding.
    - The module is Python 2 code: [nfreq*(nfreq+1)/2] is used as the bound of
      [range], so [/] on integers is floor division.
    - Python integers that index or count (map numbers, list positions, loop
      counters) are [nat]; integers read from the multipole tables, which are
      subtracted and compared, are [Z].
    - [numpy.float64] values are modelled by exact rationals ([Qc]): rounding
      and overflow are not modelled.  [np.inf] occurs in the code only as the
      replacement of a zero denominator and is modelled by [Inf] below.  The
      rationals have no inf and no nan: a division by a denominator that is
      zero, after which numpy warns and leaves inf or nan in the array, is
      the error [FloatingPointError] of the model.
      The literals [1e12] and [1e24] stand for 10^12 and 10^24.
    - A Python exception is a value of [exn]; a computation that may raise
      returns [result A = exn + A].
    - The FITS files and the foreground models of [foregrounds_v3] are
      outside the module: the functions take the columns read from the files,
      and a foreground is the function [compute_dl] it provides, which
      returns an array of two dimensions.
    - An array of two dimensions is given by its rows, which have the same
      length; an array without rows is taken to have no column either.
    - A text file is the list of its lines, and a string is handled as the
      list of its characters. *)

From Stdlib Require Import ZArith QArith Qcanon Field Lia String Ascii.
From stdpp Require Import base list strings gmap numbers pretty.

Local Open Scope Z_scope.

(** ** Exceptions and the result monad *)

Inductive exn : Type :=
| ValueError (msg : string)
| IndexError
| KeyError (key : string)
| UnboundLocalError (var : string)
| FloatingPointError.

#[global] Instance exn_eq_dec : EqDecision exn.
Proof. solve_decision. Defined.

Definition result (A : Type) : Type := (exn + A)%type.

#[global] Instance result_eq_dec `{EqDecision A} : EqDecision (result A).
Proof. unfold result. apply _. Defined.

Definition ok {A : Type} (x : A) : result A := inr x.
Definition raise {A : Type} (e : exn) : result A := inl e.

#[global] Instance result_ret : MRet result := λ A x, inr x.
#[global] Instance result_bind : MBind result :=
  λ A B f m, match m with inl e => inl e | inr x => f x end.

Definition is_ok {A : Type} (r : result A) : Prop := ∃ x, r = ok x.
Definition fails {A : Type} (r : result A) : Prop := ∃ e, r = raise e.

(** [for x in xs: acc = f(acc, x)] where the body may raise. *)
Fixpoint foldM {A B : Type} (f : A → B → result A) (acc : A) (xs : list B)
  : result A :=
  match xs with
  | [] => ok acc
  | x :: xs' => acc' ← f acc x; foldM f acc' xs'
  end.

(** [[f(x) for x in xs]] where [f] may raise. *)
Fixpoint mapM_r {A B : Type} (f : A → result B) (xs : list A)
  : result (list B) :=
  match xs with
  | [] => ok []
  | x :: xs' => y ← f x; ys ← mapM_r f xs'; ok (y :: ys)
  end.

(** ** Python and numpy primitives *)

Definition range (n : nat) : list nat := seq 0 n.
Definition range2 (a b : nat) : list nat := seq a (b - a).

(** [l[i]] for [i >= 0]. *)
Definition py_index {A : Type} (l : list A) (i : nat) : result A :=
  match l !! i with
  | Some x => ok x
  | None => raise IndexError
  end.

(** [l.index(x)]: position of the first occurrence. *)
Fixpoint list_index `{EqDecision A} (l : list A) (x : A) : result nat :=
  match l with
  | [] => raise (ValueError "x is not in list")
  | y :: l' => if decide (y = x) then ok 0%nat
               else i ← list_index l' x; ok (S i)
  end.

(** Normalisation of one bound of a slice over a sequence of length [n]:
    negative bounds count from the end, and the result is clipped to [0, n]. *)
Definition slice_bound (n : nat) (i : Z) : nat :=
  if i <? 0 then Z.to_nat (Z.max (i + Z.of_nat n) 0)
  else Nat.min (Z.to_nat i) n.

(** [l[start:stop]]. *)
Definition py_slice {A : Type} (l : list A) (start stop : Z) : list A :=
  let a := slice_bound (length l) start in
  let b := slice_bound (length l) stop in
  take (b - a) (drop a l).

(** [l[start:stop] = vals] where [vals] has the length of the slice. *)
Definition slice_assign {A : Type} (l : list A) (start stop : Z)
  (vals : list A) : list A :=
  let a := slice_bound (length l) start in
  let b := Nat.max a (slice_bound (length l) stop) in
  take a l ++ vals ++ drop b l.

(** builtin [min] and [max] over a sequence of integers. *)
Definition py_min (l : list Z) : result Z :=
  match l with
  | [] => raise (ValueError "min() arg is an empty sequence")
  | x :: l' => ok (foldr Z.min x l')
  end.

Definition py_max (l : list Z) : result Z :=
  match l with
  | [] => raise (ValueError "max() arg is an empty sequence")
  | x :: l' => ok (foldr Z.max x l')
  end.

(** [a[mask]] for a boolean mask of the same length. *)
Fixpoint mask_select {A : Type} (l : list A) (mask : list bool) : list A :=
  match l, mask with
  | x :: l', b :: mask' =>
      if b then x :: mask_select l' mask' else mask_select l' mask'
  | _, _ => []
  end.

(** [enumerate(l)]. *)
Definition enumerate {A : Type} (l : list A) : list (nat * A) :=
  imap (λ i x, (i, x)) l.

(** ** Numbers *)

Abbreviation float := Qc (only parsing).

(** [np.pi], the binary64 value 0x400921FB54442D18. *)
Definition np_pi : float := Q2Qc (884279719003555 # 281474976710656).

Definition fsum (l : list float) : float := foldr Qcplus 0%Qc l.

(** A two-dimensional array with its shape. *)
Record array2 : Type := Array2 {
  shape0 : nat;
  shape1 : nat;
  rows : list (list float)
}.

#[global] Instance array2_eq_dec : EqDecision array2.
Proof. solve_decision. Defined.

Definition zeros2 (n m : nat) : array2 :=
  Array2 n m (replicate n (replicate m 0%Qc)).

(** [a.T] *)
Definition transpose (a : array2) : array2 :=
  Array2 (shape1 a) (shape0 a)
    (map (λ j, map (λ r, default 0%Qc (r !! j)) (rows a)) (range (shape1 a))).

(** [a[:stop, ...]] *)
Definition take_rows (a : array2) (stop : Z) : array2 :=
  let r := py_slice (rows a) 0 stop in
  Array2 (length r) (shape1 a) r.

(** [np.dot(v, a)] for a vector [v] and a matrix [a]. *)
Definition vec_mat (v : list float) (a : array2) : result (list float) :=
  if decide (length v = shape0 a) then
    ok (map (λ j, fsum (zip_with Qcmult v
                          (map (λ r, default 0%Qc (r !! j)) (rows a))))
          (range (shape1 a)))
  else raise (ValueError "shapes not aligned").

(** [np.dot(v, w)] for two vectors. *)
Definition vec_dot (v w : list float) : result float :=
  if decide (length v = length w) then ok (fsum (zip_with Qcmult v w))
  else raise (ValueError "shapes not aligned").

(** ** Bins *)

Module Bins.

Record t : Type := Make {
  lmins : list Z;
  lmaxs : list Z;
  lmin : Z;
  lmax : Z;
  nbins : nat;
  lbin : list float;
  dl : list Z
}.

(** [for l1,l2 in zip(lmins,lmaxs): if l1 > l2: raise ValueError] *)
Fixpoint check_bounds (pairs : list (Z * Z)) : result unit :=
  match pairs with
  | [] => ok ()
  | (l1, l2) :: rest =>
      if l2 <? l1 then raise (ValueError "Incoherent inputs")
      else check_bounds rest
  end.

Definition _derive_ext (lmins lmaxs : list Z) : result t :=
  _ ← check_bounds (zip lmins lmaxs);
  lmin ← py_min lmins;
  lmax ← py_max lmaxs;
  if lmin <? 1 then raise (ValueError "Input lmin is less than 1.")
  else if lmax <? lmin then raise (ValueError "Input lmax is less than lmin.")
  else ok {| lmins := lmins;
             lmaxs := lmaxs;
             lmin := lmin;
             lmax := lmax;
             nbins := length lmins;
             lbin := zip_with (λ a z, (Qc_of_Z (a + z) / 2)%Qc) lmins lmaxs;
             dl := zip_with (λ a z, z - a + 1) lmins lmaxs |}.

Definition __init__ (lmins lmaxs : list Z) : result t :=
  if negb (bool_decide (length lmins = length lmaxs))
  then raise (ValueError "Incoherent inputs")
  else
    let cutfirst := zip_with (λ z a, (2 <=? z) && (2 <=? a)) lmaxs lmins in
    _derive_ext (mask_select lmins cutfirst) (mask_select lmaxs cutfirst).

Definition bins (b : t) : list Z * list Z := (lmins b, lmaxs b).

Definition cut_binning (b : t) (lo hi : Z) : result t :=
  let sel := zip_with (λ a z, (lo <=? a) && (z <=? hi)) (lmins b) (lmaxs b) in
  _derive_ext (mask_select (lmins b) sel) (mask_select (lmaxs b) sel).

(** [q[a:z+1, b] = vals] *)
Definition col_slice_assign (q : list (list float)) (start stop : Z)
  (b : nat) (vals : list float) : list (list float) :=
  let a := slice_bound (length q) start in
  let e := slice_bound (length q) stop in
  imap (λ l r, if bool_decide (a ≤ l < e)%nat
               then <[b := default 0%Qc (vals !! (l - a)%nat)]> r
               else r) q.

Definition _bin_operators (b : t) (Dl cov : bool) : array2 * array2 :=
  let n := Z.to_nat (lmax b + 1) in
  let ell2 :=
    if Dl
    then map (λ l : nat, (Qc_of_Z (Z.of_nat l) * (Qc_of_Z (Z.of_nat l) + 1)
                          / (2 * np_pi))%Qc) (range n)
    else replicate n 1%Qc in
  let p0 := rows (zeros2 (nbins b) n) in
  let q0 := rows (zeros2 n (nbins b)) in
  let '(p, q) :=
    fold_left
      (λ (pq : list (list float) * list (list float)) (e : nat * (Z * Z)),
         let '(i, (a, z)) := e in
         let dl := z - a + 1 in
         let w := py_slice ell2 a (z + 1) in
         (alter (λ r, slice_assign r a (z + 1)
                        (map (λ x, (x / Qc_of_Z dl)%Qc) w)) i pq.1,
          col_slice_assign pq.2 a (z + 1) i
            (map (λ x, if cov then (1 / x / Qc_of_Z dl)%Qc else (1 / x)%Qc) w)))
      (enumerate (zip (lmins b) (lmaxs b))) (p0, q0) in
  (Array2 (nbins b) n p, Array2 n (nbins b) q).

(** [bin_spectra] for a one-dimensional spectrum.  The [Dl] argument is not
    passed on to [_bin_operators], which is called with its defaults. *)
Definition bin_spectra (b : t) (spectra : list float) (Dl : bool)
  : result (list float) :=
  let minlmax := Z.min (Z.of_nat (length spectra) - 1) (lmax b) in
  let '(_p, _q) := _bin_operators b false false in
  vec_mat (py_slice spectra 0 (minlmax + 1))
          (take_rows (transpose _p) (minlmax + 1)).


(** [(lmax - lmin + 1) // delta_ell] on Python integers raises
    [ZeroDivisionError] when [delta_ell] is zero. *)
Inductive arith_exn : Type := ZeroDivisionError.

(** [fromdeltal]: the division comes first, then the constructor is called
    on the generated bounds. *)
Definition fromdeltal (lmin lmax delta_ell : Z) : arith_exn + result t :=
  if delta_ell =? 0 then inl ZeroDivisionError
  else
    let nbins := (lmax - lmin + 1) `div` delta_ell in
    let lmins := map (λ i : nat, lmin + Z.of_nat i * delta_ell)
                     (range (Z.to_nat nbins)) in
    let lmaxs := map (λ a, a + delta_ell - 1) lmins in
    inr (__init__ lmins lmaxs).

End Bins.

(** ** The hillipop likelihood *)

(** Broadcasting of a binary operation over two one-dimensional arrays. *)
Definition bcast2 {A B C : Type} (f : A → B → C) (a : list A) (b : list B)
  : result (list C) :=
  if decide (length a = length b) then ok (zip_with f a b)
  else match a, b with
       | [x], _ => ok (map (f x) b)
       | _, [y] => ok (map (λ x, f x y) a)
       | _, _ => raise (ValueError "operands could not be broadcast together")
       end.

(** [r += v] for a row [r] of fixed shape. *)
Definition iadd (r v : list float) : result (list float) :=
  if decide (length v = length r) then ok (zip_with Qcplus r v)
  else match v with
       | [y] => ok (map (λ x, (x + y)%Qc) r)
       | _ => raise (ValueError "operands could not be broadcast together")
       end.

(** [np.add(a, b)] for two arrays of two dimensions, with the broadcasting
    of both axes; the result is a new array.  The shapes are checked on the
    first rows, which decides for the arrays without rows. *)
Definition add2 (a b : list (list float)) : result (list (list float)) :=
  rows ← bcast2 pair a b;
  _ ← bcast2 Qcplus (default [] (head a)) (default [] (head b));
  mapM_r (λ p : list float * list float, bcast2 Qcplus p.1 p.2) rows.

(** [a += b] for an array [a] of two dimensions: [b] is broadcast to the
    shape of [a], which does not change. *)
Definition iadd2 (a b : list (list float)) : result (list (list float)) :=
  _ ← iadd (default [] (head a)) (default [] (head b));
  if decide (length b = length a)
  then mapM_r (λ p : list float * list float, iadd p.1 p.2) (zip a b)
  else match b with
       | [y] => mapM_r (λ r, iadd r y) a
       | _ => raise (ValueError "operands could not be broadcast together")
       end.

(** [np.zeros((n, m))] as a list of rows. *)
Definition np_zeros2 (n : nat) (m : Z) : result (list (list float)) :=
  if m <? 0 then raise (ValueError "negative dimensions are not allowed")
  else ok (replicate n (replicate (Z.to_nat m) 0%Qc)).

(** A denominator after [xw8[xw8 == 0] = np.inf]. *)
Inductive xfloat : Type :=
| Fin (x : float)
| Inf.

Definition zero_to_inf (w : float) : xfloat :=
  if decide (w = 0%Qc) then Inf else Fin w.

(** [x / d]: a finite value divided by infinity is zero; divided by zero it
    is inf or nan, which is no value of the model. *)
Definition xdiv (x : float) (d : xfloat) : result float :=
  match d with
  | Fin w => if decide (w = 0%Qc) then raise FloatingPointError
             else ok (x / w)%Qc
  | Inf => ok 0%Qc
  end.

(** [data.reshape((n, m))] *)
Definition reshape2 (data : list float) (n m : nat) : result array2 :=
  if decide ((n * m)%nat = length data)
  then ok (Array2 n m (map (λ i, take m (drop (i * m) data)) (range n)))
  else raise (ValueError "cannot reshape array").

(** [np.unique]: the sorted distinct values. *)
Fixpoint insert_unique (x : Z) (l : list Z) : list Z :=
  match l with
  | [] => [x]
  | y :: l' => if x <? y then x :: l
               else if x =? y then l
               else y :: insert_unique x l'
  end.

Definition np_unique (l : list Z) : list Z := foldr insert_unique [] l.

(** [[(i,j) for i in range(a, n) for j in range(i+off, n)]], the shape of
    the nested loops over maps ([off = 1]) and frequencies ([off = 0]). *)
Definition loop_pairs (off n : nat) : list (nat * nat) :=
  flat_map (λ i, map (pair i) (range2 (i + off) n)) (range n).

(** [np.zeros(n)] *)
Definition np_zeros1 (n : Z) : result (list float) :=
  if n <? 0 then raise (ValueError "negative dimensions are not allowed")
  else ok (replicate (Z.to_nat n) 0%Qc).

(** One assignment of [a[idx] = vals] for an array [a] of length [n] and an
    integer array [idx]: a negative index counts from the end, and an index
    outside [-n, n) raises. *)
Definition scatter_step (n : nat) (a : list float) (iv : Z * float)
  : result (list float) :=
  if (- Z.of_nat n <=? iv.1) && (iv.1 <? Z.of_nat n)
  then ok (<[Z.to_nat (if iv.1 <? 0 then iv.1 + Z.of_nat n else iv.1)
             := iv.2]> a)
  else raise IndexError.

(** [datacl = np.zeros(max(ell)+1); datacl[ell] = vals]: the assignments are
    made in the order of the rows, so the last one to an index remains. *)
Definition scatter (ell : list Z) (vals : list float) : result (list float) :=
  m ← py_max ell;
  datacl ← np_zeros1 (m + 1);
  foldM (scatter_step (length datacl)) datacl (zip ell vals).

(** The square of a denominator. *)
Definition xsquare (d : xfloat) : xfloat :=
  match d with
  | Fin x => Fin (x * x)%Qc
  | Inf => Inf
  end.

(** [np.transpose(np.array(d), (1,0,2))] for a list [d] of lists of
    one-dimensional arrays.  [np.array(d)] has three axes only when [d] is
    not empty and rectangular; otherwise the permutation of three axes
    raises [ValueError]. *)
Definition transpose_102 (d : list (list (list float)))
  : result (list (list (list float))) :=
  match d with
  | (r :: t) :: _ =>
      if forallb (λ x : list (list float),
                    (length x =? length (r :: t))%nat
                    && forallb (λ y : list float,
                                  (length y =? length r)%nat) x) d
      then ok (map (λ i, map (λ x : list (list float), default [] (x !! i)) d)
                   (range (length (r :: t))))
      else raise (ValueError "axes don't match array")
  | _ => raise (ValueError "axes don't match array")
  end.

Module Hillipop.

Abbreviation params := (gmap string float) (only parsing).
Abbreviation spectra := (list (list float)) (only parsing).

(** The capability of a foreground model: [fg.compute_dl(pars)]. *)
Record foreground : Type := Foreground {
  compute_dl : gmap string float → result (list (list float))
}.

Record t : Type := Make {
  nmap : nat;
  isTT : bool;
  isEE : bool;
  isTE : bool;
  isET : bool;
  fqs : list Z;
  nfreq : nat;
  nxfreq : nat;
  nxspec : nat;
  xspec2map : list (nat * nat);
  xspec2xfreq : list nat;
  lmins : list (list Z);
  lmaxs : list (list Z);
  lmax : Z;
  dldata : list (list (list float));
  dlweight : list (list (list float));
  invkll : array2;
  fgsTT : list foreground
}.

(** [pars[key]] *)
Definition pars_get (pars : gmap string float) (key : string) : result float :=
  match pars !! key with
  | Some v => ok v
  | None => raise (KeyError key)
  end.

(** ["c%d" % m] *)
Definition cname (m : nat) : string := "c" +:+ pretty m.

(** [_get_freqs], reading the values of the keys [freq0], [freq1], ... *)
Definition _get_freqs (nmap : nat) (freq_values : list Z) : result (list Z) :=
  mapM_r (λ f, match freq_values !! f with
               | Some v => ok v
               | None => raise (KeyError ("freq" +:+ pretty f))
               end) (range nmap).

(** [_set_lists]: returns [(xspec2map, list_fqs, xspec2xfreq)]. *)
Definition _set_lists (nmap nfreq : nat) (fqs : list Z)
  : result (list (nat * nat) * list (nat * nat) * list nat) :=
  let xspec2map := loop_pairs 1 nmap in
  let list_fqs := loop_pairs 0 nfreq in
  let freqs := np_unique fqs in
  xspec2xfreq ←
    mapM_r (λ m : nat * nat,
              a ← py_index fqs m.1;
              f1 ← list_index freqs a;
              b ← py_index fqs m.2;
              f2 ← list_index freqs b;
              list_index list_fqs (f1, f2))
           (loop_pairs 1 nmap);
  ok (xspec2map, list_fqs, xspec2xfreq).

(** [_set_multipole_ranges]: the four tables of the file, each a list of
    [(LMIN, LMAX)] rows; returns [(lmins, lmaxs, lmax)]. *)
Definition _set_multipole_ranges (tables : list (list (Z * Z)))
  : result (list (list Z) * list (list Z) * Z) :=
  cols ← mapM_r (λ m, data ← py_index tables m;
                      ok (map fst data, map snd data)) (range 4);
  let lmins := map fst cols in
  let lmaxs := map snd cols in
  maxs ← mapM_r py_max lmaxs;
  lmax ← py_max maxs;
  ok (lmins, lmaxs, lmax).

(** The suffix of the covariance file name. *)
Definition covmat_ext (st : t) : string :=
  "_" +:+ (if isTT st then "TT" else "") +:+ (if isEE st then "EE" else "")
      +:+ (if isTE st then "TE" else "") +:+ (if isET st then "ET" else "").

(** [nells = lmaxs[m]-lmins[m]+1;
     sum([nells[xspec2xfreq.index(k)] for k in range(nxfreq)])] *)
Definition count_mode (st : t) (m : nat) : result Z :=
  hi ← py_index (lmaxs st) m;
  lo ← py_index (lmins st) m;
  d ← bcast2 Z.sub hi lo;
  let nells := map (λ x, x + 1) d in
  terms ← mapM_r (λ k, i ← list_index (xspec2xfreq st) k; py_index nells i)
                 (range (nxfreq st));
  ok (foldr Z.add 0 terms).

(** The [#count dim] block of [_read_invcovmatrix]. *)
Definition count_dim (st : t) : result Z :=
  let nell := 0 in
  nell ← (if isTT st then n ← count_mode st 0; ok (nell + n) else ok nell);
  nell ← (if isEE st then n ← count_mode st 1; ok (nell + n) else ok nell);
  nell ← (if isTE st then n ← count_mode st 2; ok (nell + n) else ok nell);
  nell ← (if isET st then n ← count_mode st 3; ok (nell + n) else ok nell);
  ok nell.

(** [_read_invcovmatrix]; [data] is the flat column read from the file. *)
Definition _read_invcovmatrix (st : t) (data : list float) : result array2 :=
  nell ← count_dim st;
  let nel := Nat.sqrt (length data) in
  a ← reshape2 data nel nel;
  let data := Array2 (shape0 a) (shape1 a)
                (map (map (λ x, (x / Qc_of_Z (10 ^ 24))%Qc)) (rows a)) in
  if negb (bool_decide (Z.of_nat nel = nell))
  then raise (ValueError "Incoherent covariance matrix")
  else ok data.

(** The body of the loop of [_select_spectra]:
    [xl = xl + list(acl[xf, lmin:lmax+1])] with [lmin] and [lmax] read from
    the table. *)
Definition select_step (st : t) (cl : list (list float)) (mode : nat)
  (xl : list float) (xf : nat) : result (list float) :=
  lo ← py_index (lmins st) mode;
  i ← list_index (xspec2xfreq st) xf;
  lmin ← py_index lo i;
  hi ← py_index (lmaxs st) mode;
  j ← list_index (xspec2xfreq st) xf;
  lmax ← py_index hi j;
  r ← py_index cl xf;
  ok (xl ++ py_slice r lmin (lmax + 1)).

(** [_select_spectra]; [cl] is a two-dimensional array given by its rows. *)
Definition _select_spectra (st : t) (cl : list (list float)) (mode : nat)
  : result (list float) :=
  foldM (select_step st cl mode) [] (range (nxfreq st)).

(** The body of the loop of [_xspectra_to_xfreq] on [(xcl, xw8)]:
    [xcl[xspec2xfreq[xs]] += weight[xs] * cl[xs]] and
    [xw8[xspec2xfreq[xs]] += weight[xs]]. *)
Definition accumulate (st : t) (cl weight : list (list float))
  (acc : list (list float) * list (list float)) (xs : nat)
  : result (list (list float) * list (list float)) :=
  k ← py_index (xspec2xfreq st) xs;
  r ← py_index acc.1 k;
  w ← py_index weight xs;
  c ← py_index cl xs;
  wc ← bcast2 Qcmult w c;
  r' ← iadd r wc;
  let xcl := <[k := r']> acc.1 in
  k ← py_index (xspec2xfreq st) xs;
  r ← py_index acc.2 k;
  w ← py_index weight xs;
  r' ← iadd r w;
  ok (xcl, <[k := r']> acc.2).

(** [_xspectra_to_xfreq] *)
Definition _xspectra_to_xfreq (st : t) (cl weight : list (list float))
  : result (list (list float)) :=
  xcl0 ← np_zeros2 (nxfreq st) (lmax st + 1);
  xw80 ← np_zeros2 (nxfreq st) (lmax st + 1);
  acc ← foldM (accumulate st cl weight) (xcl0, xw80) (range (nxspec st));
  let xw8 := map (map zero_to_inf) acc.2 in
  mapM_r (λ rows : list float * list xfloat,
            mapM_r (λ xd : float * xfloat, xdiv xd.1 xd.2)
                   (zip rows.1 rows.2))
         (zip acc.1 xw8).

(** [np.asarray(cl_boltz)[:,lth] * (lth*(lth+1)/2./np.pi * 1e12)] with
    [lth = np.arange(lmax+1)]. *)
Definition dl_factor (l : nat) : float :=
  (Qc_of_Z (Z.of_nat l * (Z.of_nat l + 1)) / 2 / np_pi * Qc_of_Z (10 ^ 12))%Qc.

Definition to_dl (st : t) (cl_boltz : list (list float))
  : result (list (list float)) :=
  match cl_boltz with
  | [] => raise IndexError
  | _ => mapM_r (λ r, mapM_r (λ l, x ← py_index r l; ok (x * dl_factor l)%Qc)
                             (range (Z.to_nat (lmax st + 1))))
                cl_boltz
  end.

(** The [#nuisances] block of [_compute_residuals]. *)
Definition cal_residuals (st : t) (pars : gmap string float)
  : result (list float) :=
  mapM_r (λ m : nat * nat,
            a1 ← pars_get pars "Aplanck";
            a2 ← pars_get pars "Aplanck";
            c1 ← pars_get pars (cname m.1);
            c2 ← pars_get pars (cname m.2);
            ok (a1 * a2 * (1 + c1 + c2))%Qc)
         (loop_pairs 1 (nmap st)).

(** The [#nuisances] block of [compute_likelihood]. *)
Definition cal_likelihood (st : t) (pars : gmap string float)
  : result (list float) :=
  mapM_r (λ m : nat * nat,
            a1 ← pars_get pars "Aplanck";
            a2 ← pars_get pars "Aplanck";
            c1 ← pars_get pars (cname m.1);
            c2 ← pars_get pars (cname m.2);
            ok (a1 * a2 * (1 + c1) * (1 + c2))%Qc)
         (loop_pairs 1 (nmap st)).

(** [[dldata[0][xs] - cal[xs]*dlmodel[xs] for xs in range(nxspec)]] *)
Definition residual_spectra (st : t) (cal : list float)
  (dlmodel : list (list float)) : result (list (list float)) :=
  mapM_r (λ xs,
            d0 ← py_index (dldata st) 0;
            d ← py_index d0 xs;
            c ← py_index cal xs;
            m ← py_index dlmodel xs;
            bcast2 Qcminus d (map (Qcmult c) m))
         (range (nxspec st)).

(** The value of [dlmodel] in the loop over the foreground models: the
    Python list [[dlth[0]]*nxspec] before the first [+=], and an array of
    two dimensions afterwards. *)
Inductive dl_model : Type :=
| DlList (rows : list (list float))
| DlArray (rows : list (list float)).

(** [dlmodel[xs]] reads a row of either. *)
Definition dlmodel_rows (d : dl_model) : list (list float) :=
  match d with
  | DlList rows => rows
  | DlArray rows => rows
  end.

(** [dlmodel += fg.compute_dl(pars)].  A Python list has no [+=] for an
    array operand, so the addition of the array runs: [dlmodel] becomes the
    array [np.add(dlmodel, fgdl)], the elementwise sum with broadcasting, for
    which the list is converted to an array (an empty list to an array of
    one dimension and length 0).  Once [dlmodel] is an array, [+=] adds to
    it in place. *)
Definition add_foreground (pars : gmap string float)
  (dlmodel : dl_model) (fg : foreground) : result dl_model :=
  fgdl ← compute_dl fg pars;
  match dlmodel with
  | DlList [] =>
      if forallb (λ r : list float, (length r <=? 1)%nat) fgdl
      then ok (DlArray (map (λ _, []) fgdl))
      else raise (ValueError "operands could not be broadcast together")
  | DlList rows => a ← add2 rows fgdl; ok (DlArray a)
  | DlArray a => a' ← iadd2 a fgdl; ok (DlArray a')
  end.

(** The body of [if self.isTT:] shared by [_compute_residuals] and
    [compute_likelihood], up to the assignment of [Rl]. *)
Definition tt_residuals (st : t) (pars : gmap string float)
  (cal : list float) (dlth : list (list float)) : result (list (list float)) :=
  d0 ← py_index dlth 0;
  let dlmodel := DlList (replicate (nxspec st) d0) in
  dlmodel ← foldM (add_foreground pars) dlmodel (fgsTT st);
  Rspec ← residual_spectra st cal (dlmodel_rows dlmodel);
  w0 ← py_index (dlweight st) 0;
  _xspectra_to_xfreq st Rspec w0.

Definition _compute_residuals (st : t) (pars : gmap string float)
  (cl_boltz : list (list float)) : result (list (list float)) :=
  dlth ← to_dl st cl_boltz;
  cal ← cal_residuals st pars;
  if isTT st then tt_residuals st pars cal dlth
  else raise (UnboundLocalError "Rl").

Definition compute_likelihood (st : t) (pars : gmap string float)
  (cl_boltz : list (list float)) : result float :=
  dlth ← to_dl st cl_boltz;
  cal ← cal_likelihood st pars;
  Xl ← (if isTT st
        then Rl ← tt_residuals st pars cal dlth; _select_spectra st Rl 0
        else raise (UnboundLocalError "Xl"));
  y ← vec_mat Xl (invkll st);
  vec_dot y Xl.

(** [__init__] on the parsed configuration ([map], [TT], [EE], [TE], [ET],
    [freq0] ...) and on the contents of the data files. *)
Definition __init__ (nmap : nat) (tt ee te et : bool)
  (freq_values : list Z)
  (tables : list (list (Z * Z)))
  (xspectra xerrors : list (list (list float)))
  (covmat : list float) (fgs : list foreground) : result t :=
  fqs ← _get_freqs nmap freq_values;
  let nfreq := length (np_unique fqs) in
  let nxfreq := (nfreq * (nfreq + 1) / 2)%nat in
  let nxspec := (nmap * (nmap - 1) / 2)%nat in
  lists ← _set_lists nmap nfreq fqs;
  ranges ← _set_multipole_ranges tables;
  let st := {| nmap := nmap; isTT := tt; isEE := ee; isTE := te; isET := et;
               fqs := fqs; nfreq := nfreq; nxfreq := nxfreq; nxspec := nxspec;
               xspec2map := lists.1.1; xspec2xfreq := lists.2;
               lmins := ranges.1.1; lmaxs := ranges.1.2; lmax := ranges.2;
               dldata := xspectra; dlweight := xerrors;
               invkll := zeros2 0 0; fgsTT := fgs |} in
  invkll ← _read_invcovmatrix st covmat;
  ok {| nmap := nmap; isTT := tt; isEE := ee; isTE := te; isET := et;
        fqs := fqs; nfreq := nfreq; nxfreq := nxfreq; nxspec := nxspec;
        xspec2map := lists.1.1; xspec2xfreq := lists.2;
        lmins := ranges.1.1; lmaxs := ranges.1.2; lmax := ranges.2;
        dldata := xspectra; dlweight := xerrors;
        invkll := invkll; fgsTT := fgs |}.

(** A table of a FITS file by its rows: the fields 0, 1 and 2. *)
Abbreviation fits_table := (list (Z * float * float)) (only parsing).

(** The body of the loop over the tables in [_read_dl_xspectra]:
    [ell = np.array(data.field(0),int); datacl = np.zeros(max(ell)+1);
     datacl[ell] = data.field(1) * 1e12], giving [datacl[:lmax+1]]. *)
Definition xspectra_column (lmax : Z) (data : fits_table)
  : result (list float) :=
  let ell := map (λ r, r.1.1) data in
  datacl ← scatter ell (map (λ r, (r.1.2 * Qc_of_Z (10 ^ 12))%Qc) data);
  ok (py_slice datacl 0 (lmax + 1)).

(** The body of the loop over the tables in [_read_dl_xerrors]:
    [datacl[ell] = data.field(2) * 1e12; datacl[datacl == 0] = np.inf],
    giving [1./datacl[:lmax+1]**2]. *)
Definition xerrors_column (lmax : Z) (data : fits_table)
  : result (list float) :=
  let ell := map (λ r, r.1.1) data in
  datacl ← scatter ell (map (λ r, (r.2 * Qc_of_Z (10 ^ 12))%Qc) data);
  let datacl := map zero_to_inf datacl in
  mapM_r (λ d, xdiv 1 (xsquare d)) (py_slice datacl 0 (lmax + 1)).

(** The loops over the pairs of maps and over the tables TT EE BB TE ET
    ([hdu in [1,2,3,4,4]]) shared by the two readers; [xpol m1 m2] holds the
    tables 1, 2, ... of the file of the pair of maps. *)
Definition read_xpol (column : Z → fits_table → result (list float))
  (nmap : nat) (lmax : Z) (xpol : nat → nat → list fits_table)
  : result (list (list (list float))) :=
  dldata ← mapM_r (λ m : nat * nat,
                     mapM_r (λ hdu : nat,
                               data ← py_index (xpol m.1 m.2) (hdu - 1);
                               column lmax data)
                            [1; 2; 3; 4; 4]%nat)
                  (loop_pairs 1 nmap);
  transpose_102 dldata.

Definition _read_dl_xspectra (nmap : nat) (lmax : Z)
  (xpol : nat → nat → list fits_table) : result (list (list (list float))) :=
  read_xpol xspectra_column nmap lmax xpol.

Definition _read_dl_xerrors (nmap : nat) (lmax : Z)
  (xpol : nat → nat → list fits_table) : result (list (list (list float))) :=
  read_xpol xerrors_column nmap lmax xpol.


End Hillipop.


(** ** Tools *)

(** [list_cross]:
    [[(i,j) for i in range(0,nmap) for j in range(i+1,nmap)]]. *)
Definition list_cross (nmap : nat) : list (nat * nat) :=
  flat_map (λ i, map (λ j, (i, j)) (range2 (i + 1) nmap)) (range2 0 nmap).

(** [read_parameter].  The file object yields the lines of the file, each
    with its newline; a line is a string. *)

(** The whitespace characters of [str.strip()] and [str.split()]: space,
    tab, newline, vertical tab, form feed and carriage return. *)
Definition is_space (c : ascii) : bool :=
  bool_decide (c ∈ [" "; "009"; "010"; "011"; "012"; "013"]%char).

(** [s.split(sep)] for a one-character separator. *)
Fixpoint split_on (sep : ascii) (s : list ascii) : list (list ascii) :=
  match s with
  | [] => [[]]
  | c :: s' =>
      if decide (c = sep) then [] :: split_on sep s'
      else match split_on sep s' with
           | w :: ws => (c :: w) :: ws
           | [] => [[c]]
           end
  end.

(** [s.lstrip()], [s.rstrip()] and [s.strip()]. *)
Fixpoint lstrip (s : list ascii) : list ascii :=
  match s with
  | [] => []
  | c :: s' => if is_space c then lstrip s' else s
  end.

Definition rstrip (s : list ascii) : list ascii := rev (lstrip (rev s)).

Definition strip (s : list ascii) : list ascii := rstrip (lstrip s).

(** [s.split()]: the maximal runs of characters that are not whitespace. *)
Fixpoint py_words (s : list ascii) : list (list ascii) :=
  match s with
  | [] => []
  | c :: s' =>
      if is_space c then py_words s'
      else match s' with
           | [] => [[c]]
           | c' :: _ =>
               if is_space c' then [c] :: py_words s'
               else match py_words s' with
                    | w :: ws => (c :: w) :: ws
                    | [] => [[c]]
                    end
           end
  end.

(** A value of the dictionary: a string, or a list of strings. *)
Inductive pvalue : Type :=
| PStr (s : string)
| PList (l : list string).

(** The name and the value that the body of the loop of [read_parameter]
    takes from a line: [name, value = line.split("=")] needs exactly two
    parts. *)
Definition read_parameter_entry (line : string) : result (string * pvalue) :=
  match split_on "=" (list_ascii_of_string line) with
  | [name; value] =>
      let value := strip value in
      let value :=
        if bool_decide (" "%char ∈ value)
        then PList (map string_of_list_ascii (py_words value))
        else PStr (string_of_list_ascii value) in
      ok (string_of_list_ascii (strip name), value)
  | [_] => raise (ValueError "need more than 1 value to unpack")
  | _ => raise (ValueError "too many values to unpack")
  end.

Definition read_parameter (lines : list string)
  : result (gmap string pvalue) :=
  foldM (λ d line, e ← read_parameter_entry line; ok (<[e.1 := e.2]> d))
        ∅ lines.

(** ** Specification vocabulary *)

(** An entry [(lmin, lmax)] that the [Bins] constructor drops: one with
    lmax < 2 or lmin < 2. *)
Definition dropped (p : Z * Z) : Prop := p.2 < 2 ∨ p.1 < 2.

#[global] Instance dropped_dec (p : Z * Z) : Decision (dropped p).
Proof. unfold dropped. apply _. Defined.

Definition retained (lmins lmaxs : list Z) : list (Z * Z) :=
  filter (λ p, ¬ dropped p) (zip lmins lmaxs).

(** What a successful [_derive_ext] guarantees. *)
Record bins_wf (b : Bins.t) : Prop := {
  wf_length : length (Bins.lmins b) = length (Bins.lmaxs b);
  wf_nbins : Bins.nbins b = length (Bins.lmins b);
  wf_ordered : Forall (λ p, p.1 ≤ p.2) (zip (Bins.lmins b) (Bins.lmaxs b));
  wf_lmin : Forall (λ a, Bins.lmin b ≤ a) (Bins.lmins b);
  wf_lmax : Forall (λ z, z ≤ Bins.lmax b) (Bins.lmaxs b);
  wf_lmin_pos : 1 ≤ Bins.lmin b;
  wf_range : Bins.lmin b ≤ Bins.lmax b
}.

(** The [Bins] objects: those returned by the constructor, and those left by
    a call of [cut_binning] that returns. *)
Inductive bins_instance : Bins.t → Prop :=
| instance_init (lmins lmaxs : list Z) (b : Bins.t) :
    Bins.__init__ lmins lmaxs = ok b → bins_instance b
| instance_cut (b b' : Bins.t) (lo hi : Z) :
    bins_instance b → Bins.cut_binning b lo hi = ok b' → bins_instance b'.


(** The assignment [p[b, a:z+1] = ell2[a:z+1] / dl] of [_bin_operators] on
    row [r] of [p]. *)
Definition p_row_update (ell2 : list Qc) (az : Z * Z) (r : list Qc)
  : list Qc :=
  slice_assign r az.1 (az.2 + 1)
    (map (λ x, (x / Qc_of_Z (az.2 - az.1 + 1))%Qc)
         (py_slice ell2 az.1 (az.2 + 1))).


(** ** Example configurations *)

(** Two maps at 100 GHz: one cross-spectrum and one cross-frequency, with
    the multipole range [2, 2]; the data spectrum is 4 at l = 2, the weight
    is 1 there, and the inverse covariance is the 1x1 identity (stored in
    the file in K^-4). *)
Definition two_maps (tt ee : bool) : result Hillipop.t :=
  Hillipop.__init__ 2 tt ee false false [100; 100]
    (replicate 4 [(2, 2)])
    (replicate 5 [[0; 0; Qc_of_Z 4]])%Qc
    (replicate 5 [[0; 0; 1]])%Qc
    [Qc_of_Z (10 ^ 24)] [].

(** Aplanck = 1, c0 = c1 = 1. *)
Definition pars_offsets : gmap string Qc :=
  list_to_map [("Aplanck", 1%Qc); ("c0", 1%Qc); ("c1", 1%Qc)].

(** Aplanck = 1, c0 = c1 = 0. *)
Definition pars_neutral : gmap string Qc :=
  list_to_map [("Aplanck", 1%Qc); ("c0", 0%Qc); ("c1", 0%Qc)].

(** A theory spectrum whose Dl is [d] at l = 2. *)
Definition theory_dl2 (d : Qc) : list (list Qc) :=
  [[0; 0; d / Hillipop.dl_factor 2]]%Qc.


(** [a] is an array of shape [(r, c)] given by its rows. *)
Definition shape2 {A : Type} (a : list (list A)) (r c : nat) : Prop :=
  length a = r ∧ Forall (λ row, length row = c) a.

(** [a[i][l]], zero outside the array. *)
Definition entry (a : list (list Qc)) (i l : nat) : Qc :=
  default 0%Qc (a !! i ≫= (.!! l)).

(** The sum of two arrays of the same shape, entry by entry. *)
Definition sum2 (a b : list (list Qc)) : list (list Qc) :=
  zip_with (zip_with Qcplus) a b.

(** The cross-spectra (map pairs) whose cross-frequency is [b]. *)
Definition bucket_members (st : Hillipop.t) (b : nat) : list nat :=
  filter (λ xs, Hillipop.xspec2xfreq st !! xs = Some b)
         (range (Hillipop.nxspec st)).

(** The total weight accumulated at cross-frequency [b] and multipole [l]. *)
Definition total_weight (st : Hillipop.t) (weight : list (list Qc))
  (b l : nat) : Qc :=
  fsum (map (λ xs, entry weight xs l) (bucket_members st b)).

(** The weighted sum of the contributing spectra at [b] and [l]. *)
Definition weighted_sum (st : Hillipop.t) (cl weight : list (list Qc))
  (b l : nat) : Qc :=
  fsum (map (λ xs, (entry weight xs l * entry cl xs l)%Qc)
            (bucket_members st b)).

(** The quotient of the weighted sum [s] by the total weight [t], and zero
    when the total weight is zero. *)
Definition weighted_mean (s t : Qc) : Qc :=
  if decide (t = 0%Qc) then 0%Qc else (s / t)%Qc.

(** [i] is the position of the first occurrence of [x] in [l]. *)
Definition first_occurrence {A : Type} (l : list A) (x : A) (i : nat) : Prop :=
  l !! i = Some x ∧ ∀ j, (j < i)%nat → l !! j ≠ Some x.

(** The entry at position [i] of the column of mode [m] of a table. *)
Definition table_entry (tab : list (list Z)) (m i : nat) : option Z :=
  tab !! m ≫= (.!! i).

(** [k] is the square root of [n]. *)
Definition sqrt_is (n : nat) (k : Z) : Prop := 0 ≤ k ∧ k * k = Z.of_nat n.

(** The index maps are consistent: there is one cross-frequency index, below
    [nxfreq], for each of the [nxspec] cross-spectra. *)
Definition index_maps_wf (st : Hillipop.t) : Prop :=
  length (Hillipop.xspec2xfreq st) = Hillipop.nxspec st ∧
  Forall (λ k, (k < Hillipop.nxfreq st)%nat) (Hillipop.xspec2xfreq st).


(** [a] holds one spectrum over the multipoles 0..lmax per cross-spectrum. *)
Definition spectra_wf (st : Hillipop.t) (a : list (list Qc)) : Prop :=
  shape2 a (Hillipop.nxspec st) (Z.to_nat (Hillipop.lmax st + 1)).


(** [seg] is the slice [cl[xf, lmin:lmax+1]] whose bounds are the entries of
    the table of [mode] at the position of the first cross-spectrum whose
    cross-frequency is [xf]. *)
Definition reads_entry (st : Hillipop.t) (mode : nat) (cl : list (list Qc))
  (xf : nat) (seg : list Qc) : Prop :=
  ∃ i lmin lmax r,
    first_occurrence (Hillipop.xspec2xfreq st) xf i ∧
    table_entry (Hillipop.lmins st) mode i = Some lmin ∧
    table_entry (Hillipop.lmaxs st) mode i = Some lmax ∧
    cl !! xf = Some r ∧
    seg = py_slice r lmin (lmax + 1).

(** [term] is [lmax - lmin + 1] for the entries of the table of [mode] at the
    position of the first cross-spectrum whose cross-frequency is [xf]. *)
Definition counts_entry (st : Hillipop.t) (mode : nat) (xf : nat) (term : Z)
  : Prop :=
  ∃ i lmin lmax,
    first_occurrence (Hillipop.xspec2xfreq st) xf i ∧
    table_entry (Hillipop.lmins st) mode i = Some lmin ∧
    table_entry (Hillipop.lmaxs st) mode i = Some lmax ∧
    term = lmax - lmin + 1.

(** The table indices that [_read_invcovmatrix] counts, in its order: it
    reads [lmaxs[0]] for TT, [lmaxs[1]] for EE, [lmaxs[2]] for TE and
    [lmaxs[3]] for ET (the tables of the file are TT, EE, BB, TE). *)
Definition active_tables (st : Hillipop.t) : list nat :=
  (if Hillipop.isTT st then [0%nat] else [])
  ++ (if Hillipop.isEE st then [1%nat] else [])
  ++ (if Hillipop.isTE st then [2%nat] else [])
  ++ (if Hillipop.isET st then [3%nat] else []).

(** The table of the file that holds the ranges of each active mode, in the
    order of the modes: the records of the file are TT, EE, BB and TE, and
    ET has the bounds of TE. *)
Definition mode_tables (st : Hillipop.t) : list nat :=
  (if Hillipop.isTT st then [0%nat] else [])
  ++ (if Hillipop.isEE st then [1%nat] else [])
  ++ (if Hillipop.isTE st then [3%nat] else [])
  ++ (if Hillipop.isET st then [3%nat] else []).

(** The total count of the retained multipoles: the sum, over the active
    modes, of the count of the table of the mode. *)
Definition retained_count (st : Hillipop.t) : result Z :=
  counts ← mapM_r (Hillipop.count_mode st) (mode_tables st);
  ok (foldr Z.add 0 counts).

(** Two maps at 100 GHz with the mode TE alone: one cross-spectrum and one
    cross-frequency; the tables of TT, EE and BB hold the range [2, 2] and
    the table of TE holds the range [2, 4], so that three multipoles are
    retained; [covmat] is the column of the covariance file. *)
Definition te_maps (covmat : list Qc) : result Hillipop.t :=
  Hillipop.__init__ 2 false false true false [100; 100]
    [[(2, 2)]; [(2, 2)]; [(2, 2)]; [(2, 4)]]
    (replicate 5 [[0; 0; Qc_of_Z 4; 0; 0]])%Qc
    (replicate 5 [[0; 0; 1; 1; 1]])%Qc
    covmat [].

(** The LMIN and LMAX columns of each table have the same length. *)
Definition columns_aligned (st : Hillipop.t) : Prop :=
  ∀ m lo hi, Hillipop.lmins st !! m = Some lo →
             Hillipop.lmaxs st !! m = Some hi → length lo = length hi.

(** Some cross-frequency index below [nxfreq] is the cross-frequency of no
    cross-spectrum. *)
Definition unattained_xfreq (st : Hillipop.t) : Prop :=
  ∃ xf, (xf < Hillipop.nxfreq st)%nat ∧ xf ∉ Hillipop.xspec2xfreq st.

(** Three maps at 100, 143 and 217 GHz with the given mode flags, and an
    empty covariance file. *)
Definition three_maps (tt ee te et : bool) : result Hillipop.t :=
  Hillipop.__init__ 3 tt ee te et [100; 143; 217]
    (replicate 4 (replicate 3 (2, 2)))
    (replicate 5 (replicate 3 [0; 0; Qc_of_Z 4]))%Qc
    (replicate 5 (replicate 3 [0; 0; 1]))%Qc
    [] [].


(** Every range of the table of [mode] is a range of multipoles:
    0 <= lmin <= lmax. *)
Definition ranges_valid (st : Hillipop.t) (mode : nat) : Prop :=
  ∀ i lmin lmax,
    table_entry (Hillipop.lmins st) mode i = Some lmin →
    table_entry (Hillipop.lmaxs st) mode i = Some lmax →
    0 ≤ lmin ≤ lmax.

(** Aplanck = 1 and every calibration offset c_m = 0. *)
Definition neutral_calibration (st : Hillipop.t) (pars : gmap string Qc)
  : Prop :=
  pars !! "Aplanck" = Some 1%Qc ∧
  ∀ m, (m < Hillipop.nmap st)%nat → pars !! Hillipop.cname m = Some 0%Qc.

(** Every foreground model contributes zero to every cross-spectrum. *)
Definition zero_foregrounds (st : Hillipop.t) (pars : gmap string Qc)
  : Prop :=
  Forall (λ fg, Hillipop.compute_dl fg pars
                = ok (replicate (Hillipop.nxspec st)
                        (replicate (Z.to_nat (Hillipop.lmax st + 1)) 0%Qc)))
         (Hillipop.fgsTT st).

(** The Dl conversion of the TT theory spectrum is the stored TT data
    spectrum of every cross-spectrum. *)
Definition theory_reproduces_data (st : Hillipop.t)
  (cl_boltz : list (list Qc)) : Prop :=
  ∃ dlth t0,
    Hillipop.to_dl st cl_boltz = ok dlth ∧
    dlth !! 0%nat = Some t0 ∧
    Hillipop.dldata st !! 0%nat = Some (replicate (Hillipop.nxspec st) t0).

(** The stored TT weights have one spectrum per cross-spectrum. *)
Definition weights_wf (st : Hillipop.t) : Prop :=
  ∃ w0, Hillipop.dlweight st !! 0%nat = Some w0 ∧ spectra_wf st w0.

(** Two maps at 100 GHz as in [two_maps], with a foreground model that
    contributes zero. *)
Definition two_maps_fg (tt ee : bool) : result Hillipop.t :=
  Hillipop.__init__ 2 tt ee false false [100; 100]
    (replicate 4 [(2, 2)])
    (replicate 5 [[0; 0; Qc_of_Z 4]])%Qc
    (replicate 5 [[0; 0; 1]])%Qc
    (if tt && ee then [Qc_of_Z (10 ^ 24); 0; 0; Qc_of_Z (10 ^ 24)]%Qc
     else if tt || ee then [Qc_of_Z (10 ^ 24)] else [])
    [Hillipop.Foreground (λ _, ok [[0; 0; 0]]%Qc)].

(** ** Vocabulary of the further properties *)

(** [l] is strictly increasing. *)
Definition increasing (l : list Z) : Prop :=
  ∀ i j a b, (i < j)%nat → l !! i = Some a → l !! j = Some b → a < b.

(** The maps are listed by non-decreasing frequency. *)
Definition nondecreasing (l : list Z) : Prop :=
  ∀ i j a b, (i < j)%nat → l !! i = Some a → l !! j = Some b → a ≤ b.

(** [k] is the cross-frequency index of the pair of maps [m]: the position,
    in the list of the pairs of frequency indices, of the pair of the
    positions of the frequencies of the two maps among the sorted distinct
    frequencies. *)
Definition xfreq_of (fqs : list Z) (m : nat * nat) (k : nat) : Prop :=
  ∃ f1 f2 a b,
    fqs !! m.1 = Some a ∧ fqs !! m.2 = Some b ∧
    np_unique fqs !! f1 = Some a ∧ np_unique fqs !! f2 = Some b ∧
    loop_pairs 0 (length (np_unique fqs)) !! k = Some (f1, f2).

(** The foreground models return the arrays [F] on [pars], each with one
    spectrum over the multipoles 0..lmax per cross-spectrum. *)
Definition foregrounds_shaped (st : Hillipop.t) (pars : gmap string Qc)
  (F : list (list (list Qc))) : Prop :=
  Forall2 (λ fg f, Hillipop.compute_dl fg pars = ok f ∧ spectra_wf st f)
          (Hillipop.fgsTT st) F.

(** The model of cross-spectrum [xs] at multipole [l]: the theory spectrum
    [t0] plus the foreground arrays [F]. *)
Definition model_entry (t0 : list Qc) (F : list (list (list Qc)))
  (xs l : nat) : Qc :=
  (default 0 (t0 !! l) + fsum (map (λ f, entry f xs l) F))%Qc.

(** The residual of cross-spectrum [xs] at multipole [l]: the data minus the
    calibrated model. *)
Definition residual_entry (d0 : list (list Qc)) (cal t0 : list Qc)
  (F : list (list (list Qc))) (xs l : nat) : Qc :=
  (entry d0 xs l - default 0 (cal !! xs) * model_entry t0 F xs l)%Qc.

(** Every foreground model returns, on [pars], an array with one spectrum
    over the multipoles 0..lmax per cross-spectrum. *)
Definition foregrounds_wf (st : Hillipop.t) (pars : gmap string Qc) : Prop :=
  ∃ F, foregrounds_shaped st pars F.

(** [key] is the first parameter that the [#nuisances] loops look up and do
    not find: [Aplanck], or else the calibration offset of the least map
    that has none. *)
Definition first_missing (st : Hillipop.t) (pars : gmap string Qc)
  (key : string) : Prop :=
  (pars !! "Aplanck" = None ∧ key = "Aplanck") ∨
  (is_Some (pars !! "Aplanck") ∧
   ∃ m, (m < Hillipop.nmap st)%nat ∧ key = Hillipop.cname m ∧
        pars !! Hillipop.cname m = None ∧
        ∀ m', (m' < m)%nat → is_Some (pars !! Hillipop.cname m')).

(** The array [a] with every entry multiplied by [c]. *)
Definition scale2 (c : Qc) (a : list (list Qc)) : list (list Qc) :=
  map (map (Qcmult c)) a.

(** The stored TT data have one spectrum per cross-spectrum. *)
Definition data_wf (st : Hillipop.t) : Prop :=
  ∃ d0, Hillipop.dldata st !! 0%nat = Some d0 ∧ spectra_wf st d0.

(** [Aplanck] and the calibration offset of every map are given. *)
Definition params_complete (st : Hillipop.t) (pars : gmap string Qc) : Prop :=
  is_Some (pars !! "Aplanck") ∧
  ∀ m, (m < Hillipop.nmap st)%nat → is_Some (pars !! Hillipop.cname m).

(** The theory spectra: at least one row, and every row reaches [lmax]. *)
Definition theory_wf (st : Hillipop.t) (cl_boltz : list (list Qc)) : Prop :=
  cl_boltz ≠ [] ∧
  Forall (λ r, (Z.to_nat (Hillipop.lmax st + 1) ≤ length r)%nat) cl_boltz.

(** The value that the rows [(ell, value)] of a table give to the multipole
    [l]: the value of the last row whose [ell] is [l], and zero when there
    is none. *)
Definition last_at (rows : list (Z * Qc)) (l : Z) : Qc :=
  default 0%Qc (last (map snd (filter (λ r, r.1 = l) rows))).

(** The columns [(ell, field 1)] and [(ell, field 2)] of a table. *)
Definition field1 (data : list (Z * Qc * Qc)) : list (Z * Qc) :=
  map (λ r, (r.1.1, r.1.2)) data.

Definition field2 (data : list (Z * Qc * Qc)) : list (Z * Qc) :=
  map (λ r, (r.1.1, r.2)) data.

(** The weight of an error [sigma] given in K^2: zero when the error is
    zero, and 1/(sigma 10^12)^2 otherwise. *)
Definition inverse_variance (sigma : Qc) : Qc :=
  if decide (sigma = 0%Qc) then 0%Qc
  else (1 / (sigma * Qc_of_Z (10 ^ 12) * (sigma * Qc_of_Z (10 ^ 12))))%Qc.

(** A table with the rows (3, 1, 1), (1, 1, 1) and (3, 2, 0). *)
Definition example_table : list (Z * Qc * Qc) :=
  [(3, 1%Qc, 1%Qc); (1, 1%Qc, 1%Qc); (3, Qc_of_Z 2, 0%Qc)].

(** What a reader of the cross-spectra files gives, for the function
    [column] that it applies to a table: with fewer than two maps it
    raises; an array that it returns has the five blocks TT, EE, BB, TE, ET,
    the ET block being the TE block; every block has one row per pair of
    maps, all rows have the same length, and the row of a pair is what
    [column] gives for the table of the mode in the file of the pair (the
    fourth table for both TE and ET). *)
Definition xpol_layout (column : Z → list (Z * Qc * Qc) → result (list Qc))
  (nmap : nat) (lmax : Z) (xpol : nat → nat → list (list (Z * Qc * Qc)))
  (r : result (list (list (list Qc)))) : Prop :=
  ((nmap < 2)%nat → r = raise (ValueError "axes don't match array")) ∧
  ∀ out, r = ok out →
    length out = 5%nat ∧ out !! 4%nat = out !! 3%nat ∧
    ∃ L, ∀ mode block, out !! mode = Some block →
      shape2 block (nmap * (nmap - 1) / 2) L ∧
      Forall2 (λ (m : nat * nat) row,
                 ∃ data, xpol m.1 m.2 !! Nat.min mode 3 = Some data ∧
                         column lmax data = ok row)
              (loop_pairs 1 nmap) block.

(** The entry (i, j) of the product [np.dot(p, q)] of two matrices. *)
Definition mat_mul_entry (p q : array2) (i j : nat) : Qc :=
  fsum (zip_with Qcmult (default [] (rows p !! i))
                        (map (λ r, default 0%Qc (r !! j)) (rows q))).

(** The weight [ell2[l]] of [_bin_operators]. *)
Definition ell2_at (Dl : bool) (l : nat) : Qc :=
  if Dl then (Qc_of_Z (Z.of_nat l) * (Qc_of_Z (Z.of_nat l) + 1)
              / (2 * np_pi))%Qc
  else 1%Qc.

(** The number of occurrences of the character [c] in a line. *)
Definition occurrences (c : ascii) (line : string) : nat :=
  length (filter (λ x, x = c) (list_ascii_of_string line)).

(** A string that does not begin and does not end with whitespace. *)
Definition trimmed (s : list ascii) : Prop :=
  (∀ c, head s = Some c → is_space c = false) ∧
  (∀ c, last s = Some c → is_space c = false).

(** The values that [read_parameter] stores: a string without a space that
    is trimmed, or a list of at least two words, each of them not empty and
    without whitespace. *)
Definition pvalue_wf (v : pvalue) : Prop :=
  match v with
  | PStr s =>
      (" "%char ∉ list_ascii_of_string s) ∧ trimmed (list_ascii_of_string s)
  | PList ws =>
      (2 ≤ length ws)%nat ∧
      Forall (λ w, w ≠ EmptyString ∧
                   Forall (λ c, is_space c = false) (list_ascii_of_string w))
             ws
  end.

(** A parameter file of two lines, the second with two values. *)
Definition example_file : list string :=
  [String.append "map = 6" (String "010" EmptyString);
   String.append "freq = 100 143" (String "010" EmptyString)].

(** * Verification *)

(** ** The result monad *)

Lemma bind_ok {A B : Type} (f : A → result B) (x : A) : (ok x ≫= f) = f x.
Proof. reflexivity. Qed.

Lemma bind_raise {A B : Type} (f : A → result B) (e : exn) :
  (raise e ≫= f) = raise e.
Proof. reflexivity. Qed.

Lemma bind_ok_inv {A B : Type} (f : A → result B) (m : result A) (y : B) :
  (m ≫= f) = ok y → ∃ x, m = ok x ∧ f x = ok y.
Proof. destruct m as [e|x]; [discriminate | eauto]. Qed.

Lemma bind_fails {A B : Type} (f : A → result B) (m : result A) :
  fails m → fails (m ≫= f).
Proof. intros [e ->]. by exists e. Qed.

Lemma fails_not_ok {A : Type} (r : result A) : fails r ↔ ¬ is_ok r.
Proof.
  split.
  - intros [e ->] [x Hx]. discriminate.
  - destruct r as [e|x]; [by exists e | intros []; by exists x].
Qed.

(** Inversion of a successful sequence of binds. *)
Ltac inv_bind H :=
  repeat match type of H with
    | (_ ≫= _) = ok _ =>
        let x := fresh "x" in
        let Hx := fresh "Hx" in
        apply bind_ok_inv in H as (x & Hx & H)
    | ok _ = ok _ => injection H as H
    | inr _ = inr _ => injection H as H
    end.

Lemma mapM_r_ok_length {A B : Type} (f : A → result B) xs ys :
  mapM_r f xs = ok ys → length ys = length xs.
Proof.
  revert ys. induction xs as [|x xs IH]; intros ys H; simpl in H.
  - by injection H as <-.
  - inv_bind H. subst ys. simpl. f_equal. eauto.
Qed.

Lemma mapM_r_ok_lookup {A B : Type} (f : A → result B) xs ys i x :
  mapM_r f xs = ok ys → xs !! i = Some x →
  ∃ y, ys !! i = Some y ∧ f x = ok y.
Proof.
  revert ys i. induction xs as [|x0 xs IH]; intros ys i H Hi; [done|].
  simpl in H. inv_bind H. subst ys. destruct i as [|i]; simpl in *.
  - injection Hi as ->. eauto.
  - eauto.
Qed.

Lemma mapM_r_pure {A B : Type} (f : A → result B) (g : A → B) xs :
  (∀ x, x ∈ xs → f x = ok (g x)) → mapM_r f xs = ok (map g xs).
Proof.
  induction xs as [|x xs IH]; intros H; [done|]. simpl.
  rewrite H by left. rewrite bind_ok, IH; [done|].
  intros y Hy. apply H. by right.
Qed.

Lemma mapM_r_fails {A B : Type} (f : A → result B) xs x :
  x ∈ xs → fails (f x) → fails (mapM_r f xs).
Proof.
  induction xs as [|x0 xs IH]; intros Hin Hf; [by apply elem_of_nil in Hin|].
  simpl. apply elem_of_cons in Hin as [->|Hin].
  - by apply bind_fails.
  - destruct (f x0) as [e|y]; [by exists e|]. rewrite bind_ok.
    by apply bind_fails, IH.
Qed.

Lemma foldM_fails {A B : Type} (f : A → B → result A) xs x :
  x ∈ xs → (∀ acc, fails (f acc x)) → ∀ acc, fails (foldM f acc xs).
Proof.
  induction xs as [|x0 xs IH]; intros Hin Hf acc;
    [by apply elem_of_nil in Hin|].
  simpl. apply elem_of_cons in Hin as [->|Hin].
  - by apply bind_fails.
  - destruct (f acc x0) as [e|y]; [by exists e|]. rewrite bind_ok. by apply IH.
Qed.

Lemma py_index_ok {A : Type} (l : list A) i x :
  py_index l i = ok x ↔ l !! i = Some x.
Proof.
  unfold py_index. destruct (l !! i); split; intros H;
    by (discriminate || injection H as ->).
Qed.

Lemma py_index_lookup {A : Type} (l : list A) i x :
  l !! i = Some x → py_index l i = ok x.
Proof. apply py_index_ok. Qed.

(** [l.index(x)] returns the first position holding [x], and raises exactly
    when [x] does not occur. *)
Lemma list_index_ok `{EqDecision A} (l : list A) (x : A) (i : nat) :
  list_index l x = ok i ↔
  l !! i = Some x ∧ ∀ j, (j < i)%nat → l !! j ≠ Some x.
Proof.
  revert i. induction l as [|y l IH]; intros i; simpl.
  - split; [discriminate | by intros [? _]].
  - destruct (decide (y = x)) as [->|Hne].
    + split.
      * intros [= <-]. split; [done | lia].
      * intros [Hi Hfirst]. destruct i as [|i]; [done|].
        exfalso. by apply (Hfirst 0%nat); [lia|].
    + split.
      * intros H. inv_bind H. subst i. apply IH in Hx as [Hi Hfirst].
        split; [done|]. intros [|j] Hj; simpl; [congruence|].
        apply Hfirst. lia.
      * intros [Hi Hfirst]. destruct i as [|i]; simpl in Hi; [congruence|].
        assert (list_index l x = ok i) as ->; [|done].
        apply IH. split; [done|]. intros j Hj. apply (Hfirst (S j)). lia.
Qed.

Lemma list_index_fails `{EqDecision A} (l : list A) (x : A) :
  x ∉ l ↔ list_index l x = raise (ValueError "x is not in list").
Proof.
  induction l as [|y l IH]; simpl.
  - split; [done | intros _; apply not_elem_of_nil].
  - rewrite not_elem_of_cons. destruct (decide (y = x)) as [->|Hne].
    + split; [by intros [[] _] | discriminate].
    + split.
      * intros [_ Hl]. apply IH in Hl. by rewrite Hl.
      * intros H. split; [done|]. apply IH.
        destruct (list_index l x); [|discriminate]. done.
Qed.

Lemma list_index_elem `{EqDecision A} (l : list A) (x : A) :
  x ∈ l → ∃ i, list_index l x = ok i.
Proof.
  intros Hin. destruct (list_index l x) as [e|i] eqn:E; [|by exists i].
  exfalso. revert e E. induction l as [|y l IH]; intros e E;
    [by apply elem_of_nil in Hin|].
  simpl in E. destruct (decide (y = x)) as [->|Hne]; [discriminate|].
  apply elem_of_cons in Hin as [->|Hin]; [done|].
  destruct (list_index l x) as [e'|i] eqn:E'; [eauto | discriminate].
Qed.

(** ** Bins: construction *)

Lemma mask_select_cutfirst (lmins lmaxs : list Z) :
  length lmins = length lmaxs →
  let cutfirst := zip_with (λ z a, (2 <=? z) && (2 <=? a)) lmaxs lmins in
  mask_select lmins cutfirst = (retained lmins lmaxs).*1 ∧
  mask_select lmaxs cutfirst = (retained lmins lmaxs).*2.
Proof.
  unfold retained. revert lmaxs.
  induction lmins as [|a lmins IH]; intros [|z lmaxs] Hlen; try done.
  simpl in Hlen. injection Hlen as Hlen. destruct (IH _ Hlen) as [IH1 IH2].
  simpl. rewrite filter_cons. unfold dropped at 1. simpl.
  destruct (Z.leb_spec 2 z), (Z.leb_spec 2 a); simpl;
    (destruct (decide _) as [Hd|Hd]; [|try (exfalso; apply Hd; lia)]);
    try (exfalso; lia); simpl; by rewrite ?IH1, ?IH2.
Qed.

Lemma check_bounds_ok (pairs : list (Z * Z)) :
  Forall (λ p, p.1 ≤ p.2) pairs → Bins.check_bounds pairs = ok ().
Proof.
  induction 1 as [|[a z] pairs Hp _ IH]; [done|]. simpl in *.
  destruct (Z.ltb_spec z a); [lia | done].
Qed.

Lemma check_bounds_raise (pairs : list (Z * Z)) :
  Exists (λ p, p.2 < p.1) pairs →
  Bins.check_bounds pairs = raise (ValueError "Incoherent inputs").
Proof.
  induction pairs as [|[a z] pairs IH]; intros H; [by apply Exists_nil in H|].
  simpl. destruct (Z.ltb_spec z a) as [Hlt|Hge]; [done|].
  apply Exists_cons in H as [H|H]; [simpl in H; lia | by apply IH].
Qed.

Lemma py_min_spec (l : list Z) (m : Z) :
  py_min l = ok m → m ∈ l ∧ Forall (λ x, m ≤ x) l.
Proof.
  destruct l as [|x l]; [discriminate|]. simpl. intros [= <-].
  induction l as [|y l [IH1 IH2]]; simpl.
  - split; [left | by repeat constructor].
  - apply Forall_cons in IH2 as [Hx Hl]. split.
    + destruct (Z.min_spec y (foldr Z.min x l)) as [[_ ->]|[_ ->]].
      * right; left.
      * apply elem_of_cons in IH1 as [->|?]; [left | right; by right].
    + repeat constructor; [lia|lia|].
      eapply Forall_impl; [exact Hl|]. simpl. lia.
Qed.

Lemma py_max_spec (l : list Z) (m : Z) :
  py_max l = ok m → m ∈ l ∧ Forall (λ x, x ≤ m) l.
Proof.
  destruct l as [|x l]; [discriminate|]. simpl. intros [= <-].
  induction l as [|y l [IH1 IH2]]; simpl.
  - split; [left | by repeat constructor].
  - apply Forall_cons in IH2 as [Hx Hl]. split.
    + destruct (Z.max_spec y (foldr Z.max x l)) as [[_ ->]|[_ ->]].
      * apply elem_of_cons in IH1 as [->|?]; [left | right; by right].
      * right; left.
    + repeat constructor; [lia|lia|].
      eapply Forall_impl; [exact Hl|]. simpl. lia.
Qed.

Lemma py_min_nonempty (l : list Z) : l ≠ [] → is_ok (py_min l).
Proof. destruct l; [done|]. intros _. by eexists. Qed.

Lemma py_max_nonempty (l : list Z) : l ≠ [] → is_ok (py_max l).
Proof. destruct l; [done|]. intros _. by eexists. Qed.

Lemma check_bounds_inv (pairs : list (Z * Z)) u :
  Bins.check_bounds pairs = ok u → Forall (λ p, p.1 ≤ p.2) pairs.
Proof.
  induction pairs as [|[a z] pairs IH]; intros H; [constructor|].
  simpl in H. destruct (Z.ltb_spec z a); [discriminate|].
  constructor; [simpl; lia | auto].
Qed.

Lemma derive_ext_wf (lmins lmaxs : list Z) (b : Bins.t) :
  length lmins = length lmaxs →
  Bins._derive_ext lmins lmaxs = ok b →
  bins_wf b ∧ Bins.lmins b = lmins ∧ Bins.lmaxs b = lmaxs.
Proof.
  intros Hlen H. unfold Bins._derive_ext in H. inv_bind H.
  destruct (Z.ltb_spec x0 1); [discriminate|].
  destruct (Z.ltb_spec x1 x0); [discriminate|].
  injection H as <-. simpl. split; [|done].
  apply py_min_spec in Hx0 as [_ ?]. apply py_max_spec in Hx1 as [_ ?].
  apply check_bounds_inv in Hx. by constructor.
Qed.

Lemma init_wf (lmins lmaxs : list Z) (b : Bins.t) :
  Bins.__init__ lmins lmaxs = ok b →
  bins_wf b ∧ zip (Bins.lmins b) (Bins.lmaxs b) = retained lmins lmaxs.
Proof.
  unfold Bins.__init__. case_bool_decide as Hlen; [|discriminate]. simpl.
  destruct (mask_select_cutfirst lmins lmaxs Hlen) as [-> ->]. intros H.
  apply derive_ext_wf in H as (Hwf & -> & ->);
    [|by rewrite !length_fmap].
  split; [done|]. apply zip_fst_snd.
Qed.

Lemma derive_ext_raise (lmins lmaxs : list Z) :
  Exists (λ p, p.2 < p.1) (zip lmins lmaxs) →
  Bins._derive_ext lmins lmaxs = raise (ValueError "Incoherent inputs").
Proof.
  intros H. unfold Bins._derive_ext. by rewrite (check_bounds_raise _ H).
Qed.

Lemma retained_elem (lmins lmaxs : list Z) (i : nat) (a z : Z) :
  lmins !! i = Some a → lmaxs !! i = Some z → 2 ≤ a → 2 ≤ z →
  (a, z) ∈ retained lmins lmaxs.
Proof.
  intros Ha Hz ? ?. unfold retained. apply list_elem_of_filter. split.
  - unfold dropped. simpl. lia.
  - apply list_elem_of_lookup. exists i.
    rewrite lookup_zip_with, Ha. simpl. by rewrite Hz.
Qed.

(** C6 (as amended): construction raises [ValueError] when the two sequences
    differ in length, and when a bin that survives the cut below the
    quadrupole (lmin >= 2 and lmax >= 2) has lmin > lmax. *)
Theorem Bins_init_rejects (lmins lmaxs : list Z) :
  (length lmins ≠ length lmaxs ∨
   ∃ i a z, lmins !! i = Some a ∧ lmaxs !! i = Some z ∧
            2 ≤ a ∧ 2 ≤ z ∧ a > z) →
  Bins.__init__ lmins lmaxs = raise (ValueError "Incoherent inputs").
Proof.
  intros H. unfold Bins.__init__. case_bool_decide as Hlen; simpl; [|done].
  destruct H as [H|(i & a & z & Ha & Hz & ? & ? & ?)]; [done|].
  destruct (mask_select_cutfirst lmins lmaxs Hlen) as [-> ->].
  apply derive_ext_raise. rewrite zip_fst_snd.
  apply Exists_exists. exists (a, z). split; [|simpl; lia].
  by eapply retained_elem.
Qed.

Lemma Bins_init_rejects_witness :
  Bins.__init__ [2; 7] [4; 6] = raise (ValueError "Incoherent inputs").
Proof.
  apply (Bins_init_rejects [2; 7] [4; 6]). right.
  exists 1%nat, 7, 6. repeat split; (reflexivity || lia).
Defined.

(** C6 (as stated) fails: a bin with lmin > lmax whose lmax is below 2 is
    dropped before the bounds are compared, and construction succeeds. *)
Lemma Bins_init_inverted_bin_accepted :
  (∃ i a z, [5; 2] !! i = Some a ∧ [1; 3] !! i = Some z ∧ a > z) ∧
  ∃ b, Bins.__init__ [5; 2] [1; 3] = ok b ∧ Bins.lmins b = [2] ∧ Bins.lmaxs b = [3].
Proof.
  split.
  - exists 0%nat, 5, 1. by repeat split.
  - eexists. split; [reflexivity|]. split; reflexivity.
Qed.

(** C7 (as amended): for equal-length sequences with lmin <= lmax
    elementwise of which at least one entry has lmin >= 2, construction
    succeeds, keeps exactly the entries that have neither lmax < 2 nor
    lmin < 2, in their order, and [nbins] is the number of entries kept. *)
Theorem Bins_init_succeeds (lmins lmaxs : list Z) :
  length lmins = length lmaxs →
  Forall2 Z.le lmins lmaxs →
  (∃ a, a ∈ lmins ∧ 2 ≤ a) →
  ∃ b, Bins.__init__ lmins lmaxs = ok b ∧
       zip (Bins.lmins b) (Bins.lmaxs b)
         = filter (λ p, ¬ dropped p) (zip lmins lmaxs) ∧
       length (Bins.lmins b) = length (Bins.lmaxs b) ∧
       Bins.nbins b = length (filter (λ p, ¬ dropped p) (zip lmins lmaxs)).
Proof.
  intros Hlen Hle (a & Ha & Ha2).
  assert (Forall (λ p, p.1 ≤ p.2) (retained lmins lmaxs)) as Hord.
  { apply Forall_forall. intros [a' z'] Hin.
    apply list_elem_of_filter in Hin as [_ Hin].
    apply list_elem_of_lookup in Hin as [i Hi].
    apply lookup_zip_with_Some in Hi as (x & y & [= <- <-] & Hx & Hy).
    simpl. eapply Forall2_lookup_lr; eauto. }
  assert (∃ z, (a, z) ∈ retained lmins lmaxs) as [z Hin].
  { apply list_elem_of_lookup in Ha as [i Hi].
    destruct (lookup_lt_is_Some_2 lmaxs i) as [z Hz].
    { rewrite <- Hlen. by eapply lookup_lt_Some. }
    exists z. eapply retained_elem; eauto.
    pose proof (Forall2_lookup_lr _ _ _ _ _ _ Hle Hi Hz). lia. }
  unfold Bins.__init__. rewrite bool_decide_eq_true_2 by done. simpl.
  destruct (mask_select_cutfirst lmins lmaxs Hlen) as [-> ->].
  fold (retained lmins lmaxs). set (sel := retained lmins lmaxs) in *.
  assert (sel ≠ []) as Hne by (intros E; rewrite E in Hin; by apply elem_of_nil in Hin).
  destruct (py_min_nonempty (sel.*1)) as [lo Hlo].
  { by destruct sel. }
  destruct (py_max_nonempty (sel.*2)) as [hi Hhi].
  { by destruct sel. }
  unfold Bins._derive_ext. rewrite zip_fst_snd, (check_bounds_ok _ Hord).
  rewrite bind_ok, Hlo, bind_ok, Hhi, bind_ok.
  apply py_min_spec in Hlo as [Hlo_in Hlo]. apply py_max_spec in Hhi as [_ Hhi].
  assert (2 ≤ lo) as Hlo2.
  { apply list_elem_of_fmap in Hlo_in as ([a' z'] & -> & Hin').
    apply list_elem_of_filter in Hin' as [Hnd _]. unfold dropped in Hnd.
    simpl in *. lia. }
  assert (lo ≤ hi) as Hlohi.
  { destruct sel as [|[a0 z0] sel']; [done|].
    apply Forall_cons in Hlo as [? _]. apply Forall_cons in Hhi as [? _].
    apply Forall_cons in Hord as [? _]. simpl in *. lia. }
  destruct (Z.ltb_spec lo 1); [lia|]. destruct (Z.ltb_spec hi lo); [lia|].
  eexists. split; [reflexivity|]. simpl.
  rewrite zip_fst_snd, !length_fmap. done.
Qed.

Lemma Bins_init_succeeds_witness :
  ∃ b, Bins.__init__ [0; 2; 5] [1; 4; 9] = ok b ∧
       zip (Bins.lmins b) (Bins.lmaxs b)
         = filter (λ p, ¬ dropped p) (zip [0; 2; 5] [1; 4; 9]) ∧
       length (Bins.lmins b) = length (Bins.lmaxs b) ∧
       Bins.nbins b
         = length (filter (λ p, ¬ dropped p) (zip [0; 2; 5] [1; 4; 9])).
Proof.
  apply (Bins_init_succeeds [0; 2; 5] [1; 4; 9]).
  - reflexivity.
  - repeat constructor; lia.
  - exists 2. split; [|lia]. right; left.
Defined.

(** C7 (as stated) fails: when every entry is dropped the constructor takes
    [min] of an empty sequence and raises. *)
Lemma Bins_init_all_dropped_raises :
  length [0; 1] = length [1; 1] ∧ Forall2 Z.le [0; 1] [1; 1] ∧
  Bins.__init__ [0; 1] [1; 1]
    = raise (ValueError "min() arg is an empty sequence").
Proof. split; [done|]. split; [repeat constructor; lia | reflexivity]. Qed.

(** ** Bins: the binning operator *)

Lemma mask_select_length {A B : Type} (l1 : list A) (l2 : list B) mask :
  length l1 = length l2 →
  length (mask_select l1 mask) = length (mask_select l2 mask).
Proof.
  revert l2 mask. induction l1 as [|x l1 IH]; intros [|y l2] [|[] mask] H;
    try done; simpl in *; injection H as H; auto.
Qed.

Lemma cut_binning_wf (b b' : Bins.t) (lo hi : Z) :
  bins_wf b → Bins.cut_binning b lo hi = ok b' → bins_wf b'.
Proof.
  intros Hwf H. unfold Bins.cut_binning in H.
  apply derive_ext_wf in H as [? _]; [done|].
  apply mask_select_length, Hwf.
Qed.

Lemma bins_instance_wf (b : Bins.t) : bins_instance b → bins_wf b.
Proof.
  induction 1 as [lmins lmaxs b H|b b' lo hi _ IH H].
  - by apply init_wf in H as [? _].
  - by eapply cut_binning_wf.
Qed.

Lemma slice_bound_in (n : nat) (i : Z) :
  0 ≤ i ≤ Z.of_nat n → slice_bound n i = Z.to_nat i.
Proof.
  intros H. unfold slice_bound. destruct (Z.ltb_spec i 0); lia.
Qed.

Lemma py_slice_replicate {A : Type} (n : nat) (x : A) (a z : Z) :
  0 ≤ a → a ≤ z → z < Z.of_nat n →
  py_slice (replicate n x) a (z + 1) = replicate (Z.to_nat (z - a + 1)) x.
Proof.
  intros ? ? ?. unfold py_slice. rewrite length_replicate.
  rewrite !slice_bound_in by lia.
  rewrite drop_replicate, take_replicate. f_equal. lia.
Qed.

Lemma slice_assign_replicate {A : Type} (n : nat) (x : A) (a z : Z) vals :
  0 ≤ a → a ≤ z → z < Z.of_nat n →
  slice_assign (replicate n x) a (z + 1) vals
  = replicate (Z.to_nat a) x ++ vals
      ++ replicate (n - Z.to_nat (z + 1)) x.
Proof.
  intros ? ? ?. unfold slice_assign. rewrite length_replicate.
  rewrite !slice_bound_in by lia.
  rewrite drop_replicate, take_replicate. repeat f_equal; lia.
Qed.

Lemma py_slice_all {A : Type} (l : list A) :
  py_slice l 0 (Z.of_nat (length l)) = l.
Proof.
  unfold py_slice. rewrite !slice_bound_in by lia.
  rewrite Nat2Z.id. simpl. rewrite Nat.sub_0_r. apply firstn_all.
Qed.

Lemma fsum_app (l1 l2 : list Qc) : fsum (l1 ++ l2) = (fsum l1 + fsum l2)%Qc.
Proof.
  induction l1 as [|x l1 IH]; simpl; [ring|]. rewrite IH. ring.
Qed.

Lemma fsum_replicate (n : nat) (x : Qc) :
  fsum (replicate n x) = (Qc_of_Z (Z.of_nat n) * x)%Qc.
Proof.
  induction n as [|n IH].
  { change (0%Qc = (Qc_of_Z 0 * x)%Qc). rewrite Z2Qc_inj_0. ring. }
  rewrite Nat2Z.inj_succ, <- Z.add_1_r, Z2Qc_inj_add, Z2Qc_inj_1. simpl.
  rewrite IH. ring.
Qed.

Lemma fsum_scale (c : Qc) (l : list Qc) :
  fsum (zip_with Qcmult (replicate (length l) c) l) = (c * fsum l)%Qc.
Proof.
  induction l as [|x l IH]; simpl; [ring|]. rewrite IH. ring.
Qed.

Lemma fsum_cons (x : Qc) (l : list Qc) : fsum (x :: l) = (x + fsum l)%Qc.
Proof. done. Qed.

Lemma fsum_zeros (l : list Qc) : Forall (λ x, x = 0%Qc) l → fsum l = 0%Qc.
Proof. induction 1 as [|x l -> _ IH]; simpl; [done|]. rewrite IH. ring. Qed.

Lemma map_lookup_range (l : list Qc) :
  map (λ i, default 0%Qc (l !! i)) (range (length l)) = l.
Proof.
  apply list_eq. intros i. unfold range. rewrite list_lookup_fmap.
  destruct (decide (i < length l)%nat) as [Hi|Hi].
  - rewrite lookup_seq_lt by done. simpl.
    destruct (lookup_lt_is_Some_2 l i Hi) as [x ->]. done.
  - rewrite lookup_seq_ge by lia. simpl. symmetry. apply lookup_ge_None. lia.
Qed.


Lemma fold_left_fst {A B C : Type} (F : A * B → C → A * B) (f1 : A → C → A)
  (l : list C) (pq : A * B) :
  (∀ pq e, (F pq e).1 = f1 pq.1 e) →
  (fold_left F l pq).1 = fold_left f1 l pq.1.
Proof.
  intros HF. revert pq. induction l as [|e l IH]; intros pq; [done|].
  simpl. by rewrite IH, HF.
Qed.

Lemma enumerate_snoc {A : Type} (l : list A) (x : A) :
  enumerate (l ++ [x]) = enumerate l ++ [(length l, x)].
Proof.
  unfold enumerate. rewrite imap_app. simpl. by rewrite Nat.add_0_r.
Qed.

Lemma fold_alter_enumerate {A B : Type} (g : B → A → A) (l : list B)
  (p0 : list A) (i : nat) :
  fold_left (λ p (e : nat * B), alter (g e.2) e.1 p) (enumerate l) p0 !! i
  = match l !! i with
    | Some x => g x <$> p0 !! i
    | None => p0 !! i
    end.
Proof.
  revert i. induction l as [|x l IH] using rev_ind; intros i; [done|].
  rewrite enumerate_snoc, fold_left_app. simpl.
  destruct (decide (i = length l)) as [->|Hne].
  - rewrite list_lookup_alter, IH, lookup_ge_None_2 by lia.
    rewrite decide_True by done.
    by rewrite lookup_app_r, Nat.sub_diag by lia.
  - rewrite list_lookup_alter_ne, IH by done.
    destruct (decide (i < length l)%nat).
    + by rewrite lookup_app_l by done.
    + rewrite (lookup_ge_None_2 (l ++ [x])), (lookup_ge_None_2 l);
        [done | lia | rewrite length_app; simpl; lia].
Qed.

Lemma bin_operators_p_rows (b : Bins.t) (Dl cov : bool) :
  let n := Z.to_nat (Bins.lmax b + 1) in
  let ell2 :=
    if Dl
    then map (λ l : nat, (Qc_of_Z (Z.of_nat l) * (Qc_of_Z (Z.of_nat l) + 1)
                          / (2 * np_pi))%Qc) (range n)
    else replicate n 1%Qc in
  (Bins._bin_operators b Dl cov).1 =
  Array2 (Bins.nbins b) n
    (fold_left (λ p (e : nat * (Z * Z)), alter (p_row_update ell2 e.2) e.1 p)
       (enumerate (zip (Bins.lmins b) (Bins.lmaxs b)))
       (replicate (Bins.nbins b) (replicate n 0%Qc))).
Proof.
  intros n ell2. unfold Bins._bin_operators. fold n. fold ell2.
  match goal with
  | |- (let '(_, _) := fold_left ?F ?l ?pq in _).1 = _ =>
      rewrite <- (fold_left_fst F
                   (λ p (e : nat * (Z * Z)), alter (p_row_update ell2 e.2) e.1 p)
                   l pq);
      [destruct (fold_left F l pq); done|]
  end.
  by intros [p q] [i [a z]].
Qed.

Lemma py_slice_whole {A : Type} (l : list A) (n : nat) :
  length l = n → py_slice l 0 (Z.of_nat n) = l.
Proof. intros <-. apply py_slice_all. Qed.

Lemma map_range_const {A : Type} (f : nat → A) (m : nat) (c : A) :
  (∀ j, (j < m)%nat → f j = c) → map f (range m) = replicate m c.
Proof.
  intros H. apply list_eq. intros j. unfold range.
  rewrite list_lookup_fmap.
  destruct (decide (j < m)%nat) as [Hj|Hj].
  - rewrite lookup_seq_lt, lookup_replicate_2 by done. simpl. by rewrite H.
  - rewrite lookup_seq_ge by lia. simpl. symmetry.
    apply lookup_replicate_None. lia.
Qed.

Lemma p_row_uniform (n : nat) (a z : Z) :
  1 ≤ a → a ≤ z → z < Z.of_nat n →
  let r := p_row_update (replicate n 1%Qc) (a, z) (replicate n 0%Qc) in
  length r = n ∧ fsum r = 1%Qc.
Proof.
  intros Ha Haz Hz. unfold p_row_update. simpl.
  rewrite py_slice_replicate, slice_assign_replicate by lia.
  rewrite fmap_replicate. split.
  - rewrite !length_app, !length_replicate. lia.
  - rewrite !fsum_app, !fsum_replicate. rewrite (Z2Nat.id (z - a + 1)) by lia.
    assert (Qc_of_Z (z - a + 1) ≠ 0%Qc) as Hd.
    { rewrite <- Z2Qc_inj_0. intros E%Z2Qc_inj. lia. }
    field. done.
Qed.

(** C8: on every [Bins] object, [bin_spectra] with the uniform weighting maps
    the constant spectrum [c] on the multipoles 0..lmax to the vector whose
    entry is [c] for every bin. *)
Theorem bin_spectra_constant (b : Bins.t) (c : Qc) :
  bins_instance b →
  Bins.bin_spectra b (replicate (Z.to_nat (Bins.lmax b + 1)) c) false
  = ok (replicate (Bins.nbins b) c).
Proof.
  intros Hwf%bins_instance_wf.
  destruct Hwf as [wf_length wf_nbins wf_ordered wf_lmin wf_lmax wf_pos wf_range].
  set (n := Z.to_nat (Bins.lmax b + 1)).
  assert (Z.of_nat n = Bins.lmax b + 1) as Hn by lia.
  unfold Bins.bin_spectra. rewrite length_replicate. fold n.
  replace (Z.min (Z.of_nat n - 1) (Bins.lmax b) + 1) with (Z.of_nat n) by lia.
  pose proof (bin_operators_p_rows b false false) as Hp. simpl in Hp. fold n in Hp.
  destruct (Bins._bin_operators b false false) as [_p _q]. simpl in Hp. subst _p.
  set (P := fold_left _ _ _).
  unfold take_rows, transpose. simpl.
  set (rowsT := map _ (range n)).
  assert (length rowsT = n) as HlenT.
  { unfold rowsT, range. by rewrite length_map, length_seq. }
  rewrite (py_slice_whole rowsT), (py_slice_whole (replicate n c)), HlenT
    by (by rewrite ?length_replicate).
  unfold vec_mat. simpl. rewrite decide_True by apply length_replicate.
  f_equal. apply map_range_const. intros j Hj.
  rewrite wf_nbins in Hj.
  destruct (lookup_lt_is_Some_2 (Bins.lmins b) j Hj) as [a Ha].
  destruct (lookup_lt_is_Some_2 (Bins.lmaxs b) j) as [z Hz]; [lia|].
  assert (zip (Bins.lmins b) (Bins.lmaxs b) !! j = Some (a, z)) as Hj'.
  { rewrite lookup_zip_with, Ha. simpl. by rewrite Hz. }
  assert (P !! j = Some (p_row_update (replicate n 1%Qc) (a, z)
                           (replicate n 0%Qc))) as HP.
  { unfold P.
    rewrite (fold_alter_enumerate (p_row_update (replicate n 1%Qc))), Hj'.
    rewrite lookup_replicate_2 by lia. done. }
  destruct (p_row_uniform n a z) as [Hlen Hsum].
  { eapply Forall_lookup_1 in wf_lmin; [|exact Ha]. lia. }
  { by eapply Forall_lookup_1 in wf_ordered; [|exact Hj']. }
  { eapply Forall_lookup_1 in wf_lmax; [|exact Hz]. lia. }
  set (r := p_row_update _ _ _) in *.
  assert (map (λ r0 : list Qc, default 0%Qc (r0 !! j)) rowsT = r) as ->.
  { unfold rowsT. rewrite map_map. rewrite <- (map_lookup_range r), Hlen.
    apply map_ext. intros l. by rewrite list_lookup_fmap, HP. }
  rewrite <- Hlen at 1. rewrite fsum_scale, Hsum. ring.
Qed.

Lemma bin_spectra_constant_witness :
  ∃ b, Bins.__init__ [2; 5] [4; 9] = ok b ∧
       Bins.bin_spectra b (replicate (Z.to_nat (Bins.lmax b + 1)) (Qc_of_Z 7)) false
       = ok (replicate (Bins.nbins b) (Qc_of_Z 7)).
Proof.
  eexists. split; [reflexivity|].
  apply bin_spectra_constant. apply (instance_init [2; 5] [4; 9]). reflexivity.
Defined.

(** The [Dl] argument of [bin_spectra] does not reach [_bin_operators]. *)
Remark bin_spectra_Dl_unused (b : Bins.t) (spectra : list Qc) :
  Bins.bin_spectra b spectra true = Bins.bin_spectra b spectra false.
Proof. reflexivity. Qed.

(** ** Evaluation on concrete inputs *)

(** Equality of computed values is decided and the decision evaluated. *)
Ltac by_compute := refine (bool_decide_unpack _ _); vm_compute; exact I.

(** ** Index maps *)

(** C4: for three maps at 100, 143 and 217 GHz, [_set_lists] enumerates the
    cross-frequencies in the order (100,100), (100,143), (100,217),
    (143,143), (143,217), (217,217), the map pairs in the order (0,1), (0,2),
    (1,2), and sends these pairs to the cross-frequency indices 1, 2, 4. *)
Theorem set_lists_three_frequencies :
  let fqs := [100; 143; 217] in
  let freqs := np_unique fqs in
  ∃ list_fqs,
    Hillipop._set_lists 3 (length freqs) fqs
    = ok ([(0, 1); (0, 2); (1, 2)]%nat, list_fqs, [1; 2; 4]%nat) ∧
    map (λ f : nat * nat, (default 0 (freqs !! f.1), default 0 (freqs !! f.2)))
        list_fqs
    = [(100, 100); (100, 143); (100, 217);
       (143, 143); (143, 217); (217, 217)].
Proof. eexists. split; reflexivity. Qed.

(** ** Calibration *)

(** The calibration list of [compute_likelihood]: one factor
    Aplanck^2 (1 + c_m1) (1 + c_m2) per map pair. *)
Lemma cal_likelihood_spec (st : Hillipop.t) (pars : gmap string Qc)
  (A : Qc) (c : nat → Qc) :
  pars !! "Aplanck" = Some A →
  (∀ m, (m < Hillipop.nmap st)%nat → pars !! Hillipop.cname m = Some (c m)) →
  Hillipop.cal_likelihood st pars
  = ok (map (λ m : nat * nat, (A * A * (1 + c m.1) * (1 + c m.2))%Qc)
            (loop_pairs 1 (Hillipop.nmap st))).
Proof.
  intros HA Hc. unfold Hillipop.cal_likelihood. apply mapM_r_pure.
  intros [m1 m2] Hin. unfold loop_pairs in Hin.
  apply list_elem_of_In, in_flat_map in Hin as (i & Hi & Hin).
  apply in_map_iff in Hin as (j & [= <- <-] & Hj).
  unfold range, range2 in *. apply in_seq in Hi, Hj.
  unfold Hillipop.pars_get. simpl.
  rewrite HA, !Hc by lia. done.
Qed.

(** The calibration list of [_compute_residuals]: one factor
    Aplanck^2 (1 + c_m1 + c_m2) per map pair. *)
Lemma cal_residuals_spec (st : Hillipop.t) (pars : gmap string Qc)
  (A : Qc) (c : nat → Qc) :
  pars !! "Aplanck" = Some A →
  (∀ m, (m < Hillipop.nmap st)%nat → pars !! Hillipop.cname m = Some (c m)) →
  Hillipop.cal_residuals st pars
  = ok (map (λ m : nat * nat, (A * A * (1 + c m.1 + c m.2))%Qc)
            (loop_pairs 1 (Hillipop.nmap st))).
Proof.
  intros HA Hc. unfold Hillipop.cal_residuals. apply mapM_r_pure.
  intros [m1 m2] Hin. unfold loop_pairs in Hin.
  apply list_elem_of_In, in_flat_map in Hin as (i & Hi & Hin).
  apply in_map_iff in Hin as (j & [= <- <-] & Hj).
  unfold range, range2 in *. apply in_seq in Hi, Hj.
  unfold Hillipop.pars_get. simpl.
  rewrite HA, !Hc by lia. done.
Qed.

(** C1 fails on the code: with two maps, Aplanck = 1 and c0 = c1 = 1, data 4
    and theory Dl 1 at l = 2, [compute_likelihood] calibrates the model by
    1 * (1+1) * (1+1) = 4 and its residual vanishes, while
    [_compute_residuals] calibrates by 1 * (1+1+1) = 3 and returns the
    residual 4 - 3 * 1 = 1. *)
Theorem calibration_differs_between_paths :
  ∃ st, two_maps true false = ok st ∧
    Hillipop.cal_likelihood st pars_offsets = ok [Qc_of_Z 4] ∧
    Hillipop.cal_residuals st pars_offsets = ok [Qc_of_Z 3] ∧
    Hillipop.compute_likelihood st pars_offsets (theory_dl2 1) = ok 0%Qc ∧
    Hillipop._compute_residuals st pars_offsets (theory_dl2 1)
    = ok [[0; 0; 1]]%Qc.
Proof.
  eexists. split; [reflexivity|]. repeat split; by_compute.
Qed.

(** ** Modes *)

(** C10: when TT is not active, [compute_likelihood] and
    [_compute_residuals] raise for every parameter dictionary and theory
    spectrum; when their first two blocks return, the exception is the use
    of the unassigned local [Xl], respectively [Rl]. *)
Theorem no_TT_no_result (st : Hillipop.t) (pars : gmap string Qc)
  (cl_boltz : list (list Qc)) :
  Hillipop.isTT st = false →
  fails (Hillipop.compute_likelihood st pars cl_boltz) ∧
  fails (Hillipop._compute_residuals st pars cl_boltz) ∧
  (is_ok (Hillipop.to_dl st cl_boltz) →
   is_ok (Hillipop.cal_likelihood st pars) →
   Hillipop.compute_likelihood st pars cl_boltz
   = raise (UnboundLocalError "Xl")) ∧
  (is_ok (Hillipop.to_dl st cl_boltz) →
   is_ok (Hillipop.cal_residuals st pars) →
   Hillipop._compute_residuals st pars cl_boltz
   = raise (UnboundLocalError "Rl")).
Proof.
  intros HTT. unfold Hillipop.compute_likelihood, Hillipop._compute_residuals.
  rewrite HTT. repeat split.
  - destruct (Hillipop.to_dl st cl_boltz) as [e|dlth]; [by exists e|].
    rewrite bind_ok.
    destruct (Hillipop.cal_likelihood st pars) as [e|cal]; [by exists e|].
    by eexists.
  - destruct (Hillipop.to_dl st cl_boltz) as [e|dlth]; [by exists e|].
    rewrite bind_ok.
    destruct (Hillipop.cal_residuals st pars) as [e|cal]; [by exists e|].
    by eexists.
  - by intros [dlth ->] [cal ->].
  - by intros [dlth ->] [cal ->].
Qed.

Lemma no_TT_no_result_witness :
  ∃ st, two_maps false true = ok st ∧
    fails (Hillipop.compute_likelihood st pars_neutral (theory_dl2 1%Qc)) ∧
    fails (Hillipop._compute_residuals st pars_neutral (theory_dl2 1%Qc)).
Proof.
  eexists. split; [reflexivity|].
  match goal with
  | |- fails (Hillipop.compute_likelihood ?st _ _) ∧ _ =>
      destruct (no_TT_no_result st pars_neutral (theory_dl2 1%Qc))
        as (H1 & H2 & _); [reflexivity | exact (conj H1 H2)]
  end.
Defined.

(** ** The cross-frequency average *)

Lemma bcast2_same {A B C : Type} (f : A → B → C) (a : list A) (b : list B) :
  length a = length b → bcast2 f a b = ok (zip_with f a b).
Proof. intros H. unfold bcast2. by rewrite decide_True. Qed.

Lemma iadd_same (r v : list Qc) :
  length v = length r → iadd r v = ok (zip_with Qcplus r v).
Proof. intros H. unfold iadd. by rewrite decide_True. Qed.

Lemma shape2_lookup {A : Type} (a : list (list A)) (r c i : nat) :
  shape2 a r c → (i < r)%nat → ∃ row, a !! i = Some row ∧ length row = c.
Proof.
  intros [Hr Hc] Hi. destruct (lookup_lt_is_Some_2 a i) as [row Hrow]; [lia|].
  exists row. split; [done|]. by eapply Forall_lookup_1 in Hc.
Qed.

Lemma shape2_insert {A : Type} (a : list (list A)) (r c k : nat) row :
  shape2 a r c → length row = c → shape2 (<[k := row]> a) r c.
Proof.
  intros [Hr Hc] Hrow. split; [by rewrite length_insert|].
  by apply Forall_insert.
Qed.

Lemma shape2_replicate {A : Type} (r c : nat) (x : A) :
  shape2 (replicate r (replicate c x)) r c.
Proof.
  split; [apply length_replicate|]. apply Forall_replicate, length_replicate.
Qed.

Lemma entry_lookup (a : list (list Qc)) (i l : nat) row :
  a !! i = Some row → entry a i l = default 0%Qc (row !! l).
Proof. intros H. unfold entry. by rewrite H. Qed.

Lemma entry_insert (a : list (list Qc)) (k i l : nat) row :
  (k < length a)%nat →
  entry (<[k := row]> a) i l
  = if decide (k = i) then default 0%Qc (row !! l) else entry a i l.
Proof.
  intros Hk. unfold entry. destruct (decide (k = i)) as [->|Hne].
  - by rewrite list_lookup_insert_eq.
  - by rewrite list_lookup_insert_ne.
Qed.

Lemma entry_replicate (r c i l : nat) : entry (replicate r (replicate c 0%Qc)) i l = 0%Qc.
Proof.
  unfold entry. destruct (decide (i < r)%nat).
  - rewrite lookup_replicate_2 by done. simpl.
    destruct (decide (l < c)%nat).
    + by rewrite lookup_replicate_2.
    + by rewrite lookup_ge_None_2 by (rewrite length_replicate; lia).
  - by rewrite lookup_ge_None_2 by (rewrite length_replicate; lia).
Qed.

(** A denominator that is still zero makes the division fail. *)
Lemma xdiv_zero (s : Qc) : xdiv s (Fin 0%Qc) = raise FloatingPointError.
Proof. done. Qed.

(** The division by the denominators in which zero was replaced by
    infinity returns, and gives the weighted mean. *)
Lemma xdiv_zero_to_inf (s t : Qc) :
  xdiv s (zero_to_inf t) = ok (weighted_mean s t).
Proof.
  unfold zero_to_inf, weighted_mean.
  destruct (decide (t = 0%Qc)) as [Ht|Ht]; [done|]. simpl.
  by rewrite decide_False.
Qed.

Lemma divide_rows (a w : list Qc) :
  mapM_r (λ xd : Qc * xfloat, xdiv xd.1 xd.2) (zip a (map zero_to_inf w))
  = ok (zip_with weighted_mean a w).
Proof.
  revert w. induction a as [|x a IH]; intros [|y w]; try done.
  cbn [map zip zip_with mapM_r fst snd].
  by rewrite xdiv_zero_to_inf, bind_ok, IH, bind_ok.
Qed.

Lemma divide_arrays (a w : list (list Qc)) :
  mapM_r (λ rows : list Qc * list xfloat,
            mapM_r (λ xd : Qc * xfloat, xdiv xd.1 xd.2)
                   (zip rows.1 rows.2))
         (zip a (map (map zero_to_inf) w))
  = ok (zip_with (zip_with weighted_mean) a w).
Proof.
  revert w. induction a as [|x a IH]; intros [|y w]; try done.
  cbn [map zip zip_with mapM_r fst snd].
  by rewrite divide_rows, bind_ok, IH, bind_ok.
Qed.

Section average.
Variable st : Hillipop.t.
Variables cl weight : list (list Qc).

Let n : nat := Z.to_nat (Hillipop.lmax st + 1).
Let nxf : nat := Hillipop.nxfreq st.

Hypothesis Hmaps : index_maps_wf st.
Hypothesis Hcl : spectra_wf st cl.
Hypothesis Hweight : spectra_wf st weight.

Lemma accumulate_ok (acc : list (list Qc) * list (list Qc)) (xs : nat) :
  (xs < Hillipop.nxspec st)%nat →
  shape2 acc.1 nxf n → shape2 acc.2 nxf n →
  ∃ acc' k,
    Hillipop.xspec2xfreq st !! xs = Some k ∧
    Hillipop.accumulate st cl weight acc xs = ok acc' ∧
    shape2 acc'.1 nxf n ∧ shape2 acc'.2 nxf n ∧
    ∀ b l, (l < n)%nat →
      entry acc'.1 b l
      = (entry acc.1 b l
         + if decide (k = b) then entry weight xs l * entry cl xs l else 0)%Qc ∧
      entry acc'.2 b l
      = (entry acc.2 b l + if decide (k = b) then entry weight xs l else 0)%Qc.
Proof.
  intros Hxs H1 H2. destruct Hmaps as [Hlen Hlt].
  destruct (lookup_lt_is_Some_2 (Hillipop.xspec2xfreq st) xs) as [k Hk];
    [lia|].
  assert (k < nxf)%nat as Hknxf by (by eapply Forall_lookup_1 in Hlt).
  destruct (shape2_lookup _ _ _ k H1 Hknxf) as (r1 & Hr1 & Hlr1).
  destruct (shape2_lookup _ _ _ k H2 Hknxf) as (r2 & Hr2 & Hlr2).
  destruct (shape2_lookup _ _ _ xs Hweight Hxs) as (w & Hw & Hlw).
  destruct (shape2_lookup _ _ _ xs Hcl Hxs) as (c & Hc & Hlc).
  fold n in Hlw, Hlc.
  eexists _, k. split; [done|]. split.
  { unfold Hillipop.accumulate.
    rewrite (py_index_lookup _ _ _ Hk), (py_index_lookup _ _ _ Hw),
      (py_index_lookup _ _ _ Hc), !bind_ok.
    rewrite (py_index_lookup _ _ _ Hr1), !bind_ok.
    rewrite bcast2_same, bind_ok by lia.
    rewrite iadd_same, bind_ok by (rewrite length_zip_with; lia).
    cbv zeta. rewrite !bind_ok.
    rewrite (py_index_lookup _ _ _ Hr2), !bind_ok.
    rewrite iadd_same, bind_ok by lia. reflexivity. }
  simpl. split; [|split].
  { apply shape2_insert; [done|]. rewrite !length_zip_with. lia. }
  { apply shape2_insert; [done|]. rewrite !length_zip_with. lia. }
  intros b l Hl. destruct H1 as [Hl1 _], H2 as [Hl2 _].
  rewrite !entry_insert by lia.
  rewrite (entry_lookup _ _ _ _ Hw), (entry_lookup _ _ _ _ Hc).
  destruct (decide (k = b)) as [<-|Hne]; [|split; ring].
  rewrite (entry_lookup _ _ _ _ Hr1), (entry_lookup _ _ _ _ Hr2).
  destruct (lookup_lt_is_Some_2 r1 l) as [x1 Hx1]; [lia|].
  destruct (lookup_lt_is_Some_2 r2 l) as [x2 Hx2]; [lia|].
  destruct (lookup_lt_is_Some_2 w l) as [wl Hwl]; [lia|].
  destruct (lookup_lt_is_Some_2 c l) as [cl' Hcl']; [lia|].
  rewrite !lookup_zip_with, Hx1, Hx2, Hwl, Hcl'. simpl. done.
Qed.

Lemma fold_accumulate_ok (xss : list nat) :
  Forall (λ xs, (xs < Hillipop.nxspec st)%nat) xss →
  ∀ acc, shape2 acc.1 nxf n → shape2 acc.2 nxf n →
  ∃ acc',
    foldM (Hillipop.accumulate st cl weight) acc xss = ok acc' ∧
    shape2 acc'.1 nxf n ∧ shape2 acc'.2 nxf n ∧
    ∀ b l, (l < n)%nat →
      entry acc'.1 b l
      = (entry acc.1 b l
         + fsum (map (λ xs, entry weight xs l * entry cl xs l)
                     (filter (λ xs, Hillipop.xspec2xfreq st !! xs = Some b)
                             xss)))%Qc ∧
      entry acc'.2 b l
      = (entry acc.2 b l
         + fsum (map (λ xs, entry weight xs l)
                     (filter (λ xs, Hillipop.xspec2xfreq st !! xs = Some b)
                             xss)))%Qc.
Proof.
  induction 1 as [|xs xss Hxs _ IH]; intros acc H1 H2.
  - exists acc. split; [done|]. split; [done|]. split; [done|].
    intros b l Hl. split; simpl; ring.
  - destruct (accumulate_ok acc xs Hxs H1 H2)
      as (acc1 & k & Hk & Hstep & H1' & H2' & Hent).
    destruct (IH acc1 H1' H2') as (acc' & Hfold & H1'' & H2'' & Hent').
    exists acc'. simpl. rewrite Hstep, bind_ok.
    split; [done|]. split; [done|]. split; [done|].
    intros b l Hl.
    destruct (Hent' b l Hl) as [-> ->]. destruct (Hent b l Hl) as [-> ->].
    rewrite filter_cons, Hk.
    destruct (decide (k = b)) as [->|Hne].
    + rewrite decide_True by done. simpl. split; ring.
    + rewrite decide_False by congruence. split; ring.
Qed.

Lemma xspectra_to_xfreq_ok :
  0 ≤ Hillipop.lmax st + 1 →
  ∃ out,
    Hillipop._xspectra_to_xfreq st cl weight = ok out ∧
    shape2 out nxf n ∧
    ∀ b l, (b < nxf)%nat → (l < n)%nat →
      entry out b l
      = weighted_mean (weighted_sum st cl weight b l)
                      (total_weight st weight b l).
Proof.
  intros Hlmax. unfold Hillipop._xspectra_to_xfreq, np_zeros2.
  destruct (Z.ltb_spec (Hillipop.lmax st + 1) 0) as [?|_]; [lia|].
  rewrite !bind_ok. fold n nxf.
  destruct (fold_accumulate_ok (range (Hillipop.nxspec st)))
    with (acc := (replicate nxf (replicate n 0%Qc),
                  replicate nxf (replicate n 0%Qc)))
    as (acc & -> & H1 & H2 & Hent).
  { apply Forall_forall. intros xs Hxs%list_elem_of_In%in_seq. lia. }
  { apply shape2_replicate. }
  { apply shape2_replicate. }
  rewrite bind_ok. cbv zeta. rewrite divide_arrays.
  eexists. split; [done|]. split.
  { destruct H1 as [Hl1 Hr1], H2 as [Hl2 Hr2]. split.
    - rewrite length_zip_with. lia.
    - apply Forall_forall. intros row Hrow.
      apply list_elem_of_lookup in Hrow as [i Hi].
      apply lookup_zip_with_Some in Hi as (r1 & r2 & -> & Hi1 & Hi2).
      eapply Forall_lookup_1 in Hr1; [|exact Hi1].
      eapply Forall_lookup_1 in Hr2; [|exact Hi2].
      rewrite length_zip_with. lia. }
  intros b l Hb Hl. destruct (Hent b l Hl) as [He1 He2].
  cbn [fst snd] in He1, He2. rewrite !entry_replicate in He1, He2.
  destruct (shape2_lookup _ _ _ b H1 Hb) as (r1 & Hr1 & Hlr1).
  destruct (shape2_lookup _ _ _ b H2 Hb) as (r2 & Hr2 & Hlr2).
  destruct (lookup_lt_is_Some_2 r1 l) as [x1 Hx1]; [lia|].
  destruct (lookup_lt_is_Some_2 r2 l) as [x2 Hx2]; [lia|].
  rewrite (entry_lookup _ _ _ _ Hr1), Hx1 in He1.
  rewrite (entry_lookup _ _ _ _ Hr2), Hx2 in He2. simpl in He1, He2.
  unfold entry at 1.
  rewrite lookup_zip_with, Hr1, Hr2. simpl.
  rewrite lookup_zip_with, Hx1, Hx2. simpl.
  unfold weighted_sum, total_weight, bucket_members.
  rewrite He1, He2. f_equal; ring.
Qed.
End average.

(** C5: on well-shaped inputs [_xspectra_to_xfreq] returns an array of shape
    (nxfreq, lmax+1), and the division raises no error: where the total
    weight of a cross-frequency at a multipole is zero the returned value is
    zero, the zero denominator being replaced by [np.inf], and where it is
    positive the returned value is the weighted mean of the contributing
    spectra. *)
Theorem xspectra_to_xfreq_average (st : Hillipop.t)
  (cl weight : list (list Qc)) :
  index_maps_wf st → spectra_wf st cl → spectra_wf st weight →
  0 ≤ Hillipop.lmax st + 1 →
  ∃ out,
    Hillipop._xspectra_to_xfreq st cl weight = ok out ∧
    shape2 out (Hillipop.nxfreq st) (Z.to_nat (Hillipop.lmax st + 1)) ∧
    ∀ b l, (b < Hillipop.nxfreq st)%nat →
           (l < Z.to_nat (Hillipop.lmax st + 1))%nat →
      (total_weight st weight b l = 0%Qc → entry out b l = 0%Qc) ∧
      ((0 < total_weight st weight b l)%Qc →
       entry out b l
       = (weighted_sum st cl weight b l / total_weight st weight b l)%Qc).
Proof.
  intros Hmaps Hcl Hweight Hlmax.
  destruct (xspectra_to_xfreq_ok st cl weight Hmaps Hcl Hweight Hlmax)
    as (out & Hout & Hshape & Hent).
  exists out. split; [done|]. split; [done|].
  intros b l Hb Hl. rewrite (Hent b l Hb Hl). unfold weighted_mean. split.
  - intros ->. by rewrite decide_True.
  - intros Hpos. rewrite decide_False; [done|].
    intros E. by apply Qclt_not_eq in Hpos.
Qed.


Lemma xspectra_to_xfreq_average_witness :
  ∃ st, two_maps true false = ok st ∧ ∃ out,
    Hillipop._xspectra_to_xfreq st [[0; 0; Qc_of_Z 5]]%Qc [[0; 0; 1]]%Qc
    = ok out ∧
    shape2 out (Hillipop.nxfreq st) (Z.to_nat (Hillipop.lmax st + 1)) ∧
    ∀ b l, (b < Hillipop.nxfreq st)%nat →
           (l < Z.to_nat (Hillipop.lmax st + 1))%nat →
      (total_weight st [[0; 0; 1]]%Qc b l = 0%Qc → entry out b l = 0%Qc) ∧
      ((0 < total_weight st [[0; 0; 1]]%Qc b l)%Qc →
       entry out b l
       = (weighted_sum st [[0; 0; Qc_of_Z 5]]%Qc [[0; 0; 1]]%Qc b l
          / total_weight st [[0; 0; 1]]%Qc b l)%Qc).
Proof.
  eexists. split; [reflexivity|].
  apply xspectra_to_xfreq_average.
  - split; [reflexivity | repeat constructor].
  - split; [reflexivity | repeat constructor].
  - split; [reflexivity | repeat constructor].
  - vm_compute. discriminate.
Defined.

(** ** Reading the multipole tables *)

Lemma mapM_r_Forall2 {A B : Type} (f : A → result B) xs ys :
  mapM_r f xs = ok ys → Forall2 (λ x y, f x = ok y) xs ys.
Proof.
  revert ys. induction xs as [|x xs IH]; intros ys H; simpl in H.
  - injection H as <-. constructor.
  - inv_bind H. subst ys. constructor; auto.
Qed.

Lemma list_index_first_occurrence (l : list nat) (x i : nat) :
  list_index l x = ok i ↔ first_occurrence l x i.
Proof. apply list_index_ok. Qed.

Lemma list_index_unattained (l : list nat) (x : nat) :
  x ∉ l → fails (list_index l x).
Proof. intros H%list_index_fails. by eexists. Qed.

Lemma select_step_inv (st : Hillipop.t) cl mode xl xf xl' :
  Hillipop.select_step st cl mode xl xf = ok xl' →
  ∃ seg, xl' = xl ++ seg ∧ reads_entry st mode cl xf seg.
Proof.
  intros H. unfold Hillipop.select_step in H. inv_bind H. subst xl'.
  eexists. split; [done|].
  apply py_index_ok in Hx, Hx1, Hx2, Hx4, Hx5.
  rewrite Hx0 in Hx3. injection Hx3 as <-.
  apply list_index_ok in Hx0.
  exists x0, x1, x4, x5. unfold table_entry. rewrite Hx, Hx2. simpl.
  split; [exact Hx0|]. by repeat split.
Qed.

Lemma select_fold_inv (st : Hillipop.t) cl mode xfs :
  ∀ xl out,
    foldM (Hillipop.select_step st cl mode) xl xfs = ok out →
    ∃ segs, out = xl ++ concat segs ∧
            Forall2 (reads_entry st mode cl) xfs segs.
Proof.
  induction xfs as [|xf xfs IH]; intros xl out H; simpl in H.
  - injection H as <-. exists []. simpl. by rewrite app_nil_r.
  - inv_bind H. apply select_step_inv in Hx as (seg & -> & Hseg).
    apply IH in H as (segs & -> & Hsegs).
    exists (seg :: segs). simpl. rewrite app_assoc. split; [done|].
    by constructor.
Qed.

Lemma select_step_unattained (st : Hillipop.t) cl mode xl xf :
  xf ∉ Hillipop.xspec2xfreq st →
  fails (Hillipop.select_step st cl mode xl xf).
Proof.
  intros H. unfold Hillipop.select_step.
  destruct (py_index (Hillipop.lmins st) mode) as [e|lo]; [by exists e|].
  rewrite bind_ok. by apply bind_fails, list_index_unattained.
Qed.

Lemma count_mode_inv (st : Hillipop.t) (m : nat) (n : Z) :
  columns_aligned st →
  Hillipop.count_mode st m = ok n →
  ∃ terms, n = foldr Z.add 0 terms ∧
           Forall2 (counts_entry st m) (range (Hillipop.nxfreq st)) terms.
Proof.
  intros Hal H. unfold Hillipop.count_mode in H. inv_bind H. subst n.
  apply py_index_ok in Hx, Hx0.
  rewrite bcast2_same in Hx1 by (symmetry; by eapply Hal).
  injection Hx1 as <-.
  exists x2. split; [done|].
  apply mapM_r_Forall2 in Hx2. eapply Forall2_impl; [exact Hx2|].
  intros xf term Hterm. simpl in Hterm. inv_bind Hterm.
  apply list_index_ok in Hx1. apply py_index_ok in Hterm.
  rewrite list_lookup_fmap, lookup_zip_with in Hterm.
  destruct (x !! x1) as [hi|] eqn:Hhi; [|done]. simpl in Hterm.
  destruct (x0 !! x1) as [lo|] eqn:Hlo; [|done]. simpl in Hterm.
  injection Hterm as <-.
  exists x1, lo, hi. unfold table_entry. rewrite Hx, Hx0. simpl.
  split; [exact Hx1|]. by repeat split.
Qed.

Lemma count_mode_unattained (st : Hillipop.t) (m : nat) :
  unattained_xfreq st → fails (Hillipop.count_mode st m).
Proof.
  intros (xf & Hxf & Hnot). unfold Hillipop.count_mode.
  destruct (py_index (Hillipop.lmaxs st) m) as [e|hi]; [by exists e|].
  rewrite bind_ok.
  destruct (py_index (Hillipop.lmins st) m) as [e|lo]; [by exists e|].
  rewrite bind_ok.
  destruct (bcast2 Z.sub hi lo) as [e|d]; [by exists e|].
  rewrite bind_ok. apply bind_fails.
  apply (mapM_r_fails _ _ xf).
  - apply list_elem_of_In, in_seq. lia.
  - by apply bind_fails, list_index_unattained.
Qed.

(** The count is the sum, over the active modes, of the count of the mode's
    table. *)
Lemma count_dim_spec (st : Hillipop.t) :
  Hillipop.count_dim st
  = (counts ← mapM_r (Hillipop.count_mode st) (active_tables st);
     ok (foldr Z.add 0 counts)).
Proof.
  unfold Hillipop.count_dim, active_tables.
  destruct (Hillipop.isTT st), (Hillipop.isEE st), (Hillipop.isTE st),
    (Hillipop.isET st); simpl;
    repeat match goal with
      | |- context [Hillipop.count_mode st ?m] =>
          destruct (Hillipop.count_mode st m); simpl; try reflexivity
      end;
    unfold ok; f_equal; lia.
Qed.

Lemma count_dim_unattained (st : Hillipop.t) :
  active_tables st ≠ [] → unattained_xfreq st →
  fails (Hillipop.count_dim st).
Proof.
  intros Hact Hun. rewrite count_dim_spec. apply bind_fails.
  destruct (active_tables st) as [|m ms]; [done|].
  apply (mapM_r_fails _ _ m); [left|]. by apply count_mode_unattained.
Qed.

(** C9 (as amended): [_select_spectra] and the count of
    [_read_invcovmatrix] read, for every cross-frequency index below
    [nxfreq], the table entries at the position of the first cross-spectrum
    with that cross-frequency; when some cross-frequency index is the
    cross-frequency of no cross-spectrum, [_select_spectra] raises, and
    [_read_invcovmatrix] raises provided one of the modes TT, EE, TE, ET is
    active. *)
Theorem tables_read_at_first_pair (st : Hillipop.t) :
  (∀ cl mode xl,
     Hillipop._select_spectra st cl mode = ok xl →
     ∃ segs, xl = concat segs ∧
             Forall2 (reads_entry st mode cl)
                     (range (Hillipop.nxfreq st)) segs) ∧
  (∀ n,
     columns_aligned st →
     Hillipop.count_dim st = ok n →
     ∃ termss, n = foldr Z.add 0 (map (foldr Z.add 0) termss) ∧
               Forall2 (λ m terms,
                          Forall2 (counts_entry st m)
                                  (range (Hillipop.nxfreq st)) terms)
                       (active_tables st) termss) ∧
  (unattained_xfreq st →
     (∀ cl mode, fails (Hillipop._select_spectra st cl mode)) ∧
     (active_tables st ≠ [] →
        fails (Hillipop.count_dim st) ∧
        ∀ data, fails (Hillipop._read_invcovmatrix st data))).
Proof.
  split; [|split].
  - intros cl mode xl H. unfold Hillipop._select_spectra in H.
    by apply select_fold_inv in H as (segs & -> & Hsegs); exists segs.
  - intros n Hal H. rewrite count_dim_spec in H. inv_bind H. subst n.
    apply mapM_r_Forall2 in Hx. revert Hx.
    generalize (active_tables st). intros ms Hx.
    induction Hx as [|m c ms cs Hm _ (termss & Hsum & Hall)].
    + exists []. split; [done | constructor].
    + apply count_mode_inv in Hm as (terms & -> & Hterms); [|done].
      exists (terms :: termss). simpl. rewrite Hsum.
      split; [done | by constructor].
  - intros Hun. split.
    + intros cl mode. destruct Hun as (xf & Hxf & Hnot).
      unfold Hillipop._select_spectra. apply (foldM_fails _ _ xf).
      * apply list_elem_of_In, in_seq. lia.
      * intros acc. by apply select_step_unattained.
    + intros Hact. split; [by apply count_dim_unattained|].
      intros data. unfold Hillipop._read_invcovmatrix.
      by apply bind_fails, count_dim_unattained.
Qed.

Lemma tables_read_at_first_pair_witness :
  ∃ st, three_maps false false false false = ok st ∧
        ∀ cl mode, fails (Hillipop._select_spectra st cl mode).
Proof.
  eexists. split; [reflexivity|].
  match goal with
  | |- ∀ cl mode, fails (Hillipop._select_spectra ?st cl mode) =>
      apply (proj2 (proj2 (tables_read_at_first_pair st)))
  end.
  exists 0%nat. split; [vm_compute; lia|].
  vm_compute. intros H.
  repeat (apply elem_of_cons in H as [H|H]; [discriminate|]).
  by apply elem_of_nil in H.
Defined.

(** C9 (as stated) fails for [_read_invcovmatrix]: with three maps at
    distinct frequencies the cross-frequency 0 has no cross-spectrum, but
    when no mode is active the count never consults the table, and the
    matrix of an empty file is returned. *)
Lemma read_invcovmatrix_no_mode_no_lookup :
  ∃ st, three_maps false false false false = ok st ∧
        unattained_xfreq st ∧
        Hillipop.count_dim st = ok 0 ∧
        Hillipop._read_invcovmatrix st [] = ok (Array2 0 0 []).
Proof.
  eexists. split; [reflexivity|]. split; [|split; reflexivity].
  exists 0%nat. split; [vm_compute; lia|].
  vm_compute. intros H.
  repeat (apply elem_of_cons in H as [H|H]; [discriminate|]).
  by apply elem_of_nil in H.
Qed.

(** ** The inverse covariance matrix *)

Lemma reshape2_ok (data : list Qc) (n : nat) :
  (n * n)%nat = length data →
  ∃ a, reshape2 data n n = ok a ∧ shape0 a = n ∧ shape1 a = n ∧
       shape2 (rows a) n n ∧
       ∀ i j, (i < n)%nat → (j < n)%nat →
              rows a !! i ≫= (.!! j) = data !! (i * n + j)%nat.
Proof.
  intros Hlen. unfold reshape2. rewrite decide_True by done.
  eexists. split; [done|]. simpl. split; [done|]. split; [done|]. split.
  - split.
    + unfold range. by rewrite length_map, length_seq.
    + apply Forall_forall. intros r Hr.
      apply list_elem_of_fmap in Hr as (i & -> & Hi).
      apply list_elem_of_In, in_seq in Hi.
      rewrite length_take, length_drop. nia.
  - intros i j Hi Hj. unfold range. rewrite list_lookup_fmap.
    rewrite lookup_seq_lt by done. simpl.
    by rewrite lookup_take_lt, lookup_drop.
Qed.

(** [_read_invcovmatrix] compares the square root of the length of the
    column with the count [nell] of its [#count dim] block: loading a flat
    sequence whose length has a square root different from [nell] raises
    [ValueError]; when the square root is [nell] the load returns the
    [nell] x [nell] matrix whose entry (i, j) is element [i * nell + j] of
    the sequence divided by 1e24. *)
Lemma read_invcovmatrix_dimension (st : Hillipop.t) (data : list Qc)
  (nell : Z) :
  Hillipop.count_dim st = ok nell →
  (¬ sqrt_is (length data) nell →
   ∃ msg, Hillipop._read_invcovmatrix st data = raise (ValueError msg)) ∧
  (sqrt_is (length data) nell →
   ∃ a, Hillipop._read_invcovmatrix st data = ok a ∧
        shape0 a = Z.to_nat nell ∧ shape1 a = Z.to_nat nell ∧
        shape2 (rows a) (Z.to_nat nell) (Z.to_nat nell) ∧
        ∀ i j, (i < Z.to_nat nell)%nat → (j < Z.to_nat nell)%nat →
          rows a !! i ≫= (.!! j)
          = (λ x, (x / Qc_of_Z (10 ^ 24))%Qc)
              <$> data !! (i * Z.to_nat nell + j)%nat).
Proof.
  intros Hcount. unfold Hillipop._read_invcovmatrix.
  rewrite Hcount, bind_ok. set (nel := Nat.sqrt (length data)). split.
  - intros Hnot. unfold reshape2.
    destruct (decide ((nel * nel)%nat = length data)) as [Hsq|Hsq];
      [|by eexists].
    rewrite bind_ok. rewrite bool_decide_eq_false_2; [by eexists|].
    intros <-. apply Hnot. split; [lia|]. lia.
  - intros [Hpos Hsq].
    assert (nel = Z.to_nat nell) as Hnel.
    { unfold nel. replace (length data) with (Z.to_nat nell * Z.to_nat nell)%nat
        by nia. apply Nat.sqrt_square. }
    rewrite Hnel. destruct (reshape2_ok data (Z.to_nat nell)) as
      (a & -> & Hs0 & Hs1 & [Hrows Hcols] & Hent); [nia|].
    rewrite bind_ok, bool_decide_eq_true_2 by lia. simpl.
    eexists. split; [done|]. simpl. split; [done|]. split; [done|]. split.
    + split; [by rewrite length_map|].
      apply Forall_fmap. eapply Forall_impl; [exact Hcols|].
      intros r Hr. simpl. by rewrite length_map.
    + intros i j Hi Hj. rewrite <- (Hent i j Hi Hj).
      rewrite list_lookup_fmap. destruct (rows a !! i) as [r|]; [|done].
      simpl. by rewrite list_lookup_fmap.
Qed.

Lemma read_invcovmatrix_dimension_witness :
  ∃ st, two_maps true false = ok st ∧
        Hillipop.count_dim st = ok 1 ∧
        (∃ msg, Hillipop._read_invcovmatrix st [1; 1]%Qc
                = raise (ValueError msg)) ∧
        ∃ a, Hillipop._read_invcovmatrix st [Qc_of_Z (10 ^ 24)] = ok a ∧
             shape0 a = 1%nat ∧ shape1 a = 1%nat.
Proof.
  eexists. split; [reflexivity|]. split; [reflexivity|].
  match goal with
  | |- (∃ msg, Hillipop._read_invcovmatrix ?st _ = _) ∧ _ =>
      pose proof (read_invcovmatrix_dimension st [1; 1]%Qc 1 eq_refl) as [H1 _];
      pose proof (read_invcovmatrix_dimension st [Qc_of_Z (10 ^ 24)] 1 eq_refl)
        as [_ H2]
  end.
  split.
  - apply H1. intros [_ H]. simpl in H. lia.
  - destruct H2 as (a & Ha & Hs0 & Hs1 & _); [split; simpl; lia|].
    exists a. by repeat split.
Defined.

(** Where TE is not active, the count of [_read_invcovmatrix] is the count
    of the retained multipoles. *)
Lemma count_dim_retained (st : Hillipop.t) :
  Hillipop.isTE st = false → Hillipop.count_dim st = retained_count st.
Proof.
  intros H. rewrite count_dim_spec.
  unfold retained_count, active_tables, mode_tables. by rewrite H.
Qed.

(** C3: the claim fails on the code when the mode TE is active.
    [_read_invcovmatrix] counts the multipoles of TE in [lmaxs[2]] and
    [lmins[2]], which hold the table of BB (the tables of the file are TT,
    EE, BB and TE), and not in the table of TE, where it counts those of ET.
    For two maps at 100 GHz with the mode TE alone, the range [2, 2] in the
    tables of TT, EE and BB and the range [2, 4] in the table of TE, three
    multipoles are retained and the code counts one: the covariance of 9
    values, whose square root is the count of the retained multipoles, is
    refused with [ValueError "Incoherent covariance matrix"], by [__init__]
    and by [_read_invcovmatrix], and the covariance of one value is
    accepted and returned divided by 1e24. *)
Theorem read_invcovmatrix_te_table :
  te_maps (replicate 9 (Qc_of_Z (10 ^ 24)))
  = raise (ValueError "Incoherent covariance matrix") ∧
  ∃ st, te_maps [Qc_of_Z (10 ^ 24)] = ok st ∧
        retained_count st = ok 3 ∧
        Hillipop.count_dim st = ok 1 ∧
        Hillipop._read_invcovmatrix st (replicate 9 (Qc_of_Z (10 ^ 24)))
        = raise (ValueError "Incoherent covariance matrix") ∧
        Hillipop._read_invcovmatrix st [Qc_of_Z (10 ^ 24)]
        = ok (Array2 1 1 [[1%Qc]]) ∧
        Hillipop.invkll st = Array2 1 1 [[1%Qc]].
Proof.
  split; [vm_compute; reflexivity|]. eexists. split; [reflexivity|].
  repeat split; by_compute.
Qed.

(** ** Construction of the engine *)

Lemma length_flat_map {A B : Type} (f : A → list B) (l : list A) :
  length (flat_map f l) = list_sum (map (λ x, length (f x)) l).
Proof.
  induction l as [|x l IH]; [done|]. simpl. by rewrite length_app, IH.
Qed.

Lemma sum_pairs (off N n : nat) :
  (off ≤ 1)%nat → (n ≤ N)%nat →
  2 * Z.of_nat (list_sum (map (λ i, length (map (pair i) (range2 (i + off) N)))
                              (seq 0 n)))
  = Z.of_nat n * (2 * Z.of_nat N - Z.of_nat n + 1 - 2 * Z.of_nat off).
Proof.
  intros Hoff. induction n as [|n IH]; intros Hn; [simpl; lia|].
  specialize (IH ltac:(lia)).
  rewrite seq_S, map_app, list_sum_app.
  set (s := list_sum (map _ (seq 0 n))) in *.
  cbn [map list_sum]. rewrite length_map. unfold range2. rewrite length_seq.
  clearbody s. simpl list_sum. nia.
Qed.

Lemma length_loop_pairs_1 (n : nat) :
  length (loop_pairs 1 n) = (n * (n - 1) / 2)%nat.
Proof.
  unfold loop_pairs, range. rewrite length_flat_map.
  pose proof (sum_pairs 1 n n) as H. specialize (H ltac:(lia) ltac:(lia)).
  set (s := list_sum _) in *. clearbody s.
  apply Nat.div_unique_exact; [lia|]. nia.
Qed.

Lemma length_loop_pairs_0 (n : nat) :
  length (loop_pairs 0 n) = (n * (n + 1) / 2)%nat.
Proof.
  unfold loop_pairs, range. rewrite length_flat_map.
  pose proof (sum_pairs 0 n n) as H. specialize (H ltac:(lia) ltac:(lia)).
  set (s := list_sum _) in *. clearbody s.
  apply Nat.div_unique_exact; [lia|]. nia.
Qed.

Lemma set_lists_wf (nmap nfreq : nat) (fqs : list Z) x2m lfq x2f :
  Hillipop._set_lists nmap nfreq fqs = ok (x2m, lfq, x2f) →
  length x2f = (nmap * (nmap - 1) / 2)%nat ∧
  Forall (λ k, (k < nfreq * (nfreq + 1) / 2)%nat) x2f.
Proof.
  intros H. unfold Hillipop._set_lists in H. inv_bind H. subst. split.
  - apply mapM_r_ok_length in Hx. by rewrite Hx, length_loop_pairs_1.
  - apply mapM_r_Forall2 in Hx. apply Forall_forall. intros k Hk.
    apply list_elem_of_lookup in Hk as [i Hi].
    destruct (Forall2_lookup_r _ _ _ _ _ Hx Hi) as (m & _ & Hm).
    simpl in Hm. inv_bind Hm. apply list_index_ok in Hm as [Hm _].
    apply lookup_lt_Some in Hm. by rewrite length_loop_pairs_0 in Hm.
Qed.

Lemma set_multipole_ranges_wf tables lmins lmaxs lmax :
  Hillipop._set_multipole_ranges tables = ok (lmins, lmaxs, lmax) →
  (∀ m lo hi, lmins !! m = Some lo → lmaxs !! m = Some hi →
              length lo = length hi) ∧
  (∀ m hi i z, lmaxs !! m = Some hi → hi !! i = Some z → z ≤ lmax) ∧
  (∃ lo hi z, lmins !! 0%nat = Some lo ∧ lmaxs !! 0%nat = Some hi ∧
              hi !! 0%nat = Some z).
Proof.
  intros H. unfold Hillipop._set_multipole_ranges in H. inv_bind H.
  subst. split; [|split].
  - intros m lo hi Hlo Hhi. rewrite list_lookup_fmap in Hlo, Hhi.
    destruct (x !! m) as [[lo' hi']|] eqn:Hm; [|done].
    simpl in Hlo, Hhi. injection Hlo as <-. injection Hhi as <-.
    apply mapM_r_Forall2 in Hx.
    destruct (Forall2_lookup_r _ _ _ _ _ Hx Hm) as (k & _ & Hk).
    simpl in Hk. inv_bind Hk. subst.
    by rewrite !length_map.
  - intros m hi i z Hhi Hz.
    apply mapM_r_Forall2 in Hx0.
    destruct (Forall2_lookup_l _ _ _ _ _ Hx0 Hhi) as (mx & Hmx & Hmax).
    apply py_max_spec in Hmax as [_ Hmax]. apply py_max_spec in Hx1 as [_ Hx1].
    eapply Forall_lookup_1 in Hmax; [|exact Hz].
    eapply Forall_lookup_1 in Hx1; [|exact Hmx]. simpl in *. lia.
  - pose proof (mapM_r_ok_length _ _ _ Hx) as Hlen. simpl in Hlen.
    destruct x as [|[lo hi] x]; [done|]. simpl in Hx0. inv_bind Hx0.
    destruct hi as [|z hi]; [done|]. by exists lo, (z :: hi), z.
Qed.

Lemma init_inv nmap tt ee te et freq_values tables xspectra xerrors covmat
  fgs (st : Hillipop.t) :
  Hillipop.__init__ nmap tt ee te et freq_values tables xspectra xerrors covmat
    fgs = ok st →
  Hillipop.nmap st = nmap ∧
  (Hillipop.isTT st = tt ∧ Hillipop.isEE st = ee ∧
   Hillipop.isTE st = te ∧ Hillipop.isET st = et) ∧
  (Hillipop.dldata st = xspectra ∧ Hillipop.dlweight st = xerrors ∧
   Hillipop.fgsTT st = fgs) ∧
  Hillipop.nxspec st = length (loop_pairs 1 nmap) ∧
  index_maps_wf st ∧
  columns_aligned st ∧
  (∀ m hi i z, Hillipop.lmaxs st !! m = Some hi → hi !! i = Some z →
               z ≤ Hillipop.lmax st) ∧
  (∃ lo hi z, Hillipop.lmins st !! 0%nat = Some lo ∧
              Hillipop.lmaxs st !! 0%nat = Some hi ∧ hi !! 0%nat = Some z) ∧
  Hillipop._read_invcovmatrix st covmat = ok (Hillipop.invkll st).
Proof.
  intros H. unfold Hillipop.__init__ in H. inv_bind H.
  destruct x0 as [[x2m lfq] x2f], x1 as [[lmins lmaxs] lmax].
  subst st. simpl.
  apply set_lists_wf in Hx0 as [Hlen Hlt].
  apply set_multipole_ranges_wf in Hx1 as (Hal & Hmax & Hne).
  split; [done|]. split; [done|]. split; [done|].
  split; [by rewrite length_loop_pairs_1|].
  split; [by split|]. split; [exact Hal|]. split; [exact Hmax|].
  split; [exact Hne|]. exact Hx2.
Qed.

(** ** The likelihood at the data *)

Lemma fsum_zero_l (v w : list Qc) :
  Forall (λ x, x = 0%Qc) v → fsum (zip_with Qcmult v w) = 0%Qc.
Proof.
  intros H. revert w. induction H as [|x v -> _ IH]; intros [|y w]; try done.
  simpl. rewrite IH. ring.
Qed.

Lemma fsum_zero_r (v w : list Qc) :
  Forall (λ x, x = 0%Qc) w → fsum (zip_with Qcmult v w) = 0%Qc.
Proof.
  intros H. revert v. induction H as [|x w -> _ IH]; intros [|y v]; try done.
  simpl. rewrite IH. ring.
Qed.

Lemma quadratic_form_zero (Xl : list Qc) (a : array2) :
  Forall (λ x, x = 0%Qc) Xl → length Xl = shape0 a → shape1 a = shape0 a →
  (y ← vec_mat Xl a; vec_dot y Xl) = ok 0%Qc.
Proof.
  intros Hz Hlen Hsq. unfold vec_mat. rewrite decide_True by done.
  rewrite bind_ok. unfold vec_dot.
  rewrite decide_True
    by (unfold range; rewrite length_map, length_seq; lia).
  by rewrite fsum_zero_r.
Qed.

Lemma array_ext (a b : list (list Qc)) (r c : nat) :
  shape2 a r c → shape2 b r c →
  (∀ i l, (i < r)%nat → (l < c)%nat → entry a i l = entry b i l) →
  a = b.
Proof.
  intros [Har Hac] [Hbr Hbc] Hent. apply list_eq. intros i.
  destruct (decide (i < r)%nat) as [Hi|Hi].
  - destruct (lookup_lt_is_Some_2 a i) as [ra Hra]; [lia|].
    destruct (lookup_lt_is_Some_2 b i) as [rb Hrb]; [lia|].
    rewrite Hra, Hrb. f_equal. apply list_eq. intros l.
    eapply Forall_lookup_1 in Hac; [|exact Hra].
    eapply Forall_lookup_1 in Hbc; [|exact Hrb].
    destruct (decide (l < c)%nat) as [Hl|Hl].
    + specialize (Hent i l Hi Hl).
      rewrite (entry_lookup _ _ _ _ Hra), (entry_lookup _ _ _ _ Hrb) in Hent.
      destruct (lookup_lt_is_Some_2 ra l) as [x Hx]; [lia|].
      destruct (lookup_lt_is_Some_2 rb l) as [y Hy]; [lia|].
      rewrite Hx, Hy in Hent |- *. simpl in Hent. by subst.
    + rewrite !lookup_ge_None_2; [done|lia|lia].
  - rewrite !lookup_ge_None_2; [done|lia|lia].
Qed.

Lemma shape2_sum2 (a b : list (list Qc)) (r c : nat) :
  shape2 a r c → shape2 b r c → shape2 (sum2 a b) r c.
Proof.
  intros [Ha Hca] [Hb Hcb]. unfold sum2. split.
  - rewrite length_zip_with. lia.
  - clear Ha Hb. revert b Hcb.
    induction Hca as [|x a Hx _ IH]; intros [|y b] Hcb; try done.
    apply Forall_cons in Hcb as [Hy Hcb]. cbn [zip_with].
    constructor; [|by apply IH]. rewrite length_zip_with. lia.
Qed.

Lemma entry_sum2 (a b : list (list Qc)) (r c i l : nat) :
  shape2 a r c → shape2 b r c → (i < r)%nat → (l < c)%nat →
  entry (sum2 a b) i l = (entry a i l + entry b i l)%Qc.
Proof.
  intros Ha Hb Hi Hl.
  destruct (shape2_lookup _ _ _ _ Ha Hi) as (ra & Hra & Hlra).
  destruct (shape2_lookup _ _ _ _ Hb Hi) as (rb & Hrb & Hlrb).
  destruct (lookup_lt_is_Some_2 ra l) as [x Hx]; [lia|].
  destruct (lookup_lt_is_Some_2 rb l) as [y Hy]; [lia|].
  rewrite (entry_lookup _ _ _ _ Hra), (entry_lookup _ _ _ _ Hrb), Hx, Hy.
  assert (sum2 a b !! i = Some (zip_with Qcplus ra rb)) as Hs.
  { unfold sum2. rewrite lookup_zip_with, Hra. simpl. by rewrite Hrb. }
  rewrite (entry_lookup _ _ _ _ Hs), lookup_zip_with, Hx. simpl.
  by rewrite Hy.
Qed.

Lemma add2_same (a b : list (list Qc)) (r c : nat) :
  shape2 a r c → shape2 b r c → add2 a b = ok (sum2 a b).
Proof.
  intros [Ha Hca] [Hb Hcb]. unfold add2, sum2.
  rewrite (bcast2_same pair a b) by lia. rewrite bind_ok.
  rewrite (bcast2_same Qcplus), bind_ok
    by (destruct Hca, Hcb; simpl in *; congruence).
  clear Ha Hb. revert b Hcb.
  induction Hca as [|x a Hx _ IH]; intros [|y b] Hcb; try done.
  apply Forall_cons in Hcb as [Hy Hcb]. cbn [zip_with mapM_r fst snd].
  rewrite bcast2_same by lia. rewrite bind_ok, IH by done. done.
Qed.

Lemma iadd2_same (a b : list (list Qc)) (r c : nat) :
  shape2 a r c → shape2 b r c → iadd2 a b = ok (sum2 a b).
Proof.
  intros [Ha Hca] [Hb Hcb]. unfold iadd2, sum2.
  rewrite iadd_same, bind_ok
    by (destruct Hca, Hcb; simpl in *; congruence).
  rewrite decide_True by lia.
  clear Ha Hb. revert b Hcb.
  induction Hca as [|x a Hx _ IH]; intros [|y b] Hcb; try done.
  apply Forall_cons in Hcb as [Hy Hcb]. cbn [mapM_r zip_with fst snd].
  rewrite iadd_same by lia. rewrite bind_ok, IH by done. done.
Qed.

(** One turn of the foreground loop, for a foreground whose array has the
    shape of the model: the model becomes the array of the sums. *)
Lemma add_foreground_step (pars : gmap string Qc) (d : Hillipop.dl_model)
  (fg : Hillipop.foreground) (fgdl : list (list Qc)) (r c : nat) :
  Hillipop.compute_dl fg pars = ok fgdl →
  shape2 (Hillipop.dlmodel_rows d) r c → shape2 fgdl r c →
  Hillipop.add_foreground pars d fg
  = ok (Hillipop.DlArray (sum2 (Hillipop.dlmodel_rows d) fgdl)).
Proof.
  intros Hfg Hd Hf. unfold Hillipop.add_foreground. rewrite Hfg, bind_ok.
  destruct d as [[|x rows]|a]; cbn [Hillipop.dlmodel_rows] in *.
  - destruct Hd as [<- _]. destruct Hf as [Hf _].
    by destruct fgdl.
  - by rewrite (add2_same _ _ r c).
  - by rewrite (iadd2_same _ _ r c).
Qed.

(** The whole loop: the shape is kept, and each entry of the model gains
    the sum of the entries of the foreground arrays at its place. *)
Lemma add_foreground_shaped (pars : gmap string Qc)
  (fgs : list Hillipop.foreground) (F : list (list (list Qc))) (r c : nat) :
  Forall2 (λ fg f, Hillipop.compute_dl fg pars = ok f ∧ shape2 f r c) fgs F →
  ∀ d, shape2 (Hillipop.dlmodel_rows d) r c →
  ∃ d', foldM (Hillipop.add_foreground pars) d fgs = ok d' ∧
        shape2 (Hillipop.dlmodel_rows d') r c ∧
        ∀ i l, (i < r)%nat → (l < c)%nat →
          entry (Hillipop.dlmodel_rows d') i l
          = (entry (Hillipop.dlmodel_rows d) i l
             + fsum (map (λ f, entry f i l) F))%Qc.
Proof.
  induction 1 as [|fg f fgs F [Hfg Hf] _ IH]; intros d Hd.
  - exists d. split; [done|]. split; [done|]. intros i l _ _. simpl. ring.
  - cbn [foldM]. rewrite (add_foreground_step _ _ _ _ _ _ Hfg Hd Hf), bind_ok.
    destruct (IH (Hillipop.DlArray (sum2 (Hillipop.dlmodel_rows d) f)))
      as (d' & Hd' & Hsh & Hent).
    { by apply shape2_sum2. }
    exists d'. split; [done|]. split; [done|]. intros i l Hi Hl.
    rewrite (Hent i l Hi Hl). cbn [Hillipop.dlmodel_rows map].
    rewrite (entry_sum2 _ _ r c), fsum_cons by done. ring.
Qed.

(** Foregrounds whose arrays are zero leave the rows of the model as they
    are. *)
Lemma add_foreground_zero (pars : gmap string Qc)
  (fgs : list Hillipop.foreground) (r c : nat) :
  Forall (λ fg, Hillipop.compute_dl fg pars
                = ok (replicate r (replicate c 0%Qc))) fgs →
  ∀ d, shape2 (Hillipop.dlmodel_rows d) r c →
  ∃ d', foldM (Hillipop.add_foreground pars) d fgs = ok d' ∧
        Hillipop.dlmodel_rows d' = Hillipop.dlmodel_rows d.
Proof.
  intros Hfg d Hd.
  destruct (add_foreground_shaped pars fgs
              (replicate (length fgs) (replicate r (replicate c 0%Qc))) r c)
    with (d := d) as (d' & Hd' & Hsh & Hent); [|done|].
  { clear Hd. induction Hfg as [|fg fgs Hfg _ IH]; [constructor|].
    cbn [length replicate]. constructor; [|done]. split; [done|].
    apply shape2_replicate. }
  exists d'. split; [done|]. apply (array_ext _ _ r c); [done|done|].
  intros i l Hi Hl. rewrite (Hent i l Hi Hl).
  rewrite fsum_zeros; [ring|]. apply Forall_fmap, Forall_forall.
  intros f Hf%elem_of_replicate. simpl. destruct Hf as [-> _].
  apply entry_replicate.
Qed.

Lemma to_dl_shape (st : Hillipop.t) cl_boltz dlth :
  Hillipop.to_dl st cl_boltz = ok dlth →
  Forall (λ r, length r = Z.to_nat (Hillipop.lmax st + 1)) dlth.
Proof.
  intros H. unfold Hillipop.to_dl in H. destruct cl_boltz as [|r0 rs];
    [discriminate|].
  apply mapM_r_Forall2 in H. apply Forall_forall. intros r Hr.
  apply list_elem_of_lookup in Hr as [i Hi].
  destruct (Forall2_lookup_r _ _ _ _ _ H Hi) as (r' & _ & Hr').
  apply mapM_r_ok_length in Hr'. unfold range in Hr'.
  by rewrite length_seq in Hr'.
Qed.

Lemma residual_spectra_zero (st : Hillipop.t) (cal : list Qc)
  (t0 : list Qc) :
  Hillipop.dldata st !! 0%nat = Some (replicate (Hillipop.nxspec st) t0) →
  (∀ xs, (xs < Hillipop.nxspec st)%nat → cal !! xs = Some 1%Qc) →
  Hillipop.residual_spectra st cal (replicate (Hillipop.nxspec st) t0)
  = ok (replicate (Hillipop.nxspec st) (replicate (length t0) 0%Qc)).
Proof.
  intros Hdata Hcal. unfold Hillipop.residual_spectra.
  rewrite (mapM_r_pure _ (λ _, replicate (length t0) 0%Qc)).
  - f_equal. by apply map_range_const.
  - intros xs Hxs%list_elem_of_In%in_seq.
    rewrite (py_index_lookup _ _ _ Hdata), bind_ok.
    unfold py_index. rewrite lookup_replicate_2, Hcal by lia. rewrite !bind_ok.
    rewrite bcast2_same by (by rewrite length_map). f_equal.
    clear. induction t0 as [|x t0 IH]; [done|]. simpl. rewrite IH.
    f_equal. ring.
Qed.

Lemma zeros_of_entries (a : list (list Qc)) (r c : nat) :
  shape2 a r c →
  (∀ i l, (i < r)%nat → (l < c)%nat → entry a i l = 0%Qc) →
  a = replicate r (replicate c 0%Qc).
Proof.
  intros [Hr Hc] Hent. apply list_eq. intros i.
  destruct (decide (i < r)%nat) as [Hi|Hi].
  - rewrite lookup_replicate_2 by done.
    destruct (lookup_lt_is_Some_2 a i) as [row Hrow]; [lia|].
    rewrite Hrow. f_equal. apply list_eq. intros l.
    eapply Forall_lookup_1 in Hc; [|exact Hrow].
    destruct (decide (l < c)%nat) as [Hl|Hl].
    + rewrite lookup_replicate_2 by done.
      specialize (Hent i l Hi Hl). rewrite (entry_lookup _ _ _ _ Hrow) in Hent.
      destruct (lookup_lt_is_Some_2 row l) as [x Hx]; [lia|].
      rewrite Hx in Hent |- *. simpl in Hent. by subst.
    + rewrite !lookup_ge_None_2; [done| |lia]. rewrite length_replicate. lia.
  - rewrite !lookup_ge_None_2; [done| |lia]. rewrite length_replicate. lia.
Qed.

Lemma weighted_sum_zero (st : Hillipop.t) (weight : list (list Qc))
  (r c b l : nat) :
  weighted_sum st (replicate r (replicate c 0%Qc)) weight b l = 0%Qc.
Proof.
  unfold weighted_sum. apply fsum_zeros. apply Forall_fmap, Forall_forall.
  intros xs _. simpl. rewrite entry_replicate. ring.
Qed.

Lemma xspectra_to_xfreq_zero (st : Hillipop.t) (weight : list (list Qc)) :
  index_maps_wf st → spectra_wf st weight → 0 ≤ Hillipop.lmax st + 1 →
  Hillipop._xspectra_to_xfreq st
    (replicate (Hillipop.nxspec st)
       (replicate (Z.to_nat (Hillipop.lmax st + 1)) 0%Qc)) weight
  = ok (replicate (Hillipop.nxfreq st)
          (replicate (Z.to_nat (Hillipop.lmax st + 1)) 0%Qc)).
Proof.
  intros Hmaps Hw Hlmax.
  destruct (xspectra_to_xfreq_ok st
              (replicate (Hillipop.nxspec st)
                 (replicate (Z.to_nat (Hillipop.lmax st + 1)) 0%Qc))
              weight Hmaps (shape2_replicate _ _ _) Hw Hlmax)
    as (out & -> & Hshape & Hent).
  f_equal. apply zeros_of_entries; [done|]. intros i l Hi Hl.
  rewrite (Hent i l Hi Hl), weighted_sum_zero. unfold weighted_mean.
  destruct (decide _); [done|]. unfold Qcdiv. ring.
Qed.

Lemma read_invcovmatrix_inv (st : Hillipop.t) (data : list Qc) (a : array2) :
  Hillipop._read_invcovmatrix st data = ok a →
  Hillipop.count_dim st = ok (Z.of_nat (shape0 a)) ∧ shape1 a = shape0 a.
Proof.
  intros H. unfold Hillipop._read_invcovmatrix in H. inv_bind H.
  case_bool_decide as Hnel; [|discriminate]. simpl in H. injection H as <-.
  unfold reshape2 in Hx0. case_decide; [|discriminate].
  injection Hx0 as <-. simpl. by rewrite Hnel.
Qed.

Lemma table_entry_inv (tab : list (list Z)) (m i : nat) (v : Z) :
  table_entry tab m i = Some v → ∃ col, tab !! m = Some col ∧ col !! i = Some v.
Proof.
  unfold table_entry. destruct (tab !! m) as [col|]; [|done]. eauto.
Qed.

Lemma select_zero (st : Hillipop.t) (xfs : list nat) (terms : list Z) :
  ranges_valid st 0 →
  (∀ m hi i z, Hillipop.lmaxs st !! m = Some hi → hi !! i = Some z →
               z ≤ Hillipop.lmax st) →
  Forall2 (counts_entry st 0) xfs terms →
  Forall (λ xf, (xf < Hillipop.nxfreq st)%nat) xfs →
  ∀ xl, ∃ out,
    foldM (Hillipop.select_step st
             (replicate (Hillipop.nxfreq st)
                (replicate (Z.to_nat (Hillipop.lmax st + 1)) 0%Qc)) 0)
          xl xfs = ok (xl ++ out) ∧
    Forall (λ x, x = 0%Qc) out ∧
    Z.of_nat (length out) = foldr Z.add 0 terms.
Proof.
  intros Hvalid Hmax H. induction H as [|xf term xfs terms Hterm _ IH];
    intros Hlt xl.
  - exists []. simpl. by rewrite app_nil_r.
  - apply Forall_cons in Hlt as [Hxf Hlt].
    destruct Hterm as (i & lmin & lmax & Hfirst & Hlo & Hhi & ->).
    pose proof (Hvalid i lmin lmax Hlo Hhi) as Hrange.
    apply table_entry_inv in Hlo as (lo & Hlo & Hlmin).
    apply table_entry_inv in Hhi as (hi & Hhi & Hlmax).
    pose proof (Hmax _ _ _ _ Hhi Hlmax) as Hle.
    apply list_index_ok in Hfirst.
    cbn [foldM].
    match goal with
    | |- ∃ _, (?step ≫= _) = _ ∧ _ =>
        assert (step = ok (xl ++ replicate (Z.to_nat (lmax - lmin + 1)) 0%Qc))
          as ->
    end.
    { unfold Hillipop.select_step.
      rewrite (py_index_lookup _ _ _ Hlo), (py_index_lookup _ _ _ Hhi),
        Hfirst, !bind_ok.
      rewrite (py_index_lookup _ _ _ Hlmin), !bind_ok.
      rewrite (py_index_lookup _ _ _ Hlmax), !bind_ok.
      unfold py_index. rewrite lookup_replicate_2 by done.
      by rewrite !bind_ok, py_slice_replicate by lia. }
    rewrite bind_ok.
    destruct (IH Hlt (xl ++ replicate (Z.to_nat (lmax - lmin + 1)) 0%Qc))
      as (out & -> & Hz & Hlen).
    exists (replicate (Z.to_nat (lmax - lmin + 1)) 0%Qc ++ out).
    split; [by rewrite app_assoc|]. split.
    + apply Forall_app. split; [by apply Forall_replicate | done].
    + rewrite length_app, length_replicate. simpl. lia.
Qed.

(** C2 (as amended): on an engine whose only active mode is TT, with valid
    TT multipole ranges and well-shaped TT weights, if Aplanck = 1, every
    offset c_m = 0, the Dl conversion of the theory spectrum is the stored
    data of every cross-spectrum and every foreground contributes zero, then
    the residual of [compute_likelihood] is zero at every cross-frequency and
    multipole, and [compute_likelihood] returns 0. *)
Theorem likelihood_zero_at_data (nmap : nat) (freq_values : list Z)
  (tables : list (list (Z * Z))) (xspectra xerrors : list (list (list Qc)))
  (covmat : list Qc) (fgs : list Hillipop.foreground) (st : Hillipop.t)
  (pars : gmap string Qc) (cl_boltz : list (list Qc)) :
  Hillipop.__init__ nmap true false false false freq_values tables xspectra
    xerrors covmat fgs = ok st →
  ranges_valid st 0 →
  weights_wf st →
  neutral_calibration st pars →
  theory_reproduces_data st cl_boltz →
  zero_foregrounds st pars →
  (∃ dlth cal,
     Hillipop.to_dl st cl_boltz = ok dlth ∧
     Hillipop.cal_likelihood st pars = ok cal ∧
     Hillipop.tt_residuals st pars cal dlth
     = ok (replicate (Hillipop.nxfreq st)
             (replicate (Z.to_nat (Hillipop.lmax st + 1)) 0%Qc))) ∧
  Hillipop.compute_likelihood st pars cl_boltz = ok 0%Qc.
Proof.
  intros Hinit Hvalid (w0 & Hw0 & Hw) [HA Hc] (dlth & t0 & Hdl & Ht0 & Hdata)
    Hfg.
  apply init_inv in Hinit
    as (Hnmap & (HTT & HEE & HTE & HET) & _ & Hnx & Hmaps & Hal & Hmax
        & (lo & hi & z & Hlo & Hhi & Hz) & Hcov).
  (* the global lmax is a multipole *)
  assert (0 ≤ Hillipop.lmax st) as Hlmax.
  { assert (is_Some (lo !! 0%nat)) as [a Ha].
    { apply lookup_lt_is_Some. rewrite (Hal _ _ _ Hlo Hhi).
      by eapply lookup_lt_Some. }
    pose proof (Hvalid 0%nat a z) as Hr. unfold table_entry in Hr.
    rewrite Hlo, Hhi in Hr. specialize (Hr Ha Hz).
    pose proof (Hmax _ _ _ _ Hhi Hz). lia. }
  (* the calibration list *)
  assert (∃ cal, Hillipop.cal_likelihood st pars = ok cal ∧
                 ∀ xs, (xs < Hillipop.nxspec st)%nat → cal !! xs = Some 1%Qc)
    as (cal & Hcal & Hcal1).
  { eexists. split; [by apply (cal_likelihood_spec st pars 1%Qc (λ _, 0%Qc))|].
    intros xs Hxs. rewrite list_lookup_fmap.
    destruct (lookup_lt_is_Some_2 (loop_pairs 1 (Hillipop.nmap st)) xs)
      as [m ->]; [rewrite Hnmap; lia|].
    simpl; f_equal; ring. }
  (* the residual *)
  assert (Hillipop.tt_residuals st pars cal dlth
          = ok (replicate (Hillipop.nxfreq st)
                  (replicate (Z.to_nat (Hillipop.lmax st + 1)) 0%Qc)))
    as Hres.
  { unfold Hillipop.tt_residuals.
    rewrite (py_index_lookup _ _ _ Ht0), bind_ok. cbv zeta.
    apply to_dl_shape in Hdl. eapply Forall_lookup_1 in Hdl; [|exact Ht0].
    destruct (add_foreground_zero pars (Hillipop.fgsTT st) _ _ Hfg
                (Hillipop.DlList (replicate (Hillipop.nxspec st) t0)))
      as (d & -> & Hrows).
    { split; [apply length_replicate|]. by apply Forall_replicate. }
    rewrite bind_ok, Hrows. cbn [Hillipop.dlmodel_rows].
    rewrite (residual_spectra_zero st cal t0 Hdata Hcal1), bind_ok.
    rewrite (py_index_lookup _ _ _ Hw0), bind_ok.
    rewrite Hdl. apply xspectra_to_xfreq_zero; [done|done|lia]. }
  split; [by exists dlth, cal|].
  (* the selected vector and the quadratic form *)
  apply read_invcovmatrix_inv in Hcov as [Hcount Hsq].
  rewrite count_dim_spec in Hcount. unfold active_tables in Hcount.
  rewrite HTT, HEE, HTE, HET in Hcount. simpl in Hcount. inv_bind Hcount.
  inv_bind Hx. subst x.
  apply count_mode_inv in Hx0 as (terms & -> & Hterms); [|done].
  simpl in Hcount.
  destruct (select_zero st (range (Hillipop.nxfreq st)) terms Hvalid Hmax
              Hterms) with (xl := @nil Qc) as (Xl & HXl & Hzero & Hlen).
  { apply Forall_forall. intros xf Hxf%list_elem_of_In%in_seq. lia. }
  unfold Hillipop.compute_likelihood.
  rewrite Hdl, bind_ok, Hcal, bind_ok, HTT, Hres, bind_ok.
  unfold Hillipop._select_spectra. rewrite HXl, bind_ok. simpl.
  apply quadratic_form_zero; [done| |done]. lia.
Qed.

Lemma likelihood_zero_at_data_witness :
  ∃ st, two_maps_fg true false = ok st ∧
        Hillipop.compute_likelihood st pars_neutral (theory_dl2 (Qc_of_Z 4))
        = ok 0%Qc.
Proof.
  eexists. split; [reflexivity|].
  refine (proj2 (likelihood_zero_at_data 2 [100; 100] (replicate 4 [(2, 2)])
                   (replicate 5 [[0; 0; Qc_of_Z 4]])%Qc
                   (replicate 5 [[0; 0; 1]])%Qc [Qc_of_Z (10 ^ 24)]
                   [Hillipop.Foreground (λ _, ok [[0; 0; 0]]%Qc)]
                   _ pars_neutral (theory_dl2 (Qc_of_Z 4)) _ _ _ _ _ _)).
  - reflexivity.
  - intros [|i] lmin lmax; [|discriminate]. intros [= <-] [= <-]. lia.
  - eexists. split; [reflexivity|]. split; [reflexivity | repeat constructor].
  - split; [reflexivity|]. intros [|[|m]] Hm; [reflexivity|reflexivity|].
    simpl in Hm. lia.
  - eexists _, _. split; [reflexivity|]. split; [reflexivity|]. by_compute.
  - repeat constructor.
Defined.

(** C2 (as stated) fails when TT is not the only active mode: with TT and
    EE both active the inverse covariance has the dimension of both modes
    while the selected vector holds TT only, and the product raises; with
    TT inactive the selected vector is never assigned. *)
Lemma likelihood_not_zero_with_other_modes :
  (∃ st, two_maps_fg true true = ok st ∧
         neutral_calibration st pars_neutral ∧
         theory_reproduces_data st (theory_dl2 (Qc_of_Z 4)) ∧
         zero_foregrounds st pars_neutral ∧
         Hillipop.compute_likelihood st pars_neutral (theory_dl2 (Qc_of_Z 4))
         = raise (ValueError "shapes not aligned")) ∧
  (∃ st, two_maps_fg false true = ok st ∧
         neutral_calibration st pars_neutral ∧
         theory_reproduces_data st (theory_dl2 (Qc_of_Z 4)) ∧
         zero_foregrounds st pars_neutral ∧
         Hillipop.compute_likelihood st pars_neutral (theory_dl2 (Qc_of_Z 4))
         = raise (UnboundLocalError "Xl")).
Proof.
  split; (eexists; split; [reflexivity|]; split; [|split; [|split]]).
  all: try by_compute.
  all: try (split; [reflexivity|]; intros [|[|m]] Hm;
            [reflexivity | reflexivity | simpl in Hm; lia]).
  all: try (eexists _, _; split; [reflexivity|]; split; [reflexivity|];
            by_compute).
  all: repeat constructor.
Qed.

(** * Further properties *)

(** ** Bins: the objects *)

Lemma derive_ext_ok (lmins lmaxs : list Z) :
  length lmins = length lmaxs → lmins ≠ [] →
  Forall (λ p, p.1 ≤ p.2) (zip lmins lmaxs) →
  Forall (λ a, 1 ≤ a) lmins →
  ∃ b, Bins._derive_ext lmins lmaxs = ok b.
Proof.
  intros Hlen Hne Hord Hpos. unfold Bins._derive_ext.
  rewrite (check_bounds_ok _ Hord), bind_ok.
  destruct lmins as [|a lmins]; [done|].
  destruct lmaxs as [|z lmaxs]; [done|].
  destruct (py_min_nonempty (a :: lmins)) as [lo Hlo]; [done|].
  destruct (py_max_nonempty (z :: lmaxs)) as [hi Hhi]; [done|].
  rewrite Hlo, bind_ok, Hhi, bind_ok.
  apply py_min_spec in Hlo as [Hlo_in Hlo].
  apply py_max_spec in Hhi as [_ Hhi].
  eapply Forall_forall in Hpos; [|exact Hlo_in].
  apply Forall_cons in Hlo as [? _]. apply Forall_cons in Hhi as [? _].
  apply Forall_cons in Hord as [? _]. simpl in *.
  destruct (Z.ltb_spec lo 1); [lia|]. destruct (Z.ltb_spec hi lo); [lia|].
  by eexists.
Qed.

Lemma mask_select_filter (f : Z → Z → bool) (P : Z * Z → Prop)
  `{∀ p, Decision (P p)} (l1 l2 : list Z) :
  (∀ a z, f a z = true ↔ P (a, z)) → length l1 = length l2 →
  mask_select l1 (zip_with f l1 l2) = (filter P (zip l1 l2)).*1 ∧
  mask_select l2 (zip_with f l1 l2) = (filter P (zip l1 l2)).*2.
Proof.
  intros Hf. revert l2.
  induction l1 as [|a l1 IH]; intros [|z l2] Hlen; try done.
  simpl in Hlen. injection Hlen as Hlen. destruct (IH _ Hlen) as [IH1 IH2].
  simpl. rewrite filter_cons.
  destruct (f a z) eqn:E.
  - rewrite decide_True by (by apply Hf). simpl. by rewrite IH1, IH2.
  - rewrite decide_False; [done|]. intros HP%Hf. congruence.
Qed.

(** The bins of every object lie between its [lmin] and [lmax], which are
    attained, and there is at least one bin. *)
Lemma bins_instance_bounds (b : Bins.t) :
  bins_instance b →
  Bins.lmins b ≠ [] ∧ Bins.lmin b ∈ Bins.lmins b ∧
  Bins.lmax b ∈ Bins.lmaxs b.
Proof.
  assert (∀ l1 l2 b, Bins._derive_ext l1 l2 = ok b →
            Bins.lmins b ≠ [] ∧ Bins.lmin b ∈ Bins.lmins b ∧
            Bins.lmax b ∈ Bins.lmaxs b) as Hd.
  { intros l1 l2 b' H. unfold Bins._derive_ext in H. inv_bind H.
    destruct (Z.ltb_spec x0 1); [discriminate|].
    destruct (Z.ltb_spec x1 x0); [discriminate|].
    injection H as <-. simpl.
    apply py_min_spec in Hx0 as [Hin _]. apply py_max_spec in Hx1 as [Hin' _].
    split; [|done]. intros ->. by apply elem_of_nil in Hin. }
  intros [lmins lmaxs b' H|b0 b' lo hi _ H].
  - unfold Bins.__init__ in H. case_bool_decide; [|discriminate].
    simpl in H. by eapply Hd.
  - unfold Bins.cut_binning in H. by eapply Hd.
Qed.

Lemma bins_instance_quadrupole (b : Bins.t) :
  bins_instance b → Forall (λ a, 2 ≤ a) (Bins.lmins b).
Proof.
  induction 1 as [lmins lmaxs b H|b b' lo hi Hb IH H].
  - apply init_wf in H as [Hwf Hzip].
    apply Forall_forall. intros a Ha.
    apply list_elem_of_lookup in Ha as [i Hi].
    destruct (lookup_lt_is_Some_2 (Bins.lmaxs b) i) as [z Hz].
    { rewrite <- (wf_length _ Hwf). by eapply lookup_lt_Some. }
    assert ((a, z) ∈ retained lmins lmaxs) as Hin.
    { rewrite <- Hzip. apply list_elem_of_lookup. exists i.
      rewrite lookup_zip_with, Hi. simpl. by rewrite Hz. }
    apply list_elem_of_filter in Hin as [Hnd _]. unfold dropped in Hnd.
    simpl in Hnd. lia.
  - pose proof (bins_instance_wf _ Hb) as Hwf.
    unfold Bins.cut_binning in H.
    destruct (mask_select_filter
                (λ a z, (lo <=? a) && (z <=? hi))
                (λ p, lo ≤ p.1 ∧ p.2 ≤ hi) (Bins.lmins b) (Bins.lmaxs b))
      as [E1 E2]; [|apply Hwf|].
    { intros a z. simpl. rewrite andb_true_iff, !Z.leb_le. done. }
    rewrite E1, E2 in H.
    apply derive_ext_wf in H as (_ & -> & _); [|by rewrite !length_fmap].
    apply Forall_fmap, Forall_forall. intros [a z] Hin.
    apply list_elem_of_filter in Hin as [_ Hin]. simpl.
    apply list_elem_of_lookup in Hin as [i Hi].
    apply lookup_zip_with_Some in Hi as (a' & z' & [= <- <-] & Ha & _).
    by eapply Forall_lookup_1 in IH.
Qed.

(** X1: every [Bins] object has at least one bin, every bin satisfies
    2 <= lmin <= lmax, [lmin] and [lmax] are the least lower and the
    greatest upper bound of the bins, and [nbins], [dl] and [lbin] are the
    number, the widths and the midpoints of the bins. *)
Theorem bins_instance_invariants (b : Bins.t) :
  bins_instance b →
  (0 < Bins.nbins b)%nat ∧
  Bins.nbins b = length (Bins.lmins b) ∧
  length (Bins.lmaxs b) = length (Bins.lmins b) ∧
  Bins.lmin b ∈ Bins.lmins b ∧ Bins.lmax b ∈ Bins.lmaxs b ∧
  ∀ i a z, Bins.lmins b !! i = Some a → Bins.lmaxs b !! i = Some z →
    2 ≤ Bins.lmin b ∧ Bins.lmin b ≤ a ∧ a ≤ z ∧ z ≤ Bins.lmax b ∧
    Bins.dl b !! i = Some (z - a + 1) ∧
    Bins.lbin b !! i = Some (Qc_of_Z (a + z) / 2)%Qc.
Proof.
  intros Hb. pose proof (bins_instance_wf _ Hb) as Hwf.
  pose proof (bins_instance_bounds _ Hb) as (Hne & Hlo & Hhi).
  pose proof (bins_instance_quadrupole _ Hb) as Hq.
  destruct Hwf as [Hlen Hnb Hord Hmin Hmax Hpos Hrng].
  split; [rewrite Hnb; destruct (Bins.lmins b); [done | simpl; lia]|].
  split; [done|]. split; [done|]. split; [done|]. split; [done|].
  intros i a z Ha Hz.
  eapply Forall_forall in Hq as Hq'; [|exact Hlo].
  eapply Forall_lookup_1 in Hmin; [|exact Ha].
  eapply Forall_lookup_1 in Hmax; [|exact Hz].
  assert (zip (Bins.lmins b) (Bins.lmaxs b) !! i = Some (a, z)) as Hi.
  { rewrite lookup_zip_with, Ha. simpl. by rewrite Hz. }
  eapply Forall_lookup_1 in Hord; [|exact Hi]. simpl in *.
  split; [done|]. split; [done|]. split; [done|]. split; [done|].
  clear Hq Hlo Hhi Hne.
  induction Hb as [lmins lmaxs b H|b0 b lo hi _ _ H].
  - unfold Bins.__init__ in H. case_bool_decide; [|discriminate]. simpl in H.
    unfold Bins._derive_ext in H. inv_bind H.
    destruct (Z.ltb_spec x0 1); [discriminate|].
    destruct (Z.ltb_spec x1 x0); [discriminate|].
    injection H as <-. simpl in *.
    rewrite !lookup_zip_with, Ha. simpl. by rewrite Hz.
  - unfold Bins.cut_binning in H.
    unfold Bins._derive_ext in H. inv_bind H.
    destruct (Z.ltb_spec x0 1); [discriminate|].
    destruct (Z.ltb_spec x1 x0); [discriminate|].
    injection H as <-. simpl in *.
    rewrite !lookup_zip_with, Ha. simpl. by rewrite Hz.
Qed.

Lemma bins_instance_invariants_witness :
  ∃ b, Bins.__init__ [0; 2; 5] [1; 4; 9] = ok b ∧ (0 < Bins.nbins b)%nat.
Proof.
  eexists. split; [reflexivity|].
  eapply proj1, bins_instance_invariants.
  apply (instance_init [0; 2; 5] [1; 4; 9]). reflexivity.
Defined.

(** X2: the constructor raises no exception other than the [ValueError]s
    "Incoherent inputs" and "min() arg is an empty sequence"; in particular
    the checks "lmin is less than 1" and "lmax is less than lmin" of
    [_derive_ext] never fire on the bins that the constructor keeps. *)
Theorem Bins_init_errors (lmins lmaxs : list Z) (e : exn) :
  Bins.__init__ lmins lmaxs = raise e →
  e = ValueError "Incoherent inputs" ∨
  e = ValueError "min() arg is an empty sequence".
Proof.
  unfold Bins.__init__. case_bool_decide as Hlen; simpl;
    [|intros [= <-]; by left].
  destruct (mask_select_cutfirst lmins lmaxs Hlen) as [-> ->].
  set (sel := retained lmins lmaxs).
  assert (Forall (λ a, 1 ≤ a) sel.*1) as Hpos.
  { apply Forall_fmap, Forall_forall. intros [a z] Hin.
    apply list_elem_of_filter in Hin as [Hnd _]. unfold dropped in Hnd.
    simpl in *. lia. }
  intros H.
  destruct (decide (Exists (λ p, p.2 < p.1) sel)) as [Hex|Hnex].
  { rewrite derive_ext_raise in H by (by rewrite zip_fst_snd).
    injection H as <-. by left. }
  destruct sel as [|p sel'] eqn:Hsel.
  { simpl in H. injection H as <-. by right. }
  destruct (derive_ext_ok (p :: sel').*1 (p :: sel').*2) as [b Hb];
    [by rewrite !length_fmap | done | | done | rewrite Hb in H; discriminate].
  rewrite zip_fst_snd. apply Forall_forall. intros q Hq.
  destruct (Z.le_gt_cases q.1 q.2) as [?|Hgt]; [done|].
  exfalso. apply Hnex, Exists_exists. exists q. split; [done | lia].
Qed.

Lemma Bins_init_errors_witness :
  ∃ e, Bins.__init__ [0; 1] [1; 1] = raise e ∧
       (e = ValueError "Incoherent inputs" ∨
        e = ValueError "min() arg is an empty sequence").
Proof.
  eexists. split; [reflexivity|].
  apply (Bins_init_errors [0; 1] [1; 1]). reflexivity.
Defined.

(** X3: [cut_binning] keeps exactly the bins that lie inside the given
    range, in their order; it returns when at least one bin is kept and then
    the new [lmin] and [lmax] lie inside the range, and it raises
    [ValueError] when no bin is kept. *)
Theorem cut_binning_spec (b : Bins.t) (lo hi : Z) :
  bins_instance b →
  let kept := filter (λ p, lo ≤ p.1 ∧ p.2 ≤ hi)
                     (zip (Bins.lmins b) (Bins.lmaxs b)) in
  (kept = [] →
   Bins.cut_binning b lo hi
   = raise (ValueError "min() arg is an empty sequence")) ∧
  (kept ≠ [] →
   ∃ b', Bins.cut_binning b lo hi = ok b' ∧
         zip (Bins.lmins b') (Bins.lmaxs b') = kept ∧
         Bins.nbins b' = length kept ∧
         lo ≤ Bins.lmin b' ∧ Bins.lmax b' ≤ hi).
Proof.
  intros Hb kept. pose proof (bins_instance_wf _ Hb) as Hwf.
  pose proof (bins_instance_quadrupole _ Hb) as Hq.
  unfold Bins.cut_binning.
  destruct (mask_select_filter
              (λ a z, (lo <=? a) && (z <=? hi))
              (λ p, lo ≤ p.1 ∧ p.2 ≤ hi) (Bins.lmins b) (Bins.lmaxs b))
    as [-> ->]; [|apply Hwf|].
  { intros a z. simpl. rewrite andb_true_iff, !Z.leb_le. done. }
  fold kept. split.
  - intros ->. reflexivity.
  - intros Hne.
    assert (∀ p, p ∈ kept → p ∈ zip (Bins.lmins b) (Bins.lmaxs b) ∧
                            lo ≤ p.1 ∧ p.2 ≤ hi) as Hkept.
    { intros p Hp. apply list_elem_of_filter in Hp. tauto. }
    destruct (derive_ext_ok kept.*1 kept.*2) as [b' Hb'].
    + by rewrite !length_fmap.
    + by destruct kept.
    + rewrite zip_fst_snd. apply Forall_forall. intros p Hp.
      apply Hkept in Hp as [Hp _].
      by eapply Forall_forall in Hp; [|apply (wf_ordered _ Hwf)].
    + apply Forall_fmap, Forall_forall. intros [a z] Hp.
      apply Hkept in Hp as [Hp _]. simpl.
      apply list_elem_of_lookup in Hp as [i Hi].
      apply lookup_zip_with_Some in Hi as (a' & z' & [= <- <-] & Ha & _).
      eapply Forall_lookup_1 in Hq; [|exact Ha]. simpl in Hq. lia.
    + exists b'. split; [done|].
      pose proof Hb' as Hb''.
      apply derive_ext_wf in Hb'' as (Hwf' & E1 & E2);
        [|by rewrite !length_fmap].
      rewrite E1, E2, zip_fst_snd. split; [done|].
      split; [by rewrite (wf_nbins _ Hwf'), E1, length_fmap|].
      unfold Bins._derive_ext in Hb'. inv_bind Hb'.
      destruct (Z.ltb_spec x0 1); [discriminate|].
      destruct (Z.ltb_spec x1 x0); [discriminate|].
      injection Hb' as <-. simpl.
      apply py_min_spec in Hx0 as [Hin _]. apply py_max_spec in Hx1 as [Hin' _].
      apply list_elem_of_fmap in Hin as (p & -> & Hp).
      apply list_elem_of_fmap in Hin' as (p' & -> & Hp').
      apply Hkept in Hp as (_ & ? & _). apply Hkept in Hp' as (_ & _ & ?).
      done.
Qed.

Lemma cut_binning_spec_witness :
  ∃ b, Bins.__init__ [2; 5; 10] [4; 9; 12] = ok b ∧
       Bins.cut_binning b 20 30
       = raise (ValueError "min() arg is an empty sequence").
Proof.
  eexists. split; [reflexivity|].
  match goal with
  | |- Bins.cut_binning ?b _ _ = _ =>
      apply (proj1 (cut_binning_spec b 20 30
                      (instance_init [2; 5; 10] [4; 9; 12] b eq_refl)))
  end.
  reflexivity.
Defined.

Lemma filter_all {A : Type} (P : A → Prop) `{∀ x, Decision (P x)}
  (l : list A) : Forall P l → filter P l = l.
Proof.
  induction 1 as [|x l Hx _ IH]; [done|].
  by rewrite filter_cons, decide_True, IH.
Qed.

(** X4: for [delta_ell >= 1] and [lmin >= 2], [fromdeltal] raises
    [ValueError] when the range holds fewer than [delta_ell] multipoles, and
    otherwise returns the [(lmax - lmin + 1) // delta_ell] contiguous bins of
    width [delta_ell] that start at [lmin]; the multipoles above the last
    bin, fewer than [delta_ell], are left out. *)
Theorem fromdeltal_spec (lmin lmax delta_ell : Z) :
  1 ≤ delta_ell → 2 ≤ lmin →
  let n := Z.to_nat ((lmax - lmin + 1) `div` delta_ell) in
  (lmax - lmin + 1 < delta_ell →
   Bins.fromdeltal lmin lmax delta_ell
   = inr (raise (ValueError "min() arg is an empty sequence"))) ∧
  (delta_ell ≤ lmax - lmin + 1 →
   ∃ b, Bins.fromdeltal lmin lmax delta_ell = inr (ok b) ∧
        Bins.nbins b = n ∧
        Bins.lmins b
        = map (λ i : nat, lmin + Z.of_nat i * delta_ell) (range n) ∧
        Bins.lmaxs b
        = map (λ i : nat, lmin + (Z.of_nat i + 1) * delta_ell - 1) (range n) ∧
        Bins.lmin b = lmin ∧
        Bins.lmax b = lmin + Z.of_nat n * delta_ell - 1 ∧
        lmax - delta_ell < Bins.lmax b ≤ lmax).
Proof.
  intros Hd Hlmin n. unfold Bins.fromdeltal.
  destruct (Z.eqb_spec delta_ell 0) as [?|_]; [lia|]. fold n.
  set (L1 := map (λ i : nat, lmin + Z.of_nat i * delta_ell) (range n)).
  set (L2 := map (λ a, a + delta_ell - 1) L1).
  split.
  - intros Hlt. assert (n = 0%nat) as Hn.
    { unfold n. destruct (Z.le_gt_cases 0 (lmax - lmin + 1)).
      - rewrite Z.div_small by lia. done.
      - pose proof (Z.div_lt_upper_bound (lmax - lmin + 1) delta_ell 0).
        lia. }
    unfold L2, L1. rewrite Hn. reflexivity.
  - intros Hge.
    pose proof (Z.mul_div_le (lmax - lmin + 1) delta_ell ltac:(lia)) as Hq1.
    pose proof (Z.mul_succ_div_gt (lmax - lmin + 1) delta_ell ltac:(lia))
      as Hq2.
    assert (1 ≤ (lmax - lmin + 1) `div` delta_ell) as Hq3
      by (apply Z.div_le_lower_bound; lia).
    assert (Z.of_nat n = (lmax - lmin + 1) `div` delta_ell) as Hn by lia.
    clearbody n.
    assert (length L1 = n) as HL1
      by (unfold L1, range; by rewrite length_map, length_seq).
    assert (length L1 = length L2) as Hlen
      by (unfold L2; by rewrite length_map).
    assert (∀ i a, L1 !! i = Some a ↔
                   (i < n)%nat ∧ a = lmin + Z.of_nat i * delta_ell) as HL1i.
    { intros i a. unfold L1, range. rewrite list_lookup_fmap.
      destruct (decide (i < n)%nat) as [Hi|Hi].
      - rewrite lookup_seq_lt by done. simpl. split.
        + intros [= <-]. done.
        + intros [_ ->]. done.
      - rewrite lookup_seq_ge by lia. simpl. split; [done | lia]. }
    assert (zip L1 L2 = map (λ a, (a, a + delta_ell - 1)) L1) as Hzip.
    { unfold L2. generalize L1. clear. intros l.
      induction l as [|a l IH]; [done|]. simpl. by rewrite <- IH. }
    assert (retained L1 L2 = zip L1 L2) as Hret.
    { apply filter_all. rewrite Hzip. apply Forall_fmap, Forall_forall.
      intros a Ha. apply list_elem_of_lookup in Ha as [i Hi].
      apply HL1i in Hi as [_ ->]. unfold dropped. simpl. nia. }
    destruct (derive_ext_ok L1 L2) as [b Hb]; [done| | | |].
    { intros E. rewrite E in HL1. simpl in HL1. lia. }
    { rewrite Hzip. apply Forall_fmap, Forall_forall. intros a _. simpl. lia. }
    { apply Forall_forall. intros a Ha.
      apply list_elem_of_lookup in Ha as [i Hi].
      apply HL1i in Hi as [_ ->]. nia. }
    assert (Bins.__init__ L1 L2 = ok b) as Hinit.
    { unfold Bins.__init__. rewrite bool_decide_eq_true_2 by done. simpl.
      destruct (mask_select_cutfirst L1 L2 Hlen) as [-> ->].
      by rewrite Hret, fst_zip, snd_zip by lia. }
    exists b. rewrite Hinit. split; [done|].
    pose proof (instance_init _ _ _ Hinit) as Hinst.
    pose proof (bins_instance_wf _ Hinst) as Hwf.
    pose proof (bins_instance_bounds _ Hinst) as (_ & Hlo & Hhi).
    apply derive_ext_wf in Hb as (_ & E1 & E2); [|done].
    assert (Bins.lmaxs b
            = map (λ i : nat, lmin + (Z.of_nat i + 1) * delta_ell - 1)
                  (range n)) as E2'.
    { rewrite E2. unfold L2, L1. rewrite map_map. apply map_ext.
      intros i. lia. }
    split; [by rewrite (wf_nbins _ Hwf), E1|].
    split; [done|]. split; [done|].
    assert (Bins.lmin b = lmin) as Elo.
    { rewrite E1 in Hlo. apply list_elem_of_lookup in Hlo as [i Hi].
      apply HL1i in Hi as [Hi Hlo].
      pose proof (wf_lmin _ Hwf) as Hall. rewrite E1 in Hall.
      eapply (Forall_lookup_1 _ _ 0%nat lmin) in Hall;
        [|apply HL1i; split; [lia | simpl; lia]]. simpl in Hall. nia. }
    assert (Bins.lmax b = lmin + Z.of_nat n * delta_ell - 1) as Ehi.
    { rewrite E2' in Hhi. apply list_elem_of_lookup in Hhi as [i Hi].
      unfold range in Hi. rewrite list_lookup_fmap in Hi.
      destruct (decide (i < n)%nat) as [Hin|Hin];
        [|by rewrite lookup_seq_ge in Hi by lia].
      rewrite lookup_seq_lt in Hi by done. simpl in Hi. injection Hi as Hi.
      pose proof (wf_lmax _ Hwf) as Hall. rewrite E2' in Hall.
      eapply (Forall_lookup_1 _ _ (n - 1)%nat
                (lmin + (Z.of_nat (n - 1) + 1) * delta_ell - 1)) in Hall.
      - simpl in Hall. nia.
      - unfold range. rewrite list_lookup_fmap, lookup_seq_lt by lia. done. }
    split; [done|]. split; [done|]. rewrite Ehi. nia.
Qed.

Lemma fromdeltal_spec_witness :
  ∃ b, Bins.fromdeltal 2 30 10 = inr (ok b) ∧
       Bins.lmins b = [2; 12] ∧ Bins.lmaxs b = [11; 21] ∧
       Bins.lmax b = 21.
Proof.
  destruct (proj2 (fromdeltal_spec 2 30 10 ltac:(lia) ltac:(lia)))
    as (b & Hb & _ & H1 & H2 & _ & H3 & _); [lia|].
  exists b. split; [exact Hb|]. split; [exact H1|]. split; [exact H2|].
  exact H3.
Defined.

(** ** Bins: binning a spectrum *)

Lemma py_slice_take_drop {A : Type} (l : list A) (a stop : Z) :
  0 ≤ a → a ≤ stop →
  py_slice l a stop = take (Z.to_nat (stop - a)) (drop (Z.to_nat a) l).
Proof.
  intros Ha Hstop. unfold py_slice, slice_bound.
  destruct (Z.ltb_spec a 0); [lia|]. destruct (Z.ltb_spec stop 0); [lia|].
  destruct (decide (Z.to_nat a ≤ length l)%nat) as [Hin|Hout].
  - rewrite (Nat.min_l (Z.to_nat a)) by done.
    destruct (decide (Z.to_nat stop ≤ length l)%nat).
    + rewrite Nat.min_l by done. f_equal. lia.
    + rewrite Nat.min_r by lia.
      rewrite !take_ge; [done| |]; rewrite length_drop; lia.
  - rewrite !drop_ge by lia. by rewrite !take_nil.
Qed.

Lemma fsum_zip_band (s : list Qc) (a k r : nat) (w : Qc) :
  fsum (zip_with Qcmult s
          (replicate a 0%Qc ++ replicate k w ++ replicate r 0%Qc))
  = (w * fsum (take k (drop a s)))%Qc.
Proof.
  revert s. induction a as [|a IH]; intros s.
  - simpl. rewrite drop_0. revert s. induction k as [|k IHk]; intros s.
    + simpl. rewrite fsum_zero_r by (by apply Forall_replicate). ring.
    + destruct s as [|x s]; simpl; [ring|]. rewrite IHk. ring.
  - destruct s as [|x s]; simpl; [rewrite take_nil; simpl; ring|].
    rewrite IH. ring.
Qed.

Lemma take_zip_with_both {A B C : Type} (f : A → B → C) (m : nat)
  (l : list A) (k : list B) :
  zip_with f (take m l) (take m k) = take m (zip_with f l k).
Proof.
  revert l k. induction m as [|m IH]; intros [|x l] [|y k]; simpl; try done.
  by rewrite IH.
Qed.

(** X5: on every [Bins] object and for a spectrum of any length,
    [bin_spectra] returns one value per bin: the sum of the entries of the
    spectrum at the multipoles of the bin, as far as the spectrum reaches,
    divided by the width of the bin.  For a spectrum that covers the bin this
    is the mean over the bin; a bin that the spectrum does not reach gets 0
    and a bin that it reaches in part gets part of its mean. *)
Theorem bin_spectra_bin_sums (b : Bins.t) (spectra : list Qc) (Dl : bool) :
  bins_instance b →
  ∃ out, Bins.bin_spectra b spectra Dl = ok out ∧
         length out = Bins.nbins b ∧
         ∀ i a z, Bins.lmins b !! i = Some a → Bins.lmaxs b !! i = Some z →
           out !! i = Some (fsum (py_slice spectra a (z + 1))
                            / Qc_of_Z (z - a + 1))%Qc.
Proof.
  intros Hwf%bins_instance_wf.
  destruct Hwf as [wf_length wf_nbins wf_ordered wf_lmin wf_lmax wf_pos wf_range].
  set (n := Z.to_nat (Bins.lmax b + 1)).
  assert (Z.of_nat n = Bins.lmax b + 1) as Hn by lia.
  unfold Bins.bin_spectra.
  set (m := Z.to_nat (Z.min (Z.of_nat (length spectra) - 1) (Bins.lmax b) + 1)).
  replace (Z.min (Z.of_nat (length spectra) - 1) (Bins.lmax b) + 1)
    with (Z.of_nat m) by lia.
  assert (m = Nat.min (length spectra) n) as Hm by lia.
  pose proof (bin_operators_p_rows b false false) as Hp. simpl in Hp.
  fold n in Hp.
  destruct (Bins._bin_operators b false false) as [_p _q]. simpl in Hp.
  subst _p. set (P := fold_left _ _ _).
  unfold take_rows, transpose. simpl.
  set (rowsT := map _ (range n)).
  assert (length rowsT = n) as HlenT.
  { unfold rowsT, range. by rewrite length_map, length_seq. }
  rewrite !py_slice_take_drop by lia.
  rewrite !Z.sub_0_r, !Nat2Z.id. simpl. rewrite !drop_0.
  unfold vec_mat. simpl.
  rewrite decide_True by (rewrite !length_take; lia).
  eexists. split; [reflexivity|].
  split; [unfold range; by rewrite length_map, length_seq|].
  intros i a z Ha Hz.
  assert (i < Bins.nbins b)%nat as Hi
    by (rewrite wf_nbins; by eapply lookup_lt_Some).
  unfold range. rewrite list_lookup_fmap, lookup_seq_lt by done. simpl.
  f_equal.
  assert (zip (Bins.lmins b) (Bins.lmaxs b) !! i = Some (a, z)) as Hi'.
  { rewrite lookup_zip_with, Ha. simpl. by rewrite Hz. }
  assert (P !! i = Some (p_row_update (replicate n 1%Qc) (a, z)
                           (replicate n 0%Qc))) as HP.
  { unfold P.
    rewrite (fold_alter_enumerate (p_row_update (replicate n 1%Qc))), Hi'.
    rewrite lookup_replicate_2 by lia. done. }
  eapply Forall_lookup_1 in wf_lmin; [|exact Ha].
  eapply Forall_lookup_1 in wf_ordered; [|exact Hi'].
  eapply Forall_lookup_1 in wf_lmax; [|exact Hz]. simpl in *.
  set (r := p_row_update _ _ _) in *.
  assert (r = replicate (Z.to_nat a) 0%Qc
              ++ replicate (Z.to_nat (z - a + 1)) (1 / Qc_of_Z (z - a + 1))%Qc
              ++ replicate (n - Z.to_nat (z + 1)) 0%Qc) as Hr.
  { unfold r, p_row_update. simpl.
    rewrite py_slice_replicate, slice_assign_replicate by lia.
    by rewrite fmap_replicate. }
  assert (length r = n) as Hlen.
  { rewrite Hr, !length_app, !length_replicate. lia. }
  assert (map (λ r0 : list Qc, default 0%Qc (r0 !! i)) rowsT = r) as Hcol.
  { unfold rowsT. rewrite map_map. rewrite <- (map_lookup_range r), Hlen.
    apply map_ext. intros l. by rewrite list_lookup_fmap, HP. }
  rewrite <- firstn_map, Hcol, take_zip_with_both.
  rewrite take_ge by (rewrite length_zip_with; lia).
  rewrite Hr, fsum_zip_band, py_slice_take_drop by lia.
  replace (z + 1 - a) with (z - a + 1) by lia.
  unfold Qcdiv. ring.
Qed.

Lemma bin_spectra_bin_sums_witness :
  ∃ b out, Bins.__init__ [2; 5] [4; 9] = ok b ∧
           Bins.bin_spectra b (map Qc_of_Z [0; 0; 3; 6; 9; 1; 2]) false
           = ok out ∧ length out = Bins.nbins b.
Proof.
  eexists.
  match goal with
  | |- ∃ out, ?I = ok ?b ∧ _ =>
      destruct (bin_spectra_bin_sums b (map Qc_of_Z [0; 0; 3; 6; 9; 1; 2])
                  false (instance_init [2; 5] [4; 9] b eq_refl))
        as (out & Hout & Hlen & _)
  end.
  exists out. split; [reflexivity|]. split; [exact Hout | exact Hlen].
Defined.

(** ** Index maps: pairs of maps and of frequencies *)

Lemma elem_of_loop_pairs (off n i j : nat) :
  (i, j) ∈ loop_pairs off n ↔ (i + off ≤ j ∧ j < n ∧ i < n)%nat.
Proof.
  unfold loop_pairs, range, range2.
  rewrite list_elem_of_In, in_flat_map. split.
  - intros (i' & Hi & Hin). apply in_map_iff in Hin as (j' & [= <- <-] & Hj).
    apply in_seq in Hi, Hj. lia.
  - intros (? & ? & ?). exists i. split; [apply in_seq; lia|].
    apply in_map_iff. exists j. split; [done|]. apply in_seq. lia.
Qed.

Lemma flat_map_bind {A B : Type} (f : A → list B) (l : list A) :
  flat_map f l = l ≫= f.
Proof. induction l as [|x l IH]; [done|]. simpl. by rewrite IH. Qed.

Lemma NoDup_loop_pairs (off n : nat) : NoDup (loop_pairs off n).
Proof.
  unfold loop_pairs. rewrite flat_map_bind. apply NoDup_bind.
  - intros i1 i2 [i j] _ _ H1 H2.
    apply list_elem_of_fmap in H1 as (? & [= -> _] & _).
    apply list_elem_of_fmap in H2 as (? & [= -> _] & _). done.
  - intros i _. apply NoDup_fmap; [by intros ?? [=]|].
    unfold range2. apply NoDup_seq.
  - unfold range. apply NoDup_seq.
Qed.

Lemma list_cross_loop_pairs (nmap : nat) : list_cross nmap = loop_pairs 1 nmap.
Proof.
  unfold list_cross, loop_pairs, range, range2. by rewrite Nat.sub_0_r.
Qed.

(** X6: [list_cross(nmap)] lists the pairs (i, j) with i < j < nmap, each
    once; there are nmap (nmap - 1) / 2 of them, and the list is the
    [xspec2map] that [_set_lists] builds. *)
Theorem list_cross_spec (nmap : nat) :
  (∀ i j, (i, j) ∈ list_cross nmap ↔ (i < j < nmap)%nat) ∧
  NoDup (list_cross nmap) ∧
  length (list_cross nmap) = (nmap * (nmap - 1) / 2)%nat ∧
  ∀ nfreq fqs x2m lfq x2f,
    Hillipop._set_lists nmap nfreq fqs = ok (x2m, lfq, x2f) →
    x2m = list_cross nmap.
Proof.
  rewrite list_cross_loop_pairs. split; [|split; [|split]].
  - intros i j. rewrite elem_of_loop_pairs. lia.
  - apply NoDup_loop_pairs.
  - apply length_loop_pairs_1.
  - intros nfreq fqs x2m lfq x2f H. unfold Hillipop._set_lists in H.
    inv_bind H. by subst.
Qed.

(** ** Index maps: the cross-frequency of a pair of maps *)

Lemma increasing_cons (x : Z) (l : list Z) :
  increasing (x :: l) ↔ Forall (Z.lt x) l ∧ increasing l.
Proof.
  split.
  - intros H. split.
    + apply Forall_lookup. intros i y Hy. by apply (H 0%nat (S i)); [lia| |].
    + intros i j a b Hij Ha Hb. by apply (H (S i) (S j)); [lia| |].
  - intros [Hx Hl] i j a b Hij Ha Hb.
    destruct j as [|j]; [lia|]. simpl in Hb.
    destruct i as [|i]; simpl in Ha.
    + injection Ha as <-. by eapply Forall_lookup_1 in Hx.
    + apply (Hl i j); [lia|done|done].
Qed.

Lemma elem_of_insert_unique (x y : Z) (l : list Z) :
  y ∈ insert_unique x l ↔ y = x ∨ y ∈ l.
Proof.
  induction l as [|z l IH]; simpl.
  - by rewrite elem_of_cons.
  - destruct (x <? z) eqn:H1; [by rewrite elem_of_cons|].
    destruct (x =? z) eqn:H2.
    + apply Z.eqb_eq in H2 as ->. rewrite elem_of_cons. tauto.
    + rewrite !elem_of_cons, IH. tauto.
Qed.

Lemma increasing_insert_unique (x : Z) (l : list Z) :
  increasing l → increasing (insert_unique x l).
Proof.
  induction l as [|z l IH]; intros Hl; simpl.
  - apply increasing_cons. split; [constructor|]. intros i j ???. 
    by rewrite lookup_nil.
  - destruct (x <? z) eqn:H1.
    + apply Z.ltb_lt in H1. apply increasing_cons. split; [|done].
      apply increasing_cons in Hl as [Hz _]. constructor; [done|].
      eapply Forall_impl; [exact Hz|]. simpl. lia.
    + destruct (x =? z) eqn:H2; [done|].
      apply Z.ltb_ge in H1. apply Z.eqb_neq in H2.
      apply increasing_cons in Hl as [Hz Hl].
      apply increasing_cons. split; [|by apply IH].
      apply Forall_forall. intros y Hy.
      apply elem_of_insert_unique in Hy as [->|Hy]; [lia|].
      by eapply Forall_forall in Hz.
Qed.

Lemma elem_of_np_unique (x : Z) (l : list Z) : x ∈ np_unique l ↔ x ∈ l.
Proof.
  unfold np_unique. induction l as [|y l IH]; simpl; [done|].
  rewrite elem_of_insert_unique, IH, elem_of_cons. done.
Qed.

Lemma increasing_np_unique (l : list Z) : increasing (np_unique l).
Proof.
  unfold np_unique. induction l as [|y l IH]; simpl.
  - intros i j ???. by rewrite lookup_nil.
  - by apply increasing_insert_unique.
Qed.

Lemma increasing_lookup_le (l : list Z) (i j : nat) (a b : Z) :
  increasing l → l !! i = Some a → l !! j = Some b → (i ≤ j)%nat ↔ a ≤ b.
Proof.
  intros Hl Ha Hb. split; intros H.
  - destruct (decide (i = j)) as [->|Hne]; [simplify_eq; lia|].
    pose proof (Hl i j a b ltac:(lia) Ha Hb). lia.
  - destruct (decide (i ≤ j)%nat) as [|Hn]; [done|].
    pose proof (Hl j i b a ltac:(lia) Hb Ha). lia.
Qed.

Lemma increasing_list_index (l : list Z) (i : nat) (a : Z) :
  increasing l → l !! i = Some a → list_index l a = ok i.
Proof.
  intros Hl Ha. apply list_index_ok. split; [done|].
  intros j Hj Hb. pose proof (Hl j i a a Hj Hb Ha). lia.
Qed.

Lemma list_index_loop_pairs_0 (n f1 f2 : nat) :
  (f1 < n)%nat → (f2 < n)%nat →
  if decide (f1 ≤ f2)%nat
  then ∃ k, list_index (loop_pairs 0 n) (f1, f2) = ok k ∧
            loop_pairs 0 n !! k = Some (f1, f2)
  else list_index (loop_pairs 0 n) (f1, f2)
       = raise (ValueError "x is not in list").
Proof.
  intros H1 H2. destruct (decide (f1 ≤ f2)%nat) as [Hle|Hgt].
  - destruct (list_index_elem (loop_pairs 0 n) (f1, f2)) as [k Hk].
    { apply elem_of_loop_pairs. lia. }
    exists k. split; [done|]. by apply list_index_ok in Hk as [? _].
  - apply list_index_fails. rewrite elem_of_loop_pairs. lia.
Qed.

Lemma mapM_r_raise {A B : Type} (f : A → result B) (xs : list A) (e : exn) :
  (∀ x, x ∈ xs → f x = raise e ∨ is_ok (f x)) →
  (∃ x, x ∈ xs ∧ f x = raise e) →
  mapM_r f xs = raise e.
Proof.
  induction xs as [|x xs IH]; intros Hall (y & Hy & He).
  - by apply elem_of_nil in Hy.
  - simpl. destruct (Hall x) as [Hx|[v Hx]]; [left| |]; rewrite Hx; [done|].
    rewrite bind_ok. rewrite IH; [done| |].
    + intros z Hz. apply Hall. by right.
    + apply elem_of_cons in Hy as [->|Hy]; [|by exists y].
      rewrite Hx in He. discriminate.
Qed.

(** The cross-frequency of one pair of maps. *)
Lemma set_lists_step (fqs : list Z) (m1 m2 : nat) (a b : Z) :
  fqs !! m1 = Some a → fqs !! m2 = Some b →
  let step :=
    (a ← py_index fqs m1;
     f1 ← list_index (np_unique fqs) a;
     b ← py_index fqs m2;
     f2 ← list_index (np_unique fqs) b;
     list_index (loop_pairs 0 (length (np_unique fqs))) (f1, f2)) in
  if decide (a ≤ b)
  then ∃ k, step = ok k ∧ xfreq_of fqs (m1, m2) k
  else step = raise (ValueError "x is not in list").
Proof.
  intros Ha Hb step. unfold step.
  assert (Hua : a ∈ np_unique fqs).
  { apply elem_of_np_unique. by eapply list_elem_of_lookup_2. }
  assert (Hub : b ∈ np_unique fqs).
  { apply elem_of_np_unique. by eapply list_elem_of_lookup_2. }
  apply list_elem_of_lookup_1 in Hua as [f1 Hf1].
  apply list_elem_of_lookup_1 in Hub as [f2 Hf2].
  pose proof (increasing_np_unique fqs) as Hinc.
  rewrite (py_index_lookup _ _ _ Ha), bind_ok.
  rewrite (increasing_list_index _ _ _ Hinc Hf1), bind_ok.
  rewrite (py_index_lookup _ _ _ Hb), bind_ok.
  rewrite (increasing_list_index _ _ _ Hinc Hf2), bind_ok.
  pose proof (list_index_loop_pairs_0 (length (np_unique fqs)) f1 f2) as Hk.
  pose proof (increasing_lookup_le _ _ _ _ _ Hinc Hf1 Hf2) as Hle.
  apply lookup_lt_Some in Hf1 as Hl1. apply lookup_lt_Some in Hf2 as Hl2.
  specialize (Hk Hl1 Hl2).
  destruct (decide (a ≤ b)) as [Hab|Hab].
  - rewrite decide_True in Hk by tauto. destruct Hk as (k & Hk & Hlk).
    exists k. split; [done|]. by exists f1, f2, a, b.
  - rewrite decide_False in Hk by tauto. done.
Qed.

(** X7: with one frequency per map, [_set_lists] returns exactly when the
    maps are listed by non-decreasing frequency; it then gives every pair of
    maps the index of the pair of the ranks of its two frequencies.  When a
    map follows a map of a higher frequency it raises [ValueError]. *)
Theorem set_lists_spec (nmap : nat) (fqs : list Z) :
  length fqs = nmap →
  let nfreq := length (np_unique fqs) in
  (nondecreasing fqs →
   ∃ x2f,
     Hillipop._set_lists nmap nfreq fqs
     = ok (loop_pairs 1 nmap, loop_pairs 0 nfreq, x2f) ∧
     Forall2 (xfreq_of fqs) (loop_pairs 1 nmap) x2f) ∧
  (¬ nondecreasing fqs →
   Hillipop._set_lists nmap nfreq fqs = raise (ValueError "x is not in list")).
Proof.
  intros Hlen nfreq. unfold Hillipop._set_lists. fold nfreq.
  assert (Hstep : ∀ m, m ∈ loop_pairs 1 nmap →
            ∃ a b, fqs !! m.1 = Some a ∧ fqs !! m.2 = Some b ∧ (m.1 < m.2)%nat).
  { intros [m1 m2] Hm. apply elem_of_loop_pairs in Hm. simpl.
    destruct (lookup_lt_is_Some_2 fqs m1) as [a Ha]; [lia|].
    destruct (lookup_lt_is_Some_2 fqs m2) as [b Hb]; [lia|].
    exists a, b. repeat split; [done|done|lia]. }
  split.
  - intros Hnd.
    assert (∃ x2f,
      mapM_r (λ m : nat * nat,
                a ← py_index fqs m.1;
                f1 ← list_index (np_unique fqs) a;
                b ← py_index fqs m.2;
                f2 ← list_index (np_unique fqs) b;
                list_index (loop_pairs 0 nfreq) (f1, f2))
             (loop_pairs 1 nmap) = ok x2f ∧
      Forall2 (xfreq_of fqs) (loop_pairs 1 nmap) x2f) as (x2f & -> & H2).
    { revert Hstep. generalize (loop_pairs 1 nmap). intros ms.
      induction ms as [|[m1 m2] ms IH]; intros Hstep.
      - exists []. split; [done|constructor].
      - destruct IH as (x2f & Hx & H2).
        { intros m Hm. apply Hstep. by right. }
        destruct (Hstep (m1, m2)) as (a & b & Ha & Hb & Hlt); [left|].
        simpl in Ha, Hb, Hlt.
        pose proof (set_lists_step fqs m1 m2 a b Ha Hb) as Hs. simpl in Hs.
        rewrite decide_True in Hs by by eapply Hnd.
        destruct Hs as (k & Hk & Hxf).
        exists (k :: x2f). split; [|by constructor].
        simpl. fold nfreq in Hk. rewrite Hk, bind_ok, Hx. done. }
    rewrite bind_ok. by exists x2f.
  - intros Hnot.
    assert (∃ i j a b, (i < j)%nat ∧ fqs !! i = Some a ∧ fqs !! j = Some b
                       ∧ b < a) as (i & j & a & b & Hij & Ha & Hb & Hba).
    { destruct (decide (Exists (λ m : nat * nat,
             default 0 (fqs !! m.2) < default 0 (fqs !! m.1))
             (loop_pairs 1 nmap))) as [Hex|Hno].
      - apply Exists_exists in Hex as ([i j] & Hm & Hlt). simpl in Hlt.
        apply elem_of_loop_pairs in Hm.
        destruct (lookup_lt_is_Some_2 fqs i) as [a Ha]; [lia|].
        destruct (lookup_lt_is_Some_2 fqs j) as [b Hb]; [lia|].
        rewrite Ha, Hb in Hlt. simpl in Hlt. exists i, j, a, b.
        repeat split; [lia|done|done|done].
      - exfalso. apply Hnot. intros i j a b Hij Ha Hb.
        destruct (decide (a ≤ b)) as [|Hgt]; [done|]. exfalso. apply Hno.
        apply Exists_exists. exists (i, j). split.
        + apply elem_of_loop_pairs. apply lookup_lt_Some in Hb. lia.
        + simpl. rewrite Ha, Hb. simpl. lia. }
    rewrite (mapM_r_raise _ _ (ValueError "x is not in list")); [done| |].
    + intros [m1 m2] Hm.
      destruct (Hstep _ Hm) as (a' & b' & Ha' & Hb' & _). simpl in Ha', Hb'.
      pose proof (set_lists_step fqs m1 m2 a' b' Ha' Hb') as Hs. simpl in Hs.
      fold nfreq in Hs. simpl.
      destruct (decide (a' ≤ b')); [right|left; done].
      destruct Hs as (k & Hk & _). by exists k.
    + exists (i, j). split.
      * apply elem_of_loop_pairs. apply lookup_lt_Some in Hb. lia.
      * pose proof (set_lists_step fqs i j a b Ha Hb) as Hs. simpl in Hs.
        fold nfreq in Hs. rewrite decide_False in Hs by lia. done.
Qed.

Lemma set_lists_spec_witness :
  ∃ x2f,
    Hillipop._set_lists 3 (length (np_unique [100; 100; 143])) [100; 100; 143]
    = ok (loop_pairs 1 3, loop_pairs 0 (length (np_unique [100; 100; 143])),
          x2f) ∧
    Forall2 (xfreq_of [100; 100; 143]) (loop_pairs 1 3) x2f.
Proof.
  apply (set_lists_spec 3 [100; 100; 143]); [reflexivity|].
  intros i j a b Hij Ha Hb.
  destruct i as [|[|[|i]]]; destruct j as [|[|[|j]]]; simpl in Ha, Hb;
    simplify_eq; lia.
Defined.

(** ** Construction of the engine: the frequencies of the maps *)

Lemma get_freqs_inv (nmap : nat) (freq_values fqs : list Z) :
  Hillipop._get_freqs nmap freq_values = ok fqs →
  length fqs = nmap ∧ fqs = take nmap freq_values.
Proof.
  intros H. unfold Hillipop._get_freqs in H.
  pose proof (mapM_r_ok_length _ _ _ H) as Hlen.
  unfold range in Hlen. rewrite length_seq in Hlen. split; [done|].
  apply list_eq. intros i.
  destruct (decide (i < nmap)%nat) as [Hi|Hi].
  - rewrite lookup_take_lt by done.
    destruct (mapM_r_ok_lookup _ _ _ i i H) as (y & Hy & Hf).
    { unfold range. rewrite lookup_seq. split; [done|lia]. }
    rewrite Hy. simpl in Hf.
    destruct (freq_values !! i); [by injection Hf as ->|discriminate].
  - rewrite lookup_ge_None_2 by lia.
    symmetry. apply lookup_ge_None_2. rewrite length_take. lia.
Qed.

Lemma set_lists_inv (nmap : nat) (fqs : list Z) x2m lfq x2f :
  Hillipop._set_lists nmap (length (np_unique fqs)) fqs = ok (x2m, lfq, x2f) →
  x2m = loop_pairs 1 nmap ∧ lfq = loop_pairs 0 (length (np_unique fqs)) ∧
  Forall2 (xfreq_of fqs) (loop_pairs 1 nmap) x2f.
Proof.
  intros H. unfold Hillipop._set_lists in H. inv_bind H. subst.
  split; [done|]. split; [done|].
  apply mapM_r_Forall2 in Hx. eapply Forall2_impl; [exact Hx|].
  intros [m1 m2] k Hk. simpl in Hk. inv_bind Hk.
  apply py_index_ok in Hx0, Hx2.
  apply list_index_ok in Hx1 as [Hx1 _], Hx3 as [Hx3 _], Hk as [Hk _].
  by exists x0, x2, x, x1.
Qed.

Lemma init_lists nmap tt ee te et freq_values tables xspectra xerrors covmat
  fgs (st : Hillipop.t) :
  Hillipop.__init__ nmap tt ee te et freq_values tables xspectra xerrors covmat
    fgs = ok st →
  Hillipop.fqs st = take nmap freq_values ∧
  length (Hillipop.fqs st) = nmap ∧
  Hillipop.nfreq st = length (np_unique (Hillipop.fqs st)) ∧
  Hillipop.nxfreq st
  = length (loop_pairs 0 (length (np_unique (Hillipop.fqs st)))) ∧
  Hillipop.xspec2map st = loop_pairs 1 nmap ∧
  Forall2 (xfreq_of (Hillipop.fqs st)) (loop_pairs 1 nmap)
          (Hillipop.xspec2xfreq st).
Proof.
  intros H. unfold Hillipop.__init__ in H. inv_bind H. subst st. simpl.
  apply get_freqs_inv in Hx as [Hlen ->].
  destruct x0 as [[x2m lfq] x2f]. apply set_lists_inv in Hx0 as (-> & _ & H2).
  rewrite length_loop_pairs_0. done.
Qed.

Lemma xfreq_of_ordered (fqs : list Z) (m : nat * nat) (k : nat) :
  xfreq_of fqs m k →
  ∃ a b, fqs !! m.1 = Some a ∧ fqs !! m.2 = Some b ∧ a ≤ b.
Proof.
  intros (f1 & f2 & a & b & Ha & Hb & Hf1 & Hf2 & Hk).
  exists a, b. split; [done|]. split; [done|].
  apply list_elem_of_lookup_2, elem_of_loop_pairs in Hk.
  apply (increasing_lookup_le _ _ _ _ _ (increasing_np_unique fqs) Hf1 Hf2).
  lia.
Qed.

(** X8: an engine that was constructed has its maps listed by non-decreasing
    frequency; when at least one of the modes TT, EE, TE, ET is active, every
    frequency is moreover the frequency of at least two maps. *)
Theorem init_frequencies nmap tt ee te et freq_values tables xspectra xerrors
  covmat fgs (st : Hillipop.t) :
  Hillipop.__init__ nmap tt ee te et freq_values tables xspectra xerrors covmat
    fgs = ok st →
  Hillipop.fqs st = take nmap freq_values ∧
  length (Hillipop.fqs st) = nmap ∧
  nondecreasing (Hillipop.fqs st) ∧
  (tt || ee || te || et = true →
   ∀ f, f ∈ Hillipop.fqs st →
     ∃ m1 m2, (m1 < m2 < nmap)%nat ∧
              Hillipop.fqs st !! m1 = Some f ∧
              Hillipop.fqs st !! m2 = Some f).
Proof.
  intros H.
  destruct (init_lists _ _ _ _ _ _ _ _ _ _ _ _ H)
    as (Hfq & Hlen & Hnf & Hnxf & Hx2m & H2).
  destruct (init_inv _ _ _ _ _ _ _ _ _ _ _ _ H)
    as (_ & (Htt & Hee & Hte & Het) & _ & _ & _ & _ & _ & _ & Hcov).
  split; [done|]. split; [done|]. split.
  - intros i j a b Hij Ha Hb.
    assert (Hin : (i, j) ∈ loop_pairs 1 nmap).
    { apply elem_of_loop_pairs. apply lookup_lt_Some in Hb. lia. }
    apply list_elem_of_lookup_1 in Hin as [xs Hxs].
    destruct (Forall2_lookup_l _ _ _ _ _ H2 Hxs) as (k & _ & Hk).
    apply xfreq_of_ordered in Hk as (a' & b' & Ha' & Hb' & Hle).
    simpl in Ha', Hb'. by simplify_eq.
  - intros Hact f Hf.
    assert (Hr : f ∈ np_unique (Hillipop.fqs st)) by by apply elem_of_np_unique.
    apply list_elem_of_lookup_1 in Hr as [r Hr].
    assert (Hin : (r, r) ∈ loop_pairs 0 (length (np_unique (Hillipop.fqs st)))).
    { apply elem_of_loop_pairs. apply lookup_lt_Some in Hr. lia. }
    apply list_elem_of_lookup_1 in Hin as [k Hk].
    destruct (decide (k ∈ Hillipop.xspec2xfreq st)) as [Hkin|Hkout].
    + apply list_elem_of_lookup_1 in Hkin as [xs Hxs].
      destruct (Forall2_lookup_r _ _ _ _ _ H2 Hxs) as ([m1 m2] & Hm & Hxf).
      destruct Hxf as (f1 & f2 & a & b & Ha & Hb & Hf1 & Hf2 & Hk').
      simpl in Ha, Hb. rewrite Hk in Hk'. injection Hk' as <- <-.
      rewrite Hr in Hf1, Hf2. injection Hf1 as <-. injection Hf2 as <-.
      apply list_elem_of_lookup_2, elem_of_loop_pairs in Hm.
      exists m1, m2. split; [lia|done].
    + exfalso.
      assert (Hun : unattained_xfreq st).
      { exists k. split; [|done]. rewrite Hnxf. by eapply lookup_lt_Some. }
      assert (Hne : active_tables st ≠ []).
      { unfold active_tables. rewrite Htt, Hee, Hte, Het.
        destruct tt, ee, te, et; simpl; try discriminate Hact; done. }
      destruct (count_dim_unattained st Hne Hun) as [e He].
      unfold Hillipop._read_invcovmatrix in Hcov. rewrite He in Hcov.
      discriminate.
Qed.

Lemma init_frequencies_witness :
  ∃ st, two_maps true false = ok st ∧
        Hillipop.fqs st = take 2 [100; 100] ∧
        length (Hillipop.fqs st) = 2%nat ∧
        nondecreasing (Hillipop.fqs st) ∧
        (true || false || false || false = true →
         ∀ f, f ∈ Hillipop.fqs st →
           ∃ m1 m2, (m1 < m2 < 2)%nat ∧
                    Hillipop.fqs st !! m1 = Some f ∧
                    Hillipop.fqs st !! m2 = Some f).
Proof.
  eexists. split; [reflexivity|].
  refine (init_frequencies 2 true false false false [100; 100]
            (replicate 4 [(2, 2)])
            (replicate 5 [[0; 0; Qc_of_Z 4]])%Qc
            (replicate 5 [[0; 0; 1]])%Qc
            [Qc_of_Z (10 ^ 24)] [] _ _).
  reflexivity.
Defined.

(** ** The foreground models *)

Lemma residual_spectra_spec (st : Hillipop.t) (cal : list Qc)
  (model d0 : list (list Qc)) :
  Hillipop.dldata st !! 0%nat = Some d0 → spectra_wf st d0 →
  length cal = Hillipop.nxspec st → spectra_wf st model →
  ∃ R, Hillipop.residual_spectra st cal model = ok R ∧ spectra_wf st R ∧
       ∀ xs l, (xs < Hillipop.nxspec st)%nat →
               (l < Z.to_nat (Hillipop.lmax st + 1))%nat →
         entry R xs l
         = (entry d0 xs l - default 0 (cal !! xs) * entry model xs l)%Qc.
Proof.
  intros Hd0 Hd Hcal Hm.
  set (g := λ xs : nat,
         zip_with Qcminus (default [] (d0 !! xs))
           (map (Qcmult (default 0%Qc (cal !! xs)))
                (default [] (model !! xs)))).
  assert (Hrow : ∀ xs, (xs < Hillipop.nxspec st)%nat →
            ∃ d m c, d0 !! xs = Some d ∧ model !! xs = Some m ∧
                     cal !! xs = Some c ∧
                     length d = Z.to_nat (Hillipop.lmax st + 1) ∧
                     length m = Z.to_nat (Hillipop.lmax st + 1)).
  { intros xs Hxs.
    destruct (shape2_lookup _ _ _ _ Hd Hxs) as (d & Hdx & Hdl).
    destruct (shape2_lookup _ _ _ _ Hm Hxs) as (m & Hmx & Hml).
    destruct (lookup_lt_is_Some_2 cal xs) as [c Hc]; [lia|].
    by exists d, m, c. }
  exists (map g (range (Hillipop.nxspec st))). split; [|split; [split|]].
  - unfold Hillipop.residual_spectra. apply mapM_r_pure.
    intros xs Hxs%list_elem_of_In%in_seq.
    destruct (Hrow xs) as (d & m & c & Hdx & Hmx & Hc & Hdl & Hml); [lia|].
    rewrite (py_index_lookup _ _ _ Hd0), bind_ok.
    rewrite (py_index_lookup _ _ _ Hdx), bind_ok.
    rewrite (py_index_lookup _ _ _ Hc), bind_ok.
    rewrite (py_index_lookup _ _ _ Hmx), bind_ok.
    rewrite bcast2_same by (rewrite length_map; lia).
    unfold g. by rewrite Hdx, Hmx, Hc.
  - unfold range. by rewrite length_map, length_seq.
  - apply Forall_fmap, Forall_forall.
    intros xs Hxs%list_elem_of_In%in_seq. simpl.
    destruct (Hrow xs) as (d & m & c & Hdx & Hmx & Hc & Hdl & Hml); [lia|].
    unfold g. rewrite Hdx, Hmx. simpl.
    rewrite length_zip_with, length_map. lia.
  - intros xs l Hxs Hl.
    destruct (Hrow xs Hxs) as (d & m & c & Hdx & Hmx & Hc & Hdl & Hml).
    assert (map g (range (Hillipop.nxspec st)) !! xs = Some (g xs)) as Hg.
    { unfold range. rewrite list_lookup_fmap, lookup_seq_lt by done. done. }
    rewrite (entry_lookup _ _ _ _ Hg), (entry_lookup _ _ _ _ Hdx),
      (entry_lookup _ _ _ _ Hmx), Hc.
    unfold g. rewrite Hdx, Hmx, Hc. simpl.
    destruct (lookup_lt_is_Some_2 d l) as [x Hx]; [lia|].
    destruct (lookup_lt_is_Some_2 m l) as [y Hy]; [lia|].
    rewrite lookup_zip_with, Hx, list_lookup_fmap, Hy. done.
Qed.

Lemma entry_replicate_row (r : nat) (t0 : list Qc) (i l : nat) :
  (i < r)%nat → entry (replicate r t0) i l = default 0%Qc (t0 !! l).
Proof.
  intros Hi. unfold entry. by rewrite lookup_replicate_2.
Qed.

Lemma bucket_members_lt (st : Hillipop.t) (b xs : nat) :
  xs ∈ bucket_members st b → (xs < Hillipop.nxspec st)%nat.
Proof.
  unfold bucket_members. intros [_ H%list_elem_of_In%in_seq]%list_elem_of_filter.
  lia.
Qed.

Lemma fsum_map_ext {A : Type} (f g : A → Qc) (l : list A) :
  (∀ x, x ∈ l → f x = g x) → fsum (map f l) = fsum (map g l).
Proof.
  induction l as [|x l IH]; intros H; [done|]. simpl.
  rewrite (H x) by left. rewrite IH; [done|]. intros y Hy. apply H. by right.
Qed.

(** The residuals of the TT block with the foreground arrays [F]. *)
Lemma tt_residuals_spec (st : Hillipop.t) (pars : gmap string Qc)
  (cal : list Qc) (dlth : list (list Qc)) (t0 : list Qc)
  (d0 w0 : list (list Qc)) (F : list (list (list Qc))) :
  index_maps_wf st → 0 ≤ Hillipop.lmax st + 1 →
  Hillipop.dlweight st !! 0%nat = Some w0 → spectra_wf st w0 →
  Hillipop.dldata st !! 0%nat = Some d0 → spectra_wf st d0 →
  foregrounds_shaped st pars F →
  dlth !! 0%nat = Some t0 →
  length t0 = Z.to_nat (Hillipop.lmax st + 1) →
  length cal = Hillipop.nxspec st →
  ∃ Rl, Hillipop.tt_residuals st pars cal dlth = ok Rl ∧
        shape2 Rl (Hillipop.nxfreq st) (Z.to_nat (Hillipop.lmax st + 1)) ∧
        ∀ b l, (b < Hillipop.nxfreq st)%nat →
               (l < Z.to_nat (Hillipop.lmax st + 1))%nat →
          entry Rl b l
          = weighted_mean
              (fsum (map (λ xs, (entry w0 xs l
                                 * residual_entry d0 cal t0 F xs l)%Qc)
                         (bucket_members st b)))
              (total_weight st w0 b l).
Proof.
  intros Hmaps Hlmax Hw0 Hw Hd0 Hd Hfg Ht0 Hlen Hcal.
  unfold Hillipop.tt_residuals.
  rewrite (py_index_lookup _ _ _ Ht0), bind_ok. cbv zeta.
  destruct (add_foreground_shaped pars (Hillipop.fgsTT st) F _ _ Hfg
              (Hillipop.DlList (replicate (Hillipop.nxspec st) t0)))
    as (d & -> & Hshape & Hent).
  { split; [apply length_replicate|]. by apply Forall_replicate. }
  rewrite bind_ok.
  destruct (residual_spectra_spec st cal (Hillipop.dlmodel_rows d) d0
              Hd0 Hd Hcal Hshape) as (R & -> & HR & HRent).
  rewrite bind_ok, (py_index_lookup _ _ _ Hw0), bind_ok.
  destruct (xspectra_to_xfreq_ok st R w0 Hmaps HR Hw Hlmax)
    as (Rl & HRl & HRshape & HRl_ent).
  exists Rl. split; [done|]. split; [done|]. intros b l Hb Hl.
  rewrite (HRl_ent b l Hb Hl). f_equal. unfold weighted_sum.
  apply fsum_map_ext. intros xs Hxs%bucket_members_lt.
  rewrite (HRent xs l Hxs Hl), (Hent xs l Hxs Hl).
  cbn [Hillipop.dlmodel_rows]. rewrite entry_replicate_row by done.
  done.
Qed.

(** X9: the foreground models are added to the theory, cross-spectrum by
    cross-spectrum.  On an engine constructed with the mode TT, whose TT
    table holds ranges of multipoles and whose TT data and weights have one
    spectrum over 0..lmax per cross-spectrum, when the foreground models
    return arrays [F] of that shape, [_compute_residuals] returns the
    average per cross-frequency of the residuals
    [data[xs][l] - cal[xs] * (dlth[0][l] + sum of the F[k][xs][l])]:
    at each cross-frequency and multipole their sum weighted by the stored
    weights over the total weight, and zero where the total weight is
    zero. *)
Theorem foregrounds_summed (nmap : nat) (ee te et : bool)
  (freq_values : list Z) (tables : list (list (Z * Z)))
  (xspectra xerrors : list (list (list Qc))) (covmat : list Qc)
  (fgs : list Hillipop.foreground) (st : Hillipop.t)
  (pars : gmap string Qc) (cl_boltz dlth : list (list Qc))
  (t0 cal : list Qc) (d0 w0 : list (list Qc)) (F : list (list (list Qc))) :
  Hillipop.__init__ nmap true ee te et freq_values tables xspectra xerrors
    covmat fgs = ok st →
  ranges_valid st 0 →
  Hillipop.dlweight st !! 0%nat = Some w0 → spectra_wf st w0 →
  Hillipop.dldata st !! 0%nat = Some d0 → spectra_wf st d0 →
  Hillipop.to_dl st cl_boltz = ok dlth → dlth !! 0%nat = Some t0 →
  Hillipop.cal_residuals st pars = ok cal →
  foregrounds_shaped st pars F →
  ∃ Rl, Hillipop._compute_residuals st pars cl_boltz = ok Rl ∧
        shape2 Rl (Hillipop.nxfreq st) (Z.to_nat (Hillipop.lmax st + 1)) ∧
        ∀ b l, (b < Hillipop.nxfreq st)%nat →
               (l < Z.to_nat (Hillipop.lmax st + 1))%nat →
          entry Rl b l
          = weighted_mean
              (fsum (map (λ xs, (entry w0 xs l
                                 * residual_entry d0 cal t0 F xs l)%Qc)
                         (bucket_members st b)))
              (total_weight st w0 b l).
Proof.
  intros Hinit Hvalid Hw0 Hw Hd0 Hd Hdl Ht0 Hcal Hfg.
  apply init_inv in Hinit
    as (Hnmap & (HTT & _) & _ & Hnx & Hmaps & Hal & Hmax
        & (lo & hi & z & Hlo & Hhi & Hz) & _).
  assert (0 ≤ Hillipop.lmax st) as Hlmax.
  { assert (is_Some (lo !! 0%nat)) as [a Ha].
    { apply lookup_lt_is_Some. rewrite (Hal _ _ _ Hlo Hhi).
      by eapply lookup_lt_Some. }
    pose proof (Hvalid 0%nat a z) as Hr. unfold table_entry in Hr.
    rewrite Hlo, Hhi in Hr. specialize (Hr Ha Hz).
    pose proof (Hmax _ _ _ _ Hhi Hz). lia. }
  assert (length cal = Hillipop.nxspec st) as Hclen.
  { unfold Hillipop.cal_residuals in Hcal. apply mapM_r_ok_length in Hcal.
    rewrite Hcal, Hnx. by rewrite Hnmap. }
  pose proof (to_dl_shape _ _ _ Hdl) as Hrows.
  eapply Forall_lookup_1 in Hrows; [|exact Ht0].
  destruct (tt_residuals_spec st pars cal dlth t0 d0 w0 F)
    as (Rl & HRl & Hshape & Hent); [done|lia|done..|].
  exists Rl. split; [|done].
  unfold Hillipop._compute_residuals.
  by rewrite Hdl, bind_ok, Hcal, bind_ok, HTT.
Qed.

Lemma foregrounds_summed_witness :
  ∃ st,
    Hillipop.__init__ 2 true false false false [100; 100]
      (replicate 4 [(2, 2)]) (replicate 5 [[0; 0; Qc_of_Z 4]])%Qc
      (replicate 5 [[0; 0; 1]])%Qc [Qc_of_Z (10 ^ 24)]
      [Hillipop.Foreground (λ _, ok [[0; 0; Qc_of_Z 7]]%Qc)] = ok st ∧
    ∃ Rl, Hillipop._compute_residuals st pars_offsets (theory_dl2 1) = ok Rl ∧
      shape2 Rl (Hillipop.nxfreq st) (Z.to_nat (Hillipop.lmax st + 1)) ∧
      ∀ b l, (b < Hillipop.nxfreq st)%nat →
             (l < Z.to_nat (Hillipop.lmax st + 1))%nat →
        entry Rl b l
        = weighted_mean
            (fsum (map (λ xs, (entry [[0; 0; 1]] xs l
                               * residual_entry [[0; 0; Qc_of_Z 4]]
                                   [Qc_of_Z 3] [0; 0; 1]
                                   [[[0; 0; Qc_of_Z 7]]] xs l)%Qc)
                       (bucket_members st b)))
            (total_weight st [[0; 0; 1]]%Qc b l).
Proof.
  eexists. split; [reflexivity|].
  refine (foregrounds_summed 2 false false false [100; 100]
            (replicate 4 [(2, 2)]) (replicate 5 [[0; 0; Qc_of_Z 4]])%Qc
            (replicate 5 [[0; 0; 1]])%Qc [Qc_of_Z (10 ^ 24)]
            [Hillipop.Foreground (λ _, ok [[0; 0; Qc_of_Z 7]]%Qc)]
            _ pars_offsets (theory_dl2 1) [[0; 0; 1]]%Qc [0; 0; 1]%Qc
            [Qc_of_Z 3] [[0; 0; Qc_of_Z 4]]%Qc [[0; 0; 1]]%Qc
            [[[0; 0; Qc_of_Z 7]]]%Qc _ _ _ _ _ _ _ _ _ _).
  - reflexivity.
  - intros [|i] lmin lmax; [|discriminate]. intros [= <-] [= <-]. lia.
  - reflexivity.
  - split; [reflexivity | repeat constructor].
  - reflexivity.
  - split; [reflexivity | repeat constructor].
  - by_compute.
  - reflexivity.
  - by_compute.
  - repeat constructor.
Defined.

(** ** Calibration: the parameters *)

Lemma loop_pairs_1_head (n : nat) :
  loop_pairs 1 (S n)
  = map (pair 0%nat) (seq 1 n)
    ++ flat_map (λ i, map (pair i) (range2 (i + 1) (S n))) (seq 1 n).
Proof.
  unfold loop_pairs, range, range2. simpl. by rewrite Nat.sub_0_r.
Qed.

Lemma mapM_r_first_raise {A B : Type} (f : A → result B) (l1 l2 : list A)
  (x : A) (e : exn) :
  (∀ y, y ∈ l1 → is_ok (f y)) → f x = raise e →
  mapM_r f (l1 ++ x :: l2) = raise e.
Proof.
  intros Hl1 Hx. induction l1 as [|y l1 IH]; simpl.
  - by rewrite Hx.
  - destruct (Hl1 y) as [v ->]; [left|]. rewrite bind_ok.
    rewrite IH; [done|]. intros z Hz. apply Hl1. by right.
Qed.

Lemma pars_get_None (pars : gmap string Qc) (key : string) :
  pars !! key = None → Hillipop.pars_get pars key = raise (KeyError key).
Proof. intros H. unfold Hillipop.pars_get. by rewrite H. Qed.

Lemma pars_get_Some (pars : gmap string Qc) (key : string) (v : Qc) :
  pars !! key = Some v → Hillipop.pars_get pars key = ok v.
Proof. intros H. unfold Hillipop.pars_get. by rewrite H. Qed.

(** The common shape of the two [#nuisances] loops. *)
Lemma cal_missing (g : Qc → Qc → Qc → Qc → Qc) (st : Hillipop.t)
  (pars : gmap string Qc) (key : string) :
  (2 ≤ Hillipop.nmap st)%nat →
  first_missing st pars key →
  mapM_r (λ m : nat * nat,
            a1 ← Hillipop.pars_get pars "Aplanck";
            a2 ← Hillipop.pars_get pars "Aplanck";
            c1 ← Hillipop.pars_get pars (Hillipop.cname m.1);
            c2 ← Hillipop.pars_get pars (Hillipop.cname m.2);
            ok (g a1 a2 c1 c2))
         (loop_pairs 1 (Hillipop.nmap st))
  = raise (KeyError key).
Proof.
  intros Hn Hmiss.
  destruct (Hillipop.nmap st) as [|n] eqn:Hnmap; [lia|].
  rewrite loop_pairs_1_head.
  destruct Hmiss as [[HA ->]|[[A HA] (m & Hm & -> & Hnone & Hbelow)]].
  - destruct n as [|n]; [lia|]. cbn [seq map app mapM_r].
    by rewrite (pars_get_None _ _ HA).
  - destruct m as [|m].
    + destruct n as [|n]; [lia|]. cbn [seq map app mapM_r fst snd].
      by rewrite (pars_get_Some _ _ _ HA), !bind_ok, (pars_get_None _ _ Hnone).
    + assert (seq 1 n = seq 1 m ++ S m :: seq (S (S m)) (n - S m)) as ->.
      { replace n with (m + S (n - S m))%nat at 1 by lia.
        rewrite seq_app. simpl. do 3 f_equal. }
      rewrite map_app. cbn [map]. rewrite <- app_assoc. cbn [app].
      apply mapM_r_first_raise.
      * intros [i j] Hij. apply list_elem_of_fmap in Hij as (j' & [= -> ->] & Hj).
        apply list_elem_of_In, in_seq in Hj. cbn [fst snd].
        destruct (Hbelow 0%nat) as [c0 Hc0]; [lia|].
        destruct (Hbelow j') as [cj Hcj]; [lia|].
        rewrite (pars_get_Some _ _ _ HA), !bind_ok.
        rewrite (pars_get_Some _ _ _ Hc0), !bind_ok.
        rewrite (pars_get_Some _ _ _ Hcj), !bind_ok. by eexists.
      * cbn [fst snd]. destruct (Hbelow 0%nat) as [c0 Hc0]; [lia|].
        rewrite (pars_get_Some _ _ _ HA), !bind_ok.
        rewrite (pars_get_Some _ _ _ Hc0), !bind_ok.
        by rewrite (pars_get_None _ _ Hnone).
Qed.

(** X10: with at least two maps and a theory spectrum that converts, a
    parameter that is missing makes [compute_likelihood] and
    [_compute_residuals] raise [KeyError] with the name of the first missing
    one: [Aplanck], or else the offset [c<m>] of the least map without
    one; this holds whatever the modes are. *)
Theorem missing_parameter (st : Hillipop.t) (pars : gmap string Qc)
  (cl_boltz : list (list Qc)) (key : string) :
  (2 ≤ Hillipop.nmap st)%nat →
  is_ok (Hillipop.to_dl st cl_boltz) →
  first_missing st pars key →
  Hillipop.compute_likelihood st pars cl_boltz = raise (KeyError key) ∧
  Hillipop._compute_residuals st pars cl_boltz = raise (KeyError key).
Proof.
  intros Hn [dlth Hdl] Hmiss.
  unfold Hillipop.compute_likelihood, Hillipop._compute_residuals.
  rewrite Hdl, !bind_ok.
  unfold Hillipop.cal_likelihood, Hillipop.cal_residuals. split.
  - by rewrite (cal_missing (λ a1 a2 c1 c2, a1 * a2 * (1 + c1) * (1 + c2))%Qc
                  st pars key Hn Hmiss).
  - by rewrite (cal_missing (λ a1 a2 c1 c2, a1 * a2 * (1 + c1 + c2))%Qc
                  st pars key Hn Hmiss).
Qed.

Lemma missing_parameter_witness :
  ∃ st, two_maps true false = ok st ∧
    Hillipop.compute_likelihood st (delete "c1" pars_neutral) (theory_dl2 1)
    = raise (KeyError "c1") ∧
    Hillipop._compute_residuals st (delete "c1" pars_neutral) (theory_dl2 1)
    = raise (KeyError "c1").
Proof.
  eexists. split; [reflexivity|].
  apply missing_parameter.
  - vm_compute. lia.
  - eexists. reflexivity.
  - right. split; [by eexists|]. exists 1%nat.
    split; [vm_compute; lia|]. split; [reflexivity|]. split; [reflexivity|].
    intros m' Hm'. assert (m' = 0%nat) as -> by lia. by eexists.
Defined.

(** ** Calibration: the two paths *)

Lemma Qc_cal_eq (A c1 c2 : Qc) :
  (A * A * (1 + c1 + c2) = A * A * (1 + c1) * (1 + c2))%Qc
  ↔ A = 0%Qc ∨ c1 = 0%Qc ∨ c2 = 0%Qc.
Proof.
  split.
  - intros H.
    assert (H0 : (A * A * (c1 * c2) = 0)%Qc).
    { transitivity (A * A * (1 + c1) * (1 + c2) - A * A * (1 + c1 + c2))%Qc;
        [ring|]. rewrite <- H. ring. }
    apply Qcmult_integral in H0 as [H0|H0].
    + apply Qcmult_integral in H0. tauto.
    + apply Qcmult_integral in H0. tauto.
  - intros [-> | [-> | ->] ]; ring.
Qed.

(** X11: when the parameters are there, the calibration factors of
    [_compute_residuals] are those of [compute_likelihood] exactly when
    [Aplanck] is zero or at most one map has a non-zero offset. *)
Theorem calibrations_agree (st : Hillipop.t) (pars : gmap string Qc)
  (A : Qc) (c : nat → Qc) :
  pars !! "Aplanck" = Some A →
  (∀ m, (m < Hillipop.nmap st)%nat → pars !! Hillipop.cname m = Some (c m)) →
  Hillipop.cal_residuals st pars = Hillipop.cal_likelihood st pars
  ↔ A = 0%Qc ∨
    ∀ m1 m2, (m1 < m2 < Hillipop.nmap st)%nat → c m1 = 0%Qc ∨ c m2 = 0%Qc.
Proof.
  intros HA Hc.
  rewrite (cal_residuals_spec st pars A c HA Hc).
  rewrite (cal_likelihood_spec st pars A c HA Hc).
  split.
  - intros H. injection H as H.
    destruct (decide (A = 0%Qc)) as [|HA0]; [by left|]. right.
    intros m1 m2 Hm.
    assert (Hin : (m1, m2) ∈ loop_pairs 1 (Hillipop.nmap st)).
    { apply elem_of_loop_pairs. lia. }
    apply list_elem_of_lookup_1 in Hin as [k Hk].
    apply (f_equal (.!! k)) in H. rewrite !list_lookup_fmap, Hk in H.
    cbn [fmap option_fmap option_map fst snd] in H.
    apply (inj Some) in H. apply Qc_cal_eq in H. tauto.
  - intros H. f_equal. apply map_ext_in. intros [m1 m2] Hm.
    apply list_elem_of_In, elem_of_loop_pairs in Hm. simpl.
    apply Qc_cal_eq. destruct H as [H|H]; [by left|]. right.
    apply H. lia.
Qed.

Lemma calibrations_agree_witness :
  ∃ st, two_maps true false = ok st ∧
    (Hillipop.cal_residuals st pars_neutral
     = Hillipop.cal_likelihood st pars_neutral
     ↔ 1%Qc = 0%Qc ∨
       ∀ m1 m2, (m1 < m2 < Hillipop.nmap st)%nat →
                (λ _ : nat, 0%Qc) m1 = 0%Qc ∨ (λ _ : nat, 0%Qc) m2 = 0%Qc).
Proof.
  eexists. split; [reflexivity|].
  apply calibrations_agree.
  - reflexivity.
  - intros m Hm. change (m < 2)%nat in Hm.
    destruct m as [|[|m]]; [reflexivity|reflexivity|lia].
Defined.

(** ** The cross-frequency average: weights and equal spectra *)

Lemma shape2_scale2 (c : Qc) (a : list (list Qc)) (r k : nat) :
  shape2 a r k → shape2 (scale2 c a) r k.
Proof.
  intros [Hr Hk]. unfold scale2. split; [by rewrite length_map|].
  apply Forall_fmap. eapply Forall_impl; [exact Hk|].
  intros row Hrow. simpl. by rewrite length_map.
Qed.

Lemma entry_scale2 (c : Qc) (a : list (list Qc)) (i l : nat) :
  entry (scale2 c a) i l = (c * entry a i l)%Qc.
Proof.
  unfold entry, scale2. rewrite list_lookup_fmap.
  destruct (a !! i) as [row|]; simpl; [|ring].
  rewrite list_lookup_fmap. destruct (row !! l); simpl; [done|ring].
Qed.

Lemma fsum_map_scale {A : Type} (c : Qc) (f : A → Qc) (l : list A) :
  fsum (map (λ x, (c * f x)%Qc) l) = (c * fsum (map f l))%Qc.
Proof.
  induction l as [|x l IH]; [unfold fsum; simpl; ring|].
  rewrite !map_cons, !fsum_cons, IH. ring.
Qed.

Lemma weighted_mean_scale (c s t : Qc) :
  c ≠ 0%Qc →
  weighted_mean (c * s) (c * t) = weighted_mean s t.
Proof.
  intros Hc. unfold weighted_mean.
  destruct (decide (t = 0%Qc)) as [->|Ht].
  - rewrite decide_True by ring. done.
  - rewrite decide_False.
    + field. by split.
    + intros H. apply Qcmult_integral in H. tauto.
Qed.

(** X12: multiplying every weight by the same non-zero factor does not
    change the averaged spectra. *)
Theorem xspectra_to_xfreq_scale (st : Hillipop.t)
  (cl weight : list (list Qc)) (c : Qc) :
  index_maps_wf st → spectra_wf st cl → spectra_wf st weight →
  0 ≤ Hillipop.lmax st + 1 →
  c ≠ 0%Qc →
  is_ok (Hillipop._xspectra_to_xfreq st cl weight) ∧
  Hillipop._xspectra_to_xfreq st cl (scale2 c weight)
  = Hillipop._xspectra_to_xfreq st cl weight.
Proof.
  intros Hmaps Hcl Hw Hlmax Hc.
  destruct (xspectra_to_xfreq_ok st cl weight Hmaps Hcl Hw Hlmax)
    as (out & Hout & Hshape & Hent).
  destruct (xspectra_to_xfreq_ok st cl (scale2 c weight) Hmaps Hcl
              (shape2_scale2 _ _ _ _ Hw) Hlmax)
    as (out' & Hout' & Hshape' & Hent').
  split; [by exists out|].
  rewrite Hout, Hout'. f_equal.
  apply (array_ext _ _ _ _ Hshape' Hshape). intros b l Hb Hl.
  rewrite Hent, Hent' by done.
  unfold weighted_sum, total_weight.
  assert (fsum (map (λ xs, (entry (scale2 c weight) xs l * entry cl xs l)%Qc)
                    (bucket_members st b))
          = (c * fsum (map (λ xs, (entry weight xs l * entry cl xs l)%Qc)
                           (bucket_members st b)))%Qc) as ->.
  { rewrite <- fsum_map_scale. f_equal. apply map_ext. intros xs.
    rewrite entry_scale2. ring. }
  assert (fsum (map (λ xs, entry (scale2 c weight) xs l)
                    (bucket_members st b))
          = (c * fsum (map (λ xs, entry weight xs l)
                           (bucket_members st b)))%Qc) as ->.
  { rewrite <- fsum_map_scale. f_equal. apply map_ext. intros xs.
    by rewrite entry_scale2. }
  by apply weighted_mean_scale.
Qed.

Lemma xspectra_to_xfreq_scale_witness :
  ∃ st, two_maps true false = ok st ∧
    is_ok (Hillipop._xspectra_to_xfreq st [[0; 0; Qc_of_Z 5]]%Qc
             [[0; 0; 1]]%Qc) ∧
    Hillipop._xspectra_to_xfreq st [[0; 0; Qc_of_Z 5]]%Qc
      (scale2 (Qc_of_Z 3) [[0; 0; 1]]%Qc)
    = Hillipop._xspectra_to_xfreq st [[0; 0; Qc_of_Z 5]]%Qc [[0; 0; 1]]%Qc.
Proof.
  eexists. split; [reflexivity|].
  apply xspectra_to_xfreq_scale.
  - split; [reflexivity | repeat constructor].
  - split; [reflexivity | repeat constructor].
  - split; [reflexivity | repeat constructor].
  - vm_compute. discriminate.
  - discriminate.
Defined.

Lemma weighted_sum_equal (v : Qc) (w x : nat → Qc) (l : list nat) :
  (∀ i, i ∈ l → w i ≠ 0%Qc → x i = v) →
  fsum (map (λ i, (w i * x i)%Qc) l) = (v * fsum (map w l))%Qc.
Proof.
  induction l as [|i l IH]; intros H; [unfold fsum; simpl; ring|].
  rewrite !map_cons, !fsum_cons, IH by (intros j Hj; apply H; by right).
  destruct (decide (w i = 0%Qc)) as [Hw|Hw].
  - rewrite Hw. ring.
  - rewrite (H i) by (done || left). ring.
Qed.

(** X13: at a cross-frequency and a multipole where the total weight is not
    zero, if all the cross-spectra that contribute with a non-zero weight
    have the same value, the average has that value. *)
Theorem xspectra_to_xfreq_equal (st : Hillipop.t)
  (cl weight : list (list Qc)) (b l : nat) (v : Qc) :
  index_maps_wf st → spectra_wf st cl → spectra_wf st weight →
  0 ≤ Hillipop.lmax st + 1 →
  (b < Hillipop.nxfreq st)%nat →
  (l < Z.to_nat (Hillipop.lmax st + 1))%nat →
  (∀ xs, xs ∈ bucket_members st b → entry weight xs l ≠ 0%Qc →
         entry cl xs l = v) →
  total_weight st weight b l ≠ 0%Qc →
  ∃ out, Hillipop._xspectra_to_xfreq st cl weight = ok out ∧
         entry out b l = v.
Proof.
  intros Hmaps Hcl Hw Hlmax Hb Hl Heq Htot.
  destruct (xspectra_to_xfreq_ok st cl weight Hmaps Hcl Hw Hlmax)
    as (out & Hout & _ & Hent).
  exists out. split; [done|]. rewrite Hent by done.
  unfold weighted_sum.
  rewrite (weighted_sum_equal v (λ xs, entry weight xs l)
             (λ xs, entry cl xs l)) by done.
  fold (total_weight st weight b l).
  unfold weighted_mean. rewrite decide_False by done. by field.
Qed.

Lemma xspectra_to_xfreq_equal_witness :
  ∃ st, two_maps true false = ok st ∧
    ∃ out, Hillipop._xspectra_to_xfreq st [[0; 0; Qc_of_Z 5]]%Qc
             [[0; 0; Qc_of_Z 2]]%Qc = ok out ∧
           entry out 0 2 = Qc_of_Z 5.
Proof.
  eexists. split; [reflexivity|].
  apply xspectra_to_xfreq_equal.
  - split; [reflexivity | repeat constructor].
  - split; [reflexivity | repeat constructor].
  - split; [reflexivity | repeat constructor].
  - vm_compute. discriminate.
  - vm_compute. lia.
  - vm_compute. lia.
  - intros xs Hxs _.
    assert (xs = 0%nat) as ->.
    { apply list_elem_of_filter in Hxs as [_ Hxs].
      apply list_elem_of_In, in_seq in Hxs.
      change (0 ≤ xs < 0 + 1)%nat in Hxs. lia. }
    reflexivity.
  - discriminate.
Defined.

(** ** The multipole ranges *)

Lemma py_max_raise (l : list Z) :
  l = [] → py_max l = raise (ValueError "max() arg is an empty sequence").
Proof. by intros ->. Qed.

Lemma py_max_map_snd (t : list (Z * Z)) :
  t ≠ [] →
  ∃ z, py_max (map snd t) = ok z ∧
       (∃ lo, (lo, z) ∈ t) ∧ ∀ lo hi, (lo, hi) ∈ t → hi ≤ z.
Proof.
  intros Ht. destruct (py_max_nonempty (map snd t)) as [z Hz].
  { by destruct t. }
  exists z. split; [done|]. apply py_max_spec in Hz as [Hin Hall]. split.
  - apply list_elem_of_fmap in Hin as ([lo hi] & -> & Hin). by exists lo.
  - intros lo hi Hlh. eapply Forall_forall in Hall; [exact Hall|].
    apply list_elem_of_fmap. by exists (lo, hi).
Qed.

(** X14: [_set_multipole_ranges] reads the first four tables of the file
    (TT, EE, BB, TE) and no other.  When one of them is empty it raises
    [ValueError]; otherwise it returns their LMIN and LMAX columns, and
    [lmax] is the largest LMAX of the four tables. *)
Theorem set_multipole_ranges_spec (tables : list (list (Z * Z))) :
  (4 ≤ length tables)%nat →
  Hillipop._set_multipole_ranges tables
  = Hillipop._set_multipole_ranges (take 4 tables) ∧
  (Exists (λ t, t = []) (take 4 tables) →
   Hillipop._set_multipole_ranges tables
   = raise (ValueError "max() arg is an empty sequence")) ∧
  (Forall (λ t, t ≠ []) (take 4 tables) →
   ∃ lmax,
     Hillipop._set_multipole_ranges tables
     = ok (map (map fst) (take 4 tables), map (map snd) (take 4 tables),
           lmax) ∧
     (∃ t lo, t ∈ take 4 tables ∧ (lo, lmax) ∈ t) ∧
     (∀ t lo hi, t ∈ take 4 tables → (lo, hi) ∈ t → hi ≤ lmax)).
Proof.
  intros Hlen.
  destruct tables as [|t0 [|t1 [|t2 [|t3 rest]]]]; simpl in Hlen; try lia.
  clear Hlen. cbn [take]. split; [done|].
  unfold Hillipop._set_multipole_ranges.
  change (mapM_r _ (range 4))
    with (ok (A := list (list Z * list Z))
             [(map fst t0, map snd t0); (map fst t1, map snd t1);
              (map fst t2, map snd t2); (map fst t3, map snd t3)]).
  rewrite bind_ok. cbn [map fst snd mapM_r]. split.
  - intros Hex.
    destruct t0 as [|p0 t0]; [done|].
    destruct (py_max_map_snd (p0 :: t0)) as (z0 & -> & _); [done|].
    rewrite bind_ok.
    destruct t1 as [|p1 t1]; [done|].
    destruct (py_max_map_snd (p1 :: t1)) as (z1 & -> & _); [done|].
    rewrite bind_ok.
    destruct t2 as [|p2 t2]; [done|].
    destruct (py_max_map_snd (p2 :: t2)) as (z2 & -> & _); [done|].
    rewrite bind_ok.
    destruct t3 as [|p3 t3]; [done|].
    exfalso. repeat (apply Exists_cons in Hex as [Hex|Hex]; [discriminate|]).
    by apply Exists_nil in Hex.
  - intros Hall.
    apply Forall_cons in Hall as [H0 Hall].
    apply Forall_cons in Hall as [H1 Hall].
    apply Forall_cons in Hall as [H2 Hall].
    apply Forall_cons in Hall as [H3 _].
    destruct (py_max_map_snd t0 H0) as (z0 & -> & [lo0 Hin0] & Hle0).
    destruct (py_max_map_snd t1 H1) as (z1 & -> & [lo1 Hin1] & Hle1).
    destruct (py_max_map_snd t2 H2) as (z2 & -> & [lo2 Hin2] & Hle2).
    destruct (py_max_map_snd t3 H3) as (z3 & -> & [lo3 Hin3] & Hle3).
    rewrite !bind_ok. cbn [py_max foldr]. rewrite bind_ok.
    eexists. split; [reflexivity|]. split.
    + destruct (Z.max_spec z3 z0) as [[_ E30]|[_ E30]];
        destruct (Z.max_spec z2 (Z.max z3 z0)) as [[_ E2]|[_ E2]];
        destruct (Z.max_spec z1 (Z.max z2 (Z.max z3 z0))) as [[_ E1]|[_ E1]];
        rewrite E1; try rewrite E2; try rewrite E30;
        first [ by exists t0, lo0; split; [set_solver|]
              | by exists t1, lo1; split; [set_solver|]
              | by exists t2, lo2; split; [set_solver|]
              | by exists t3, lo3; split; [set_solver|] ].
    + intros t lo hi Ht Hin.
      repeat (apply elem_of_cons in Ht as [->|Ht]);
        [apply Hle0 in Hin|apply Hle1 in Hin|apply Hle2 in Hin
        |apply Hle3 in Hin|by apply elem_of_nil in Ht]; lia.
Qed.

Lemma set_multipole_ranges_spec_witness :
  Hillipop._set_multipole_ranges
    [[(2, 30)]; [(2, 20)]; [(2, 50)]; [(2, 40)]; [(2, 90)]]
  = Hillipop._set_multipole_ranges
      (take 4 [[(2, 30)]; [(2, 20)]; [(2, 50)]; [(2, 40)]; [(2, 90)]]).
Proof.
  apply (set_multipole_ranges_spec
           [[(2, 30)]; [(2, 20)]; [(2, 50)]; [(2, 40)]; [(2, 90)]]).
  simpl. lia.
Defined.

(** ** The likelihood on well-formed inputs *)

Lemma mapM_r_is_ok {A B : Type} (f : A → result B) (xs : list A) :
  (∀ x, x ∈ xs → is_ok (f x)) → is_ok (mapM_r f xs).
Proof.
  induction xs as [|x xs IH]; intros H; [by eexists|]. simpl.
  destruct (H x) as [y ->]; [left|]. rewrite bind_ok.
  destruct IH as [ys ->]; [intros z Hz; apply H; by right|].
  rewrite bind_ok. by eexists.
Qed.

Lemma py_slice_length {A : Type} (r : list A) (a z : Z) :
  0 ≤ a → a ≤ z → z < Z.of_nat (length r) →
  Z.of_nat (length (py_slice r a (z + 1))) = z - a + 1.
Proof.
  intros ? ? ?. unfold py_slice. rewrite !slice_bound_in by lia.
  rewrite length_take, length_drop. lia.
Qed.

Lemma select_ok (st : Hillipop.t) (cl : list (list Qc)) (mode : nat)
  (xfs : list nat) (terms : list Z) :
  ranges_valid st mode →
  (∀ m hi i z, Hillipop.lmaxs st !! m = Some hi → hi !! i = Some z →
               z ≤ Hillipop.lmax st) →
  shape2 cl (Hillipop.nxfreq st) (Z.to_nat (Hillipop.lmax st + 1)) →
  Forall2 (counts_entry st mode) xfs terms →
  Forall (λ xf, (xf < Hillipop.nxfreq st)%nat) xfs →
  ∀ xl, ∃ out,
    foldM (Hillipop.select_step st cl mode) xl xfs = ok (xl ++ out) ∧
    Z.of_nat (length out) = foldr Z.add 0 terms.
Proof.
  intros Hvalid Hmax Hcl H. induction H as [|xf term xfs terms Hterm _ IH];
    intros Hlt xl.
  - exists []. simpl. by rewrite app_nil_r.
  - apply Forall_cons in Hlt as [Hxf Hlt].
    destruct Hterm as (i & lmin & lmax & Hfirst & Hlo & Hhi & ->).
    pose proof (Hvalid i lmin lmax Hlo Hhi) as Hrange.
    apply table_entry_inv in Hlo as (lo & Hlo & Hlmin).
    apply table_entry_inv in Hhi as (hi & Hhi & Hlmax).
    pose proof (Hmax _ _ _ _ Hhi Hlmax) as Hle.
    apply list_index_ok in Hfirst.
    destruct (shape2_lookup _ _ _ _ Hcl Hxf) as (r & Hr & Hrlen).
    cbn [foldM].
    match goal with
    | |- ∃ _, (?step ≫= _) = _ ∧ _ =>
        assert (step = ok (xl ++ py_slice r lmin (lmax + 1))) as ->
    end.
    { unfold Hillipop.select_step.
      rewrite (py_index_lookup _ _ _ Hlo), (py_index_lookup _ _ _ Hhi),
        Hfirst, !bind_ok.
      rewrite (py_index_lookup _ _ _ Hlmin), !bind_ok.
      rewrite (py_index_lookup _ _ _ Hlmax), !bind_ok.
      by rewrite (py_index_lookup _ _ _ Hr), !bind_ok. }
    rewrite bind_ok.
    destruct (IH Hlt (xl ++ py_slice r lmin (lmax + 1)))
      as (out & -> & Hlen).
    exists (py_slice r lmin (lmax + 1) ++ out).
    split; [by rewrite app_assoc|].
    rewrite length_app, Nat2Z.inj_add, py_slice_length by lia.
    simpl. lia.
Qed.

(** X15: on an engine that was constructed, for a mode whose table holds
    ranges of multipoles and an array with one row per cross-frequency over
    the multipoles 0..lmax, [_select_spectra] returns a vector that has as
    many entries as [_read_invcovmatrix] counts for the table of that
    mode. *)
Theorem select_spectra_dimension nmap tt ee te et freq_values tables xspectra
  xerrors covmat fgs (st : Hillipop.t) (cl : list (list Qc)) (mode : nat)
  (n : Z) :
  Hillipop.__init__ nmap tt ee te et freq_values tables xspectra xerrors covmat
    fgs = ok st →
  ranges_valid st mode →
  shape2 cl (Hillipop.nxfreq st) (Z.to_nat (Hillipop.lmax st + 1)) →
  Hillipop.count_mode st mode = ok n →
  ∃ xl, Hillipop._select_spectra st cl mode = ok xl ∧
        Z.of_nat (length xl) = n.
Proof.
  intros Hinit Hvalid Hcl Hcount.
  apply init_inv in Hinit as (_ & _ & _ & _ & _ & Hal & Hmax & _ & _).
  apply count_mode_inv in Hcount as (terms & -> & Hterms); [|done].
  destruct (select_ok st cl mode (range (Hillipop.nxfreq st)) terms Hvalid
              Hmax Hcl Hterms) with (xl := @nil Qc) as (xl & Hxl & Hlen).
  { apply Forall_forall. intros xf Hxf%list_elem_of_In%in_seq. lia. }
  exists xl. by split.
Qed.

Lemma select_spectra_dimension_witness :
  ∃ st, two_maps true false = ok st ∧
    ∃ xl, Hillipop._select_spectra st [[Qc_of_Z 7; Qc_of_Z 8; Qc_of_Z 9]] 0
          = ok xl ∧
          Z.of_nat (length xl) = 1.
Proof.
  eexists. split; [reflexivity|].
  refine (select_spectra_dimension 2 true false false false [100; 100]
            (replicate 4 [(2, 2)])
            (replicate 5 [[0; 0; Qc_of_Z 4]])%Qc
            (replicate 5 [[0; 0; 1]])%Qc
            [Qc_of_Z (10 ^ 24)] [] _ _ 0%nat 1 _ _ _ _).
  - reflexivity.
  - intros [|i] lmin lmax; [|discriminate]. intros [= <-] [= <-]. lia.
  - split; [reflexivity | repeat constructor].
  - reflexivity.
Defined.

Lemma to_dl_ok (st : Hillipop.t) (cl_boltz : list (list Qc)) :
  theory_wf st cl_boltz →
  ∃ dlth t0, Hillipop.to_dl st cl_boltz = ok dlth ∧
             dlth !! 0%nat = Some t0 ∧
             length t0 = Z.to_nat (Hillipop.lmax st + 1).
Proof.
  intros [Hne Hrows].
  assert (is_ok (Hillipop.to_dl st cl_boltz)) as [dlth Hdl].
  { unfold Hillipop.to_dl. destruct cl_boltz as [|r0 rs]; [done|].
    apply mapM_r_is_ok. intros r Hr. apply mapM_r_is_ok. intros l Hl.
    apply list_elem_of_In, in_seq in Hl.
    eapply Forall_forall in Hrows; [|exact Hr].
    destruct (lookup_lt_is_Some_2 r l) as [x Hx]; [lia|].
    rewrite (py_index_lookup _ _ _ Hx), bind_ok. by eexists. }
  pose proof (to_dl_shape _ _ _ Hdl) as Hshape.
  destruct dlth as [|t0 dlth].
  { unfold Hillipop.to_dl in Hdl. destruct cl_boltz as [|r0 rs]; [done|].
    apply mapM_r_ok_length in Hdl. discriminate. }
  exists (t0 :: dlth), t0. split; [done|]. split; [done|].
  by apply Forall_cons in Hshape as [? _].
Qed.

Lemma cal_likelihood_ok (st : Hillipop.t) (pars : gmap string Qc) :
  params_complete st pars →
  ∃ cal, Hillipop.cal_likelihood st pars = ok cal ∧
         length cal = length (loop_pairs 1 (Hillipop.nmap st)).
Proof.
  intros [[A HA] Hc]. eexists. split.
  - apply (cal_likelihood_spec st pars A
             (λ m, default 0%Qc (pars !! Hillipop.cname m)) HA).
    intros m Hm. by destruct (Hc m Hm) as [c ->].
  - by rewrite length_map.
Qed.

Lemma cal_residuals_ok (st : Hillipop.t) (pars : gmap string Qc) :
  params_complete st pars →
  ∃ cal, Hillipop.cal_residuals st pars = ok cal ∧
         length cal = length (loop_pairs 1 (Hillipop.nmap st)).
Proof.
  intros [[A HA] Hc]. eexists. split.
  - apply (cal_residuals_spec st pars A
             (λ m, default 0%Qc (pars !! Hillipop.cname m)) HA).
    intros m Hm. by destruct (Hc m Hm) as [c ->].
  - by rewrite length_map.
Qed.

(** X16: on an engine constructed with TT as its only mode, whose TT table
    holds ranges of multipoles and whose data and weights have one spectrum
    over 0..lmax per cross-spectrum, [_compute_residuals] and
    [compute_likelihood] return whenever the nuisance parameters are all
    given, the theory spectra reach [lmax] and every foreground model
    returns an array with one spectrum over 0..lmax per cross-spectrum; the
    residuals have one row per cross-frequency. *)
Theorem compute_likelihood_returns (nmap : nat) (freq_values : list Z)
  (tables : list (list (Z * Z))) (xspectra xerrors : list (list (list Qc)))
  (covmat : list Qc) (fgs : list Hillipop.foreground) (st : Hillipop.t)
  (pars : gmap string Qc) (cl_boltz : list (list Qc)) :
  Hillipop.__init__ nmap true false false false freq_values tables xspectra
    xerrors covmat fgs = ok st →
  ranges_valid st 0 →
  weights_wf st →
  data_wf st →
  params_complete st pars →
  theory_wf st cl_boltz →
  foregrounds_wf st pars →
  (∃ Rl, Hillipop._compute_residuals st pars cl_boltz = ok Rl ∧
         shape2 Rl (Hillipop.nxfreq st) (Z.to_nat (Hillipop.lmax st + 1))) ∧
  is_ok (Hillipop.compute_likelihood st pars cl_boltz).
Proof.
  intros Hinit Hvalid (w0 & Hw0 & Hw) (d0 & Hd0 & Hd) Hpars Hth [F Hfg].
  apply init_inv in Hinit
    as (Hnmap & (HTT & HEE & HTE & HET) & _ & Hnx & Hmaps & Hal & Hmax
        & (lo & hi & z & Hlo & Hhi & Hz) & Hcov).
  assert (0 ≤ Hillipop.lmax st) as Hlmax.
  { assert (is_Some (lo !! 0%nat)) as [a Ha].
    { apply lookup_lt_is_Some. rewrite (Hal _ _ _ Hlo Hhi).
      by eapply lookup_lt_Some. }
    pose proof (Hvalid 0%nat a z) as Hr. unfold table_entry in Hr.
    rewrite Hlo, Hhi in Hr. specialize (Hr Ha Hz).
    pose proof (Hmax _ _ _ _ Hhi Hz). lia. }
  destruct (to_dl_ok st cl_boltz Hth) as (dlth & t0 & Hdl & Ht0 & Hlen).
  rewrite <- Hnmap in Hnx.
  split.
  - destruct (cal_residuals_ok st pars Hpars) as (cal & Hcal & Hclen).
    destruct (tt_residuals_spec st pars cal dlth t0 d0 w0 F)
      as (Rl & HRl & Hshape & _); [done|lia|done..|congruence|].
    exists Rl. split; [|done].
    unfold Hillipop._compute_residuals.
    by rewrite Hdl, bind_ok, Hcal, bind_ok, HTT.
  - destruct (cal_likelihood_ok st pars Hpars) as (cal & Hcal & Hclen).
    destruct (tt_residuals_spec st pars cal dlth t0 d0 w0 F)
      as (Rl & HRl & Hshape & _); [done|lia|done..|congruence|].
    apply read_invcovmatrix_inv in Hcov as [Hcount Hsq].
    rewrite count_dim_spec in Hcount. unfold active_tables in Hcount.
    rewrite HTT, HEE, HTE, HET in Hcount. simpl in Hcount. inv_bind Hcount.
    inv_bind Hx. subst x.
    apply count_mode_inv in Hx0 as (terms & -> & Hterms); [|done].
    simpl in Hcount.
    destruct (select_ok st Rl 0 (range (Hillipop.nxfreq st)) terms Hvalid Hmax
                Hshape Hterms) with (xl := @nil Qc) as (Xl & HXl & HXlen).
    { apply Forall_forall. intros xf Hxf%list_elem_of_In%in_seq. lia. }
    unfold Hillipop.compute_likelihood.
    rewrite Hdl, bind_ok, Hcal, bind_ok, HTT, HRl, bind_ok.
    unfold Hillipop._select_spectra. rewrite HXl, bind_ok. simpl.
    unfold vec_mat. rewrite decide_True by lia. rewrite bind_ok.
    unfold vec_dot. rewrite decide_True.
    + by eexists.
    + rewrite length_map. unfold range. rewrite length_seq. lia.
Qed.

Lemma compute_likelihood_returns_witness :
  ∃ st, two_maps_fg true false = ok st ∧
    (∃ Rl, Hillipop._compute_residuals st pars_offsets (theory_dl2 1)
           = ok Rl ∧
           shape2 Rl (Hillipop.nxfreq st)
                  (Z.to_nat (Hillipop.lmax st + 1))) ∧
    is_ok (Hillipop.compute_likelihood st pars_offsets (theory_dl2 1)).
Proof.
  eexists. split; [reflexivity|].
  refine (compute_likelihood_returns 2 [100; 100] (replicate 4 [(2, 2)])
            (replicate 5 [[0; 0; Qc_of_Z 4]])%Qc
            (replicate 5 [[0; 0; 1]])%Qc [Qc_of_Z (10 ^ 24)]
            [Hillipop.Foreground (λ _, ok [[0; 0; 0]]%Qc)]
            _ pars_offsets (theory_dl2 1) _ _ _ _ _ _ _).
  - reflexivity.
  - intros [|i] lmin lmax; [|discriminate]. intros [= <-] [= <-]. lia.
  - eexists. split; [reflexivity|]. split; [reflexivity | repeat constructor].
  - eexists. split; [reflexivity|]. split; [reflexivity | repeat constructor].
  - split; [by eexists|]. intros [|[|m]] Hm; [by eexists|by eexists|].
    simpl in Hm. lia.
  - split; [discriminate|]. repeat constructor.
  - eexists. repeat constructor.
Defined.

(** ** Reading the spectra and their errors *)

Lemma scatter_fold (n : nat) (rows : list (Z * Qc)) :
  Forall (λ r, 0 ≤ r.1 < Z.of_nat n) rows →
  ∀ acc, length acc = n →
  ∃ out, foldM (scatter_step n) acc rows = ok out ∧ length out = n ∧
         ∀ l, (l < n)%nat →
           out !! l
           = Some (match last (map snd (filter (λ r, r.1 = Z.of_nat l) rows))
                   with
                   | Some v => v
                   | None => default 0%Qc (acc !! l)
                   end).
Proof.
  induction rows as [|[i v] rows IH]; intros Hrows acc Hacc.
  - exists acc. split; [done|]. split; [done|]. intros l Hl. simpl.
    destruct (lookup_lt_is_Some_2 acc l) as [x ->]; [lia|]. done.
  - apply Forall_cons in Hrows as [Hi Hrows]. simpl in Hi.
    cbn [foldM].
    assert (scatter_step n acc (i, v) = ok (<[Z.to_nat i := v]> acc)) as ->.
    { unfold scatter_step. cbn [fst snd].
      destruct (Z.leb_spec (- Z.of_nat n) i); [|lia].
      destruct (Z.ltb_spec i (Z.of_nat n)); [|lia].
      destruct (Z.ltb_spec i 0); [lia|]. done. }
    rewrite bind_ok.
    destruct (IH Hrows (<[Z.to_nat i := v]> acc)) as (out & -> & Hlen & Hout).
    { by rewrite length_insert. }
    exists out. split; [done|]. split; [done|]. intros l Hl.
    rewrite (Hout l Hl). f_equal. rewrite filter_cons. cbn [fst].
    destruct (decide (i = Z.of_nat l)) as [->|Hne].
    + cbn [map snd]. rewrite last_cons.
      destruct (last (map snd (filter (λ r, r.1 = Z.of_nat l) rows)));
        [done|].
      rewrite Nat2Z.id, list_lookup_insert_eq by lia. done.
    + destruct (last (map snd (filter (λ r, r.1 = Z.of_nat l) rows)));
        [done|].
      rewrite list_lookup_insert_ne by lia. done.
Qed.

Lemma zip_map_fst_snd {A B : Type} (l : list (A * B)) :
  zip (map fst l) (map snd l) = l.
Proof. induction l as [|[a b] l IH]; [done|]. simpl. by rewrite IH. Qed.

(** The array that [scatter] builds from rows with non-negative [ell]. *)
Lemma scatter_ok (rows : list (Z * Qc)) :
  rows ≠ [] → Forall (λ r, 0 ≤ r.1) rows →
  ∃ m datacl,
    py_max (map fst rows) = ok m ∧ 0 ≤ m ∧
    scatter (map fst rows) (map snd rows) = ok datacl ∧
    Z.of_nat (length datacl) = m + 1 ∧
    ∀ l, (l < length datacl)%nat →
         datacl !! l = Some (last_at rows (Z.of_nat l)).
Proof.
  intros Hne Hpos.
  destruct (py_max_nonempty (map fst rows)) as [m Hm]; [by destruct rows|].
  pose proof (py_max_spec _ _ Hm) as [Hin Hmax].
  assert (0 ≤ m) as Hm0.
  { apply list_elem_of_fmap in Hin as (r & -> & Hr).
    by eapply Forall_forall in Hpos. }
  unfold scatter. rewrite Hm, bind_ok. unfold np_zeros1.
  destruct (Z.ltb_spec (m + 1) 0); [lia|]. rewrite bind_ok.
  rewrite length_replicate, zip_map_fst_snd.
  destruct (scatter_fold (Z.to_nat (m + 1)) rows) with
    (acc := replicate (Z.to_nat (m + 1)) 0%Qc) as (out & Hout & Hlen & Hval).
  { apply Forall_forall. intros r Hr. split.
    - by eapply Forall_forall in Hpos.
    - eapply Forall_forall in Hmax; [|apply list_elem_of_fmap; by exists r].
      simpl in Hmax. lia. }
  { apply length_replicate. }
  exists m, out. split; [done|]. split; [done|]. split; [done|].
  split; [lia|]. intros l Hl. rewrite Hval by lia. f_equal.
  unfold last_at.
  destruct (last (map snd (filter (λ r, r.1 = Z.of_nat l) rows))); [done|].
  rewrite lookup_replicate_2 by lia. done.
Qed.

Lemma last_at_scale (c : Qc) (sel : Z * Qc * Qc → Qc)
  (data : list (Z * Qc * Qc)) (l : Z) :
  last_at (map (λ r, (r.1.1, (sel r * c)%Qc)) data) l
  = (last_at (map (λ r, (r.1.1, sel r)) data) l * c)%Qc.
Proof.
  unfold last_at. induction data as [|r data IH] using rev_ind; [simpl; ring|].
  rewrite !map_app, !filter_app, !map_app. cbn [map].
  rewrite !filter_cons, !filter_nil. cbn [fst].
  destruct (decide (r.1.1 = l)) as [_|_].
  - cbn [map snd]. by rewrite !last_snoc.
  - cbn [map]. by rewrite !app_nil_r.
Qed.

Lemma py_slice_prefix {A : Type} (l : list A) (stop : Z) :
  0 ≤ stop → py_slice l 0 stop = take (Z.to_nat stop) l.
Proof.
  intros H. unfold py_slice, slice_bound. simpl.
  destruct (Z.ltb_spec stop 0); [lia|].
  rewrite Nat.sub_0_r, drop_0.
  destruct (decide (Z.to_nat stop ≤ length l)%nat).
  - by rewrite Nat.min_l.
  - rewrite Nat.min_r by lia. by rewrite !take_ge by lia.
Qed.

Lemma map_fst_fields (sel : Z * Qc * Qc → Qc) (data : list (Z * Qc * Qc)) :
  map fst (map (λ r, (r.1.1, sel r)) data) = map (λ r, r.1.1) data ∧
  map snd (map (λ r, (r.1.1, sel r)) data) = map sel data.
Proof. by rewrite !map_map. Qed.

(** X17: for a table with at least one row and no negative [ell], and
    lmax >= -1, the spectrum that [_read_dl_xspectra] reads from the table
    covers the multipoles up to the smaller of lmax and the largest [ell]
    of the table; at every multipole it holds 10^12 times the field-1 value
    of the last row with that [ell], and zero when no row has it. *)
Theorem xspectra_column_spec (lmax : Z) (data : list (Z * Qc * Qc)) :
  data ≠ [] → Forall (λ r, 0 ≤ r.1.1) data → 0 ≤ lmax + 1 →
  ∃ m row,
    py_max (map (λ r, r.1.1) data) = ok m ∧
    Hillipop.xspectra_column lmax data = ok row ∧
    Z.of_nat (length row) = Z.min (m + 1) (lmax + 1) ∧
    ∀ l, (l < length row)%nat →
      row !! l
      = Some (last_at (field1 data) (Z.of_nat l) * Qc_of_Z (10 ^ 12))%Qc.
Proof.
  intros Hne Hpos Hlmax.
  pose (rows := map (λ r : Z * Qc * Qc,
                       (r.1.1, (r.1.2 * Qc_of_Z (10 ^ 12))%Qc)) data).
  destruct (scatter_ok rows) as (m & datacl & Hm & Hm0 & Hsc & Hlen & Hval).
  { by destruct data. }
  { unfold rows. apply Forall_fmap. eapply Forall_impl; [exact Hpos|]. done. }
  destruct (map_fst_fields (λ r, (r.1.2 * Qc_of_Z (10 ^ 12))%Qc) data)
    as [Hf Hs].
  fold rows in Hf, Hs. rewrite Hf in Hm. rewrite Hf, Hs in Hsc.
  exists m, (take (Z.to_nat (lmax + 1)) datacl). split; [done|]. split.
  - unfold Hillipop.xspectra_column. rewrite Hsc, bind_ok.
    by rewrite py_slice_prefix.
  - split; [rewrite length_take; lia|]. intros l Hl.
    rewrite length_take in Hl. rewrite lookup_take_lt by lia.
    rewrite Hval by lia. f_equal. unfold rows, field1.
    apply (last_at_scale (Qc_of_Z (10 ^ 12)) (λ r, r.1.2)).
Qed.

Lemma xspectra_column_spec_witness :
  ∃ m row,
    py_max (map (λ r : Z * Qc * Qc, r.1.1) example_table)
    = ok m ∧
    Hillipop.xspectra_column 2 example_table = ok row ∧
    Z.of_nat (length row) = Z.min (m + 1) (2 + 1) ∧
    ∀ l, (l < length row)%nat →
      row !! l
      = Some (last_at (field1 example_table)
                      (Z.of_nat l) * Qc_of_Z (10 ^ 12))%Qc.
Proof.
  apply xspectra_column_spec.
  - discriminate.
  - repeat constructor; simpl; lia.
  - lia.
Defined.

Lemma Qc_square_nonneg (x : Qc) : (0 ≤ x * x)%Qc.
Proof.
  destruct (Qclt_le_dec x 0) as [Hneg|Hpos].
  - replace (x * x)%Qc with ((- x) * (- x))%Qc by ring.
    assert (0 ≤ - x)%Qc.
    { apply Qclt_le_weak, Qcopp_le_compat in Hneg.
      by replace (- 0)%Qc with 0%Qc in Hneg by ring. }
    by apply Qcmult_nonneg_nonneg.
  - by apply Qcmult_nonneg_nonneg.
Qed.

Lemma inverse_variance_nonneg (sigma : Qc) : (0 ≤ inverse_variance sigma)%Qc.
Proof.
  unfold inverse_variance. destruct (decide (sigma = 0%Qc)); [done|].
  replace (1 / (sigma * Qc_of_Z (10 ^ 12) * (sigma * Qc_of_Z (10 ^ 12))))%Qc
    with (/ (sigma * Qc_of_Z (10 ^ 12)) * / (sigma * Qc_of_Z (10 ^ 12)))%Qc.
  - apply Qc_square_nonneg.
  - field. split; [discriminate|done].
Qed.

Lemma inverse_variance_xdiv (x : Qc) :
  xdiv 1 (xsquare (zero_to_inf (x * Qc_of_Z (10 ^ 12))))
  = ok (inverse_variance x).
Proof.
  unfold zero_to_inf, inverse_variance.
  destruct (decide (x = 0%Qc)) as [->|Hx].
  - rewrite decide_True by ring. done.
  - rewrite decide_False.
    + cbn [xsquare xdiv]. rewrite decide_False; [done|].
      intros H. apply Qcmult_integral in H as [H|H];
        apply Qcmult_integral in H as [H|H]; done.
    + intros H. apply Qcmult_integral in H as [H|H]; [done|discriminate].
Qed.

Lemma inverse_variance_rows (xs : list Qc) :
  mapM_r (λ d, xdiv 1 (xsquare d))
         (map (λ x, zero_to_inf (x * Qc_of_Z (10 ^ 12))) xs)
  = ok (map inverse_variance xs).
Proof.
  induction xs as [|x xs IH]; [done|]. cbn [map mapM_r].
  by rewrite inverse_variance_xdiv, bind_ok, IH, bind_ok.
Qed.

(** X18: for a table with at least one row and no negative [ell], and
    lmax >= -1, the weights that [_read_dl_xerrors] reads from the table
    cover the multipoles up to the smaller of lmax and the largest [ell];
    the weight of a multipole is 1/(sigma 10^12)^2 for the field-2 value
    sigma of the last row with that [ell], and zero when sigma is zero or
    no row has that [ell]; no weight is negative. *)
Theorem xerrors_column_spec (lmax : Z) (data : list (Z * Qc * Qc)) :
  data ≠ [] → Forall (λ r, 0 ≤ r.1.1) data → 0 ≤ lmax + 1 →
  ∃ m row,
    py_max (map (λ r, r.1.1) data) = ok m ∧
    Hillipop.xerrors_column lmax data = ok row ∧
    Z.of_nat (length row) = Z.min (m + 1) (lmax + 1) ∧
    (∀ l, (l < length row)%nat →
       row !! l
       = Some (inverse_variance (last_at (field2 data) (Z.of_nat l)))) ∧
    Forall (λ w, (0 ≤ w)%Qc) row.
Proof.
  intros Hne Hpos Hlmax.
  pose (rows := map (λ r : Z * Qc * Qc,
                       (r.1.1, (r.2 * Qc_of_Z (10 ^ 12))%Qc)) data).
  destruct (scatter_ok rows) as (m & datacl & Hm & Hm0 & Hsc & Hlen & Hval).
  { by destruct data. }
  { unfold rows. apply Forall_fmap. eapply Forall_impl; [exact Hpos|]. done. }
  destruct (map_fst_fields (λ r, (r.2 * Qc_of_Z (10 ^ 12))%Qc) data)
    as [Hf Hs].
  fold rows in Hf, Hs. rewrite Hf in Hm. rewrite Hf, Hs in Hsc.
  pose (k := (length datacl `min` Z.to_nat (lmax + 1))%nat).
  pose (xs := map (λ l : nat, last_at (field2 data) (Z.of_nat l)) (range k)).
  assert (length xs = k) as Hxs
    by (unfold xs, range; by rewrite length_map, length_seq).
  assert (Hcut : take (Z.to_nat (lmax + 1)) (map zero_to_inf datacl)
                 = map (λ x, zero_to_inf (x * Qc_of_Z (10 ^ 12))) xs).
  { apply list_eq. intros l. destruct (decide (l < k)%nat) as [Hl|Hl].
    - rewrite lookup_take_lt by (unfold k in Hl; lia).
      unfold xs, range.
      rewrite !list_lookup_fmap, lookup_seq_lt by done.
      rewrite Hval by (unfold k in Hl; lia).
      cbn [fmap option_fmap option_map]. do 2 f_equal. unfold rows.
      apply (last_at_scale (Qc_of_Z (10 ^ 12)) (λ r, r.2)).
    - rewrite !lookup_ge_None_2; [done| |].
      + rewrite length_map. lia.
      + rewrite length_take, length_map. unfold k in Hl. lia. }
  exists m, (map inverse_variance xs). split; [done|]. split.
  - unfold Hillipop.xerrors_column. rewrite Hsc, bind_ok. cbv zeta.
    rewrite py_slice_prefix by done. rewrite Hcut.
    apply inverse_variance_rows.
  - rewrite length_map, Hxs.
    split; [unfold k; lia|]. split.
    + intros l Hl. unfold xs, range.
      rewrite !list_lookup_fmap, lookup_seq_lt by done. done.
    + apply Forall_fmap, Forall_forall. intros x _.
      apply inverse_variance_nonneg.
Qed.

Lemma xerrors_column_spec_witness :
  ∃ m row,
    py_max (map (λ r : Z * Qc * Qc, r.1.1) example_table)
    = ok m ∧
    Hillipop.xerrors_column 5 example_table = ok row ∧
    Z.of_nat (length row) = Z.min (m + 1) (5 + 1) ∧
    (∀ l, (l < length row)%nat →
       row !! l
       = Some (inverse_variance
                 (last_at (field2 example_table)
                          (Z.of_nat l)))) ∧
    Forall (λ w, (0 ≤ w)%Qc) row.
Proof.
  apply xerrors_column_spec.
  - discriminate.
  - repeat constructor; simpl; lia.
  - lia.
Defined.

(** ** Reading the spectra and their errors: the layout *)

Lemma read_hdus_inv {A : Type} (f : nat → result A) (x : list A) :
  mapM_r f [1; 2; 3; 4; 4]%nat = ok x →
  ∃ c1 c2 c3 c4, x = [c1; c2; c3; c4; c4] ∧
    f 1%nat = ok c1 ∧ f 2%nat = ok c2 ∧ f 3%nat = ok c3 ∧ f 4%nat = ok c4.
Proof.
  intros H. cbn [mapM_r] in H.
  destruct (f 1%nat) as [e|c1]; [discriminate|]. rewrite bind_ok in H.
  destruct (f 2%nat) as [e|c2]; [discriminate|]. rewrite bind_ok in H.
  destruct (f 3%nat) as [e|c3]; [discriminate|]. rewrite bind_ok in H.
  destruct (f 4%nat) as [e|c4]; [discriminate|]. rewrite !bind_ok in H.
  injection H as <-. by exists c1, c2, c3, c4.
Qed.

Lemma transpose_102_inv (d out : list (list (list Qc))) :
  transpose_102 d = ok out →
  ∃ k L, d ≠ [] ∧ (0 < k)%nat ∧
    Forall (λ x, length x = k ∧ Forall (λ y : list Qc, length y = L) x) d ∧
    out = map (λ i, map (λ x : list (list Qc), default [] (x !! i)) d)
              (range k).
Proof.
  unfold transpose_102. intros H.
  destruct d as [|[|r t] d']; [discriminate|discriminate|].
  destruct (forallb _ _) eqn:Hall; [|discriminate].
  injection H as <-.
  exists (length (r :: t)), (length r). split; [done|].
  split; [simpl; lia|]. split; [|done].
  apply Forall_forall. intros x Hx.
  rewrite forallb_forall in Hall. apply list_elem_of_In in Hx.
  specialize (Hall x Hx). apply andb_prop in Hall as [H1 H2].
  split; [by apply Nat.eqb_eq in H1|].
  apply Forall_forall. intros y Hy. rewrite forallb_forall in H2.
  apply list_elem_of_In in Hy. specialize (H2 y Hy). by apply Nat.eqb_eq in H2.
Qed.

Lemma read_xpol_layout (column : Z → list (Z * Qc * Qc) → result (list Qc))
  (nmap : nat) (lmax : Z) (xpol : nat → nat → list (list (Z * Qc * Qc))) :
  xpol_layout column nmap lmax xpol
    (Hillipop.read_xpol column nmap lmax xpol).
Proof.
  split.
  - intros Hn. unfold Hillipop.read_xpol.
    assert (loop_pairs 1 nmap = []) as ->; [|done].
    destruct nmap as [|[|n]]; [done|done|lia].
  - intros out H. unfold Hillipop.read_xpol in H. inv_bind H.
    rename x into dldata.
    apply transpose_102_inv in H as (k & L & Hne & Hk & Hall & ->).
    apply mapM_r_Forall2 in Hx.
    (* every pair gives five spectra, the last two being the same *)
    assert (Hfive : Forall (λ x, ∃ c1 c2 c3 c4, x = [c1; c2; c3; c4; c4])
                           dldata).
    { apply Forall_forall. intros x Hin.
      apply list_elem_of_lookup in Hin as [i Hi].
      destruct (Forall2_lookup_r _ _ _ _ _ Hx Hi) as (m & _ & Hm).
      apply read_hdus_inv in Hm as (c1 & c2 & c3 & c4 & -> & _).
      by exists c1, c2, c3, c4. }
    assert (k = 5%nat) as ->.
    { destruct dldata as [|x dldata]; [done|].
      apply Forall_cons in Hall as [[Hlen _] _].
      apply Forall_cons in Hfive as [(c1 & c2 & c3 & c4 & ->) _]. done. }
    split; [by rewrite length_map|]. split.
    { cbn [range seq map lookup list_lookup]. f_equal.
      apply map_ext_in. intros x Hin. apply list_elem_of_In in Hin.
      eapply Forall_forall in Hfive; [|exact Hin].
      by destruct Hfive as (c1 & c2 & c3 & c4 & ->). }
    exists L. intros mode block Hblock.
    rewrite list_lookup_fmap in Hblock.
    destruct (range 5 !! mode) as [mode'|] eqn:Hmode; [|discriminate].
    injection Hblock as <-.
    unfold range in Hmode. apply lookup_seq in Hmode as [-> Hlt].
    cbn [Nat.add]. split.
    + split.
      * rewrite length_map. apply Forall2_length in Hx.
        by rewrite <- Hx, length_loop_pairs_1.
      * apply Forall_fmap, Forall_forall. intros x Hin.
        eapply Forall_forall in Hall; [|exact Hin].
        destruct Hall as [Hlen Hrows]. cbn [compose].
        destruct (lookup_lt_is_Some_2 x mode) as [row Hrow]; [lia|].
        rewrite Hrow. by eapply Forall_lookup_1 in Hrows.
    + apply Forall2_fmap_r. eapply Forall2_impl; [exact Hx|].
      intros m x Hm. cbn beta in Hm.
      apply read_hdus_inv in Hm as (c1 & c2 & c3 & c4 & -> & H1 & H2 & H3 & H4).
      inv_bind H1. inv_bind H2. inv_bind H3. inv_bind H4.
      apply py_index_ok in Hx0, Hx1, Hx2, Hx3.
      destruct mode as [|[|[|[|[|mode]]]]]; [| | | | |lia]; cbn.
      * by exists x.
      * by exists x0.
      * by exists x1.
      * by exists x2.
      * by exists x2.
Qed.

(** X19: [_read_dl_xspectra] and [_read_dl_xerrors] raise [ValueError] when
    there are fewer than two maps; an array that they return has the five
    blocks TT, EE, BB, TE, ET of one row per pair of maps, all of the same
    length, where the ET block is the TE block (both are read from the
    fourth table of the file) and every row is the spectrum, respectively
    the weights, read from the table of the mode in the file of the pair. *)
Theorem xpol_readers_layout (nmap : nat) (lmax : Z)
  (xpol : nat → nat → list (list (Z * Qc * Qc))) :
  xpol_layout Hillipop.xspectra_column nmap lmax xpol
    (Hillipop._read_dl_xspectra nmap lmax xpol) ∧
  xpol_layout Hillipop.xerrors_column nmap lmax xpol
    (Hillipop._read_dl_xerrors nmap lmax xpol).
Proof. split; apply read_xpol_layout. Qed.

(** ** Bins: the two binning operators *)

Lemma fold_left_snd {A B C : Type} (F : A * B → C → A * B) (f2 : B → C → B)
  (l : list C) (pq : A * B) :
  (∀ pq e, (F pq e).2 = f2 pq.2 e) →
  (fold_left F l pq).2 = fold_left f2 l pq.2.
Proof.
  intros HF. revert pq. induction l as [|e l IH]; intros pq; [done|].
  simpl. by rewrite IH, HF.
Qed.

Lemma ell2_lookup (Dl : bool) (n l : nat) :
  (l < n)%nat →
  (if Dl
   then map (λ l : nat, (Qc_of_Z (Z.of_nat l) * (Qc_of_Z (Z.of_nat l) + 1)
                         / (2 * np_pi))%Qc) (range n)
   else replicate n 1%Qc) !! l = Some (ell2_at Dl l).
Proof.
  intros Hl. unfold ell2_at. destruct Dl.
  - rewrite list_lookup_fmap. unfold range. by rewrite lookup_seq_lt.
  - by rewrite lookup_replicate_2.
Qed.

Lemma ell2_length (Dl : bool) (n : nat) :
  length (if Dl
          then map (λ l : nat, (Qc_of_Z (Z.of_nat l) * (Qc_of_Z (Z.of_nat l) + 1)
                                / (2 * np_pi))%Qc) (range n)
          else replicate n 1%Qc) = n.
Proof.
  destruct Dl; [|apply length_replicate].
  rewrite length_map. unfold range. apply length_seq.
Qed.

Lemma ell2_at_nonzero (Dl : bool) (l : nat) : (1 ≤ l)%nat → ell2_at Dl l ≠ 0%Qc.
Proof.
  intros Hl. unfold ell2_at. destruct Dl; [|discriminate].
  assert (Qc_of_Z (Z.of_nat l) ≠ 0%Qc) as H1.
  { rewrite <- Z2Qc_inj_0. intros E%Z2Qc_inj. lia. }
  assert ((Qc_of_Z (Z.of_nat l) + 1)%Qc ≠ 0%Qc) as H2.
  { rewrite <- Z2Qc_inj_1, <- Z2Qc_inj_add, <- Z2Qc_inj_0.
    intros E%Z2Qc_inj. lia. }
  assert (np_pi ≠ 0%Qc) as H3 by discriminate.
  intros E.
  assert ((Qc_of_Z (Z.of_nat l) * (Qc_of_Z (Z.of_nat l) + 1))%Qc = 0%Qc) as E'.
  { transitivity ((Qc_of_Z (Z.of_nat l) * (Qc_of_Z (Z.of_nat l) + 1)
                   / (2 * np_pi)) * (2 * np_pi))%Qc; [by field|].
    rewrite E. ring. }
  apply Qcmult_integral in E'. tauto.
Qed.

Lemma py_slice_lookup {A : Type} (l : list A) (a z : Z) (k : nat) :
  0 ≤ a → a ≤ z → z < Z.of_nat (length l) →
  (k < Z.to_nat (z - a + 1))%nat →
  py_slice l a (z + 1) !! k = l !! (Z.to_nat a + k)%nat.
Proof.
  intros Ha Haz Hz Hk. rewrite py_slice_take_drop by lia.
  rewrite lookup_take_lt by lia. by rewrite lookup_drop.
Qed.

(** Row [i] of [p]. *)
Lemma p_row_lookup (ell2 : list Qc) (f : nat → Qc) (n : nat) (a z : Z)
  (l : nat) :
  length ell2 = n → (∀ l, (l < n)%nat → ell2 !! l = Some (f l)) →
  0 ≤ a → a ≤ z → z < Z.of_nat n → (l < n)%nat →
  p_row_update ell2 (a, z) (replicate n 0%Qc) !! l
  = Some (if decide (a ≤ Z.of_nat l ≤ z)
          then (f l / Qc_of_Z (z - a + 1))%Qc else 0%Qc).
Proof.
  intros Hlen Hell Ha Haz Hz Hl. unfold p_row_update. cbn [fst snd].
  rewrite slice_assign_replicate by lia.
  destruct (decide (Z.of_nat l < a)) as [H1|H1].
  - rewrite lookup_app_l by (rewrite length_replicate; lia).
    rewrite lookup_replicate_2 by lia. by rewrite decide_False by lia.
  - rewrite lookup_app_r by (rewrite length_replicate; lia).
    rewrite length_replicate.
    assert (Hsl : length (py_slice ell2 a (z + 1)) = Z.to_nat (z - a + 1)).
    { apply Nat2Z.inj. rewrite py_slice_length by lia. lia. }
    destruct (decide (Z.of_nat l ≤ z)) as [H2|H2].
    + rewrite lookup_app_l by (rewrite length_map; lia).
      rewrite list_lookup_fmap, py_slice_lookup by lia.
      replace (Z.to_nat a + (l - Z.to_nat a))%nat with l by lia.
      rewrite Hell by done. by rewrite decide_True by lia.
    + rewrite lookup_app_r by (rewrite length_map; lia).
      rewrite length_map, lookup_replicate_2 by lia.
      by rewrite decide_False by lia.
Qed.

Lemma p_row_length (ell2 : list Qc) (n : nat) (a z : Z) :
  length ell2 = n → 0 ≤ a → a ≤ z → z < Z.of_nat n →
  length (p_row_update ell2 (a, z) (replicate n 0%Qc)) = n.
Proof.
  intros Hlen Ha Haz Hz. unfold p_row_update. cbn [fst snd].
  rewrite slice_assign_replicate by lia.
  rewrite !length_app, !length_replicate, length_map.
  assert (Z.of_nat (length (py_slice ell2 a (z + 1))) = z - a + 1)
    by (apply py_slice_length; lia).
  lia.
Qed.

(** One assignment [q[a:z+1, b] = vals]. *)
Lemma col_slice_assign_shape (q : list (list Qc)) (n m : nat) (a z : Z)
  (b : nat) (vals : list Qc) :
  shape2 q n m → shape2 (Bins.col_slice_assign q a (z + 1) b vals) n m.
Proof.
  intros [Hn Hm]. unfold Bins.col_slice_assign.
  split; [by rewrite length_imap|].
  apply Forall_lookup. intros k r Hr. rewrite list_lookup_imap in Hr.
  destruct (q !! k) as [r0|] eqn:Hk; [|discriminate]. simpl in Hr.
  eapply Forall_lookup_1 in Hm; [|exact Hk].
  case_bool_decide; injection Hr as <-; [by rewrite length_insert|done].
Qed.

Lemma col_slice_assign_entry (q : list (list Qc)) (n m : nat) (a z : Z)
  (b : nat) (vals : list Qc) (l j : nat) :
  shape2 q n m → (b < m)%nat → 0 ≤ a → a ≤ z → z < Z.of_nat n →
  (l < n)%nat →
  entry (Bins.col_slice_assign q a (z + 1) b vals) l j
  = if decide (j = b ∧ a ≤ Z.of_nat l ≤ z)
    then default 0%Qc (vals !! (l - Z.to_nat a)%nat)
    else entry q l j.
Proof.
  intros [Hn Hm] Hb Ha Haz Hz Hl. unfold Bins.col_slice_assign.
  rewrite Hn, !slice_bound_in by lia.
  unfold entry. rewrite list_lookup_imap.
  destruct (lookup_lt_is_Some_2 q l) as [r Hr]; [lia|]. rewrite Hr. simpl.
  eapply Forall_lookup_1 in Hm; [|exact Hr].
  case_bool_decide as Hin.
  - destruct (decide (j = b)) as [->|Hne].
    + rewrite list_lookup_insert_eq by lia.
      by rewrite decide_True by lia.
    + rewrite list_lookup_insert_ne by done.
      by rewrite decide_False by tauto.
  - by rewrite decide_False by lia.
Qed.

(** The columns of [q] after the loop over the bins. *)
Lemma fold_col_slice_assign (vals : Z * Z → list Qc) (n m : nat)
  (bins : list (Z * Z)) :
  (length bins ≤ m)%nat →
  Forall (λ az, 0 ≤ az.1 ∧ az.1 ≤ az.2 ∧ az.2 < Z.of_nat n) bins →
  let q := fold_left (λ q (e : nat * (Z * Z)),
                        Bins.col_slice_assign q e.2.1 (e.2.2 + 1) e.1
                          (vals e.2))
                     (enumerate bins) (replicate n (replicate m 0%Qc)) in
  shape2 q n m ∧
  ∀ l j, (l < n)%nat →
    entry q l j
    = match bins !! j with
      | Some (a, z) =>
          if decide (a ≤ Z.of_nat l ≤ z)
          then default 0%Qc (vals (a, z) !! (l - Z.to_nat a)%nat)
          else 0%Qc
      | None => 0%Qc
      end.
Proof.
  induction bins as [|[a z] bins IH] using rev_ind; intros Hlen Hall.
  - simpl. split; [apply shape2_replicate|]. intros l j Hl.
    apply entry_replicate.
  - rewrite length_app in Hlen. simpl in Hlen.
    apply Forall_app in Hall as [Hall Haz].
    apply Forall_cons in Haz as [(Ha & Haz & Hz) _]. simpl in Ha, Haz, Hz.
    destruct IH as [Hshape Hent]; [lia|done|].
    rewrite enumerate_snoc, fold_left_app. cbn [fold_left fst snd].
    split.
    + by apply col_slice_assign_shape.
    + intros l j Hl.
      rewrite (col_slice_assign_entry _ n m a z (length bins) (vals (a, z))
                 l j Hshape) by (done || lia).
      destruct (decide (j = length bins)) as [->|Hne].
      * rewrite lookup_app_r, Nat.sub_diag by lia. simpl.
        destruct (decide (a ≤ Z.of_nat l ≤ z)) as [Hin|Hout].
        -- by rewrite decide_True by done.
        -- rewrite decide_False by tauto. rewrite Hent by done.
           by rewrite lookup_ge_None_2 by lia.
      * rewrite decide_False by tauto. rewrite Hent by done.
        destruct (decide (j < length bins)%nat).
        -- by rewrite lookup_app_l by done.
        -- rewrite (lookup_ge_None_2 (bins ++ [(a, z)])),
             (lookup_ge_None_2 bins); [done|lia|].
           rewrite length_app. simpl. lia.
Qed.

Lemma fsum_pointwise (f : nat → Qc) (v w : list Qc) (n : nat) :
  length v = n → length w = n →
  (∀ l, (l < n)%nat →
        (default 0 (v !! l) * default 0 (w !! l) = f l)%Qc) →
  fsum (zip_with Qcmult v w) = fsum (map f (range n)).
Proof.
  revert f v w. induction n as [|n IH]; intros f v w Hv Hw Hf.
  - by destruct v, w.
  - destruct v as [|x v], w as [|y w]; try discriminate.
    simpl in Hv, Hw. unfold range. cbn [seq map zip_with].
    rewrite <- seq_shift, map_map.
    change (fsum (?a :: ?l)) with (a + fsum l)%Qc.
    rewrite (IH (λ l, f (S l)) v w); [|lia|lia|].
    + f_equal. apply (Hf 0%nat). lia.
    + intros l Hl. apply (Hf (S l)). lia.
Qed.

Lemma fsum_band (c : Qc) (a z : Z) (n : nat) :
  0 ≤ a → a ≤ z → z < Z.of_nat n →
  fsum (map (λ l : nat, if decide (a ≤ Z.of_nat l ≤ z) then c else 0%Qc)
            (range n))
  = (Qc_of_Z (z - a + 1) * c)%Qc.
Proof.
  intros Ha Haz Hz. unfold range.
  replace n with (Z.to_nat a + (Z.to_nat (z - a + 1) + (n - Z.to_nat (z + 1))))%nat
    by lia.
  rewrite !seq_app, !map_app, !fsum_app. cbn [Nat.add].
  rewrite (fsum_zeros (map _ (seq 0 (Z.to_nat a)))).
  2:{ apply Forall_fmap, Forall_forall. intros l Hl%list_elem_of_In%in_seq.
      simpl. by rewrite decide_False by lia. }
  rewrite (fsum_zeros (map _ (seq (Z.to_nat a + Z.to_nat (z - a + 1)) _))).
  2:{ apply Forall_fmap, Forall_forall. intros l Hl%list_elem_of_In%in_seq.
      simpl. by rewrite decide_False by lia. }
  assert (map (λ l : nat, if decide (a ≤ Z.of_nat l ≤ z) then c else 0%Qc)
              (seq (Z.to_nat a) (Z.to_nat (z - a + 1)))
          = replicate (Z.to_nat (z - a + 1)) c) as ->.
  { apply list_eq. intros k.
    destruct (decide (k < Z.to_nat (z - a + 1))%nat) as [Hk|Hk].
    - rewrite list_lookup_fmap, lookup_seq_lt, lookup_replicate_2 by done.
      simpl. by rewrite decide_True by lia.
    - rewrite !lookup_ge_None_2; [done| |].
      + rewrite length_replicate. lia.
      + rewrite length_map, length_seq. lia. }
  rewrite fsum_replicate, Z2Nat.id by lia. ring.
Qed.

(** X20: on every [Bins] object, the two operators that [_bin_operators]
    returns satisfy: the diagonal entries of the product [p q] are 1
    (1/dl of the bin with [cov]), and the entry of two bins that share no
    multipole is 0; so [p q] is the identity when the bins do not overlap. *)
Theorem bin_operators_product (b : Bins.t) (Dl cov : bool) (i j : nat)
  (ai zi aj zj : Z) :
  bins_instance b →
  zip (Bins.lmins b) (Bins.lmaxs b) !! i = Some (ai, zi) →
  zip (Bins.lmins b) (Bins.lmaxs b) !! j = Some (aj, zj) →
  let p := (Bins._bin_operators b Dl cov).1 in
  let q := (Bins._bin_operators b Dl cov).2 in
  (i = j →
   mat_mul_entry p q i j
   = if cov then (1 / Qc_of_Z (zi - ai + 1))%Qc else 1%Qc) ∧
  (zi < aj ∨ zj < ai → mat_mul_entry p q i j = 0%Qc).
Proof.
  intros Hb Hi Hj p q.
  pose proof (bins_instance_wf _ Hb) as Hwf.
  pose proof (bins_instance_quadrupole _ Hb) as Hquad.
  set (n := Z.to_nat (Bins.lmax b + 1)).
  set (ell2 := if Dl
      then map (λ l : nat, (Qc_of_Z (Z.of_nat l) * (Qc_of_Z (Z.of_nat l) + 1)
                            / (2 * np_pi))%Qc) (range n)
      else replicate n 1%Qc).
  assert (Hbins : Forall (λ az : Z * Z, 2 ≤ az.1 ∧ az.1 ≤ az.2
                                        ∧ az.2 < Z.of_nat n)
                         (zip (Bins.lmins b) (Bins.lmaxs b))).
  { apply Forall_lookup. intros k [a z] Hk.
    apply lookup_zip_with_Some in Hk as (a' & z' & [= <- <-] & Ha & Hz).
    simpl. split; [by eapply Forall_lookup_1 in Hquad|]. split.
    - pose proof (wf_ordered _ Hwf) as Hord.
      eapply Forall_lookup_1 in Hord;
        [|by rewrite lookup_zip_with, Ha; simpl; rewrite Hz].
      done.
    - pose proof (wf_lmax _ Hwf) as Hmax.
      eapply Forall_lookup_1 in Hmax; [|exact Hz]. simpl in Hmax.
      pose proof (wf_lmin_pos _ Hwf). pose proof (wf_range _ Hwf).
      unfold n. lia. }
  pose proof (Forall_lookup_1 _ _ _ _ Hbins Hi) as (Hai & Hazi & Hzi).
  pose proof (Forall_lookup_1 _ _ _ _ Hbins Hj) as (Haj & Hazj & Hzj).
  simpl in Hai, Hazi, Hzi, Haj, Hazj, Hzj.
  assert (Hnb : Bins.nbins b = length (zip (Bins.lmins b) (Bins.lmaxs b))).
  { rewrite length_zip_with, <- (wf_length _ Hwf), (wf_nbins _ Hwf). lia. }
  (* row i of p *)
  assert (Hp : rows p !! i
               = Some (p_row_update ell2 (ai, zi) (replicate n 0%Qc))).
  { unfold p. rewrite bin_operators_p_rows. cbn [rows]. fold n. fold ell2.
    rewrite (fold_alter_enumerate (λ az r, p_row_update ell2 az r)), Hi.
    rewrite lookup_replicate_2; [done|].
    rewrite Hnb. by eapply lookup_lt_Some. }
  (* the columns of q *)
  pose (vals := λ az : Z * Z,
          map (λ x, if cov then (1 / x / Qc_of_Z (az.2 - az.1 + 1))%Qc
                    else (1 / x)%Qc)
              (py_slice ell2 az.1 (az.2 + 1))).
  assert (Hq : rows q
               = fold_left (λ q (e : nat * (Z * Z)),
                              Bins.col_slice_assign q e.2.1 (e.2.2 + 1) e.1
                                (vals e.2))
                   (enumerate (zip (Bins.lmins b) (Bins.lmaxs b)))
                   (replicate n (replicate (Bins.nbins b) 0%Qc))).
  { unfold q, Bins._bin_operators. fold n. fold ell2.
    match goal with
    | |- rows (let '(_, _) := fold_left ?F ?l ?pq in _).2 = _ =>
        pose proof (fold_left_snd F
                     (λ q (e : nat * (Z * Z)),
                        Bins.col_slice_assign q e.2.1 (e.2.2 + 1) e.1
                          (vals e.2))
                     l pq) as E;
        destruct (fold_left F l pq) as [p' q']
    end.
    cbn [snd rows]. apply E.
    by intros [p'' q''] [k [a z]]. }
  destruct (fold_col_slice_assign vals n (Bins.nbins b)
              (zip (Bins.lmins b) (Bins.lmaxs b))) as [Hqshape Hqent].
  { lia. }
  { eapply Forall_impl; [exact Hbins|]. simpl. lia. }
  rewrite <- Hq in Hqshape, Hqent.
  (* the product as a sum over the multipoles *)
  assert (Hell : ∀ l, (l < n)%nat → ell2 !! l = Some (ell2_at Dl l))
    by (intros l Hl; by apply ell2_lookup).
  assert (Hlen : length ell2 = n) by apply ell2_length.
  assert (Hsum : mat_mul_entry p q i j
    = fsum (map (λ l : nat,
                   if decide (ai ≤ Z.of_nat l ≤ zi ∧ aj ≤ Z.of_nat l ≤ zj)
                   then (if cov then 1 / Qc_of_Z (zi - ai + 1)
                                     / Qc_of_Z (zj - aj + 1)
                         else 1 / Qc_of_Z (zi - ai + 1))%Qc
                   else 0%Qc) (range n))).
  { unfold mat_mul_entry. rewrite Hp. cbn [from_option id].
    apply fsum_pointwise.
    - by apply p_row_length; lia.
    - rewrite length_map. apply Hqshape.
    - intros l Hl.
      rewrite (p_row_lookup ell2 (ell2_at Dl) n ai zi l) by (done || lia).
      rewrite list_lookup_fmap.
      destruct (shape2_lookup _ _ _ _ Hqshape Hl) as (r & Hr & _).
      rewrite Hr. cbn [fmap option_fmap option_map from_option id].
      pose proof (Hqent l j Hl) as He.
      rewrite (entry_lookup _ _ _ _ Hr), Hj in He. rewrite He.
      destruct (decide (ai ≤ Z.of_nat l ≤ zi)) as [H1|H1];
        destruct (decide (aj ≤ Z.of_nat l ≤ zj)) as [H2|H2].
      + rewrite decide_True by done.
        unfold vals. cbn [fst snd].
        rewrite list_lookup_fmap, py_slice_lookup by lia.
        replace (Z.to_nat aj + (l - Z.to_nat aj))%nat with l by lia.
        rewrite Hell by done. cbn [fmap option_fmap option_map from_option id].
        assert (ell2_at Dl l ≠ 0%Qc) by (apply ell2_at_nonzero; lia).
        assert (Qc_of_Z (zi - ai + 1) ≠ 0%Qc).
        { rewrite <- Z2Qc_inj_0. intros E%Z2Qc_inj. lia. }
        assert (Qc_of_Z (zj - aj + 1) ≠ 0%Qc).
        { rewrite <- Z2Qc_inj_0. intros E%Z2Qc_inj. lia. }
        destruct cov; by field.
      + rewrite decide_False by tauto. ring.
      + rewrite decide_False by tauto. ring.
      + rewrite decide_False by tauto. ring. }
  rewrite Hsum. split.
  - intros ->. rewrite Hi in Hj. injection Hj as <- <-.
    assert (Qc_of_Z (zi - ai + 1) ≠ 0%Qc) as Hd.
    { rewrite <- Z2Qc_inj_0. intros E%Z2Qc_inj. lia. }
    transitivity
      (fsum (map (λ l : nat,
                    if decide (ai ≤ Z.of_nat l ≤ zi)
                    then (if cov then 1 / Qc_of_Z (zi - ai + 1)
                                      / Qc_of_Z (zi - ai + 1)
                          else 1 / Qc_of_Z (zi - ai + 1))%Qc
                    else 0%Qc) (range n))).
    + f_equal. apply map_ext. intros l.
      destruct (decide (ai ≤ Z.of_nat l ≤ zi)).
      * by rewrite decide_True by done.
      * by rewrite decide_False by tauto.
    + rewrite fsum_band by lia. destruct cov; by field.
  - intros Hdisj. apply fsum_zeros, Forall_fmap, Forall_forall.
    intros l _. simpl. by rewrite decide_False by lia.
Qed.

Lemma bin_operators_product_witness :
  ∃ b, Bins.__init__ [2; 5] [4; 9] = ok b ∧
    mat_mul_entry (Bins._bin_operators b true false).1
                  (Bins._bin_operators b true false).2 0 0 = 1%Qc ∧
    mat_mul_entry (Bins._bin_operators b true false).1
                  (Bins._bin_operators b true false).2 0 1 = 0%Qc.
Proof.
  eexists. split; [reflexivity|]. split.
  - refine (proj1 (bin_operators_product _ true false 0 0 2 4 2 4 _ _ _)
                  eq_refl).
    + apply (instance_init [2; 5] [4; 9]). reflexivity.
    + reflexivity.
    + reflexivity.
  - refine (proj2 (bin_operators_product _ true false 0 1 2 4 5 9 _ _ _) _).
    + apply (instance_init [2; 5] [4; 9]). reflexivity.
    + reflexivity.
    + reflexivity.
    + left. lia.
Defined.

(** ** The parameter file *)

Lemma split_on_length (sep : ascii) (s : list ascii) :
  length (split_on sep s) = S (length (filter (λ x, x = sep) s)).
Proof.
  induction s as [|c s IH]; [done|]. simpl. rewrite filter_cons.
  destruct (decide (c = sep)); simpl; [by rewrite IH|].
  destruct (split_on sep s); simpl in *; lia.
Qed.

Lemma split_on_no_sep (sep : ascii) (s : list ascii) :
  Forall (λ part, sep ∉ part) (split_on sep s).
Proof.
  induction s as [|c s IH]; simpl.
  - constructor; [apply not_elem_of_nil|constructor].
  - destruct (decide (c = sep)).
    + constructor; [apply not_elem_of_nil|done].
    + destruct (split_on sep s) as [|w ws]; simpl.
      * constructor; [|constructor]. rewrite elem_of_cons, elem_of_nil.
        intros [?|?]; congruence.
      * apply Forall_cons in IH as [Hw Hws]. constructor; [|done].
        rewrite elem_of_cons. intros [?|?]; [congruence|done].
Qed.

(** What the loop takes from a line, by the number of ["="] in it. *)
Lemma read_parameter_entry_cases (line : string) :
  match occurrences "=" line with
  | 0%nat => read_parameter_entry line
             = raise (ValueError "need more than 1 value to unpack")
  | 1%nat => is_ok (read_parameter_entry line)
  | _ => read_parameter_entry line
         = raise (ValueError "too many values to unpack")
  end.
Proof.
  unfold occurrences, read_parameter_entry.
  pose proof (split_on_length "=" (list_ascii_of_string line)) as H.
  destruct (split_on "=" (list_ascii_of_string line)) as [|a [|b [|c l]]];
    simpl in H.
  - lia.
  - by replace (length (filter _ _)) with 0%nat by lia.
  - replace (length (filter _ _)) with 1%nat by lia. by eexists.
  - by replace (length (filter _ _))
      with (S (S (length l))) by lia.
Qed.

Lemma foldM_snoc {A B : Type} (f : A → B → result A) (acc : A)
  (xs : list B) (x : B) :
  foldM f acc (xs ++ [x]) = (acc' ← foldM f acc xs; f acc' x).
Proof.
  revert acc. induction xs as [|y xs IH]; intros acc; simpl.
  - by destruct (f acc x).
  - destruct (f acc y) as [e|acc']; [done|]. simpl. apply IH.
Qed.

Lemma foldM_first_raise {A B : Type} (f : A → B → result A) (l1 l2 : list B)
  (x : B) (e : exn) :
  (∀ acc y, y ∈ l1 → is_ok (f acc y)) → (∀ acc, f acc x = raise e) →
  ∀ acc, foldM f acc (l1 ++ x :: l2) = raise e.
Proof.
  intros Hl1 Hx. induction l1 as [|y l1 IH]; intros acc; simpl.
  - by rewrite Hx.
  - destruct (Hl1 acc y) as [v ->]; [left|]. rewrite bind_ok.
    apply IH. intros acc' z Hz. apply Hl1. by right.
Qed.

Lemma foldM_is_ok {A B : Type} (f : A → B → result A) (xs : list B) :
  (∀ acc y, y ∈ xs → is_ok (f acc y)) → ∀ acc, is_ok (foldM f acc xs).
Proof.
  induction xs as [|y xs IH]; intros H acc; simpl; [by eexists|].
  destruct (H acc y) as [v ->]; [left|]. rewrite bind_ok.
  apply IH. intros acc' z Hz. apply H. by right.
Qed.

Lemma Exists_first {A : Type} (P : A → Prop) `{∀ x, Decision (P x)}
  (l : list A) :
  Exists P l →
  ∃ l1 x l2, l = l1 ++ x :: l2 ∧ P x ∧ Forall (λ y, ¬ P y) l1.
Proof.
  induction l as [|y l IH]; intros Hex; [by apply Exists_nil in Hex|].
  destruct (decide (P y)) as [Hy|Hy].
  - exists [], y, l. by repeat split.
  - apply Exists_cons in Hex as [?|Hex]; [done|].
    destruct (IH Hex) as (l1 & x & l2 & -> & Hx & Hl1).
    exists (y :: l1), x, l2. split; [done|]. split; [done|]. by constructor.
Qed.

(** X21: [read_parameter] returns exactly when every line of the file
    contains one ["="]; otherwise it raises [ValueError] at the first line
    that does not (an empty line, a comment, a value with an ["="]). *)
Theorem read_parameter_returns (lines : list string) :
  (is_ok (read_parameter lines)
   ↔ Forall (λ line, occurrences "=" line = 1%nat) lines) ∧
  ∀ l1 line l2,
    lines = l1 ++ line :: l2 →
    Forall (λ line, occurrences "=" line = 1%nat) l1 →
    occurrences "=" line ≠ 1%nat →
    read_parameter lines
    = raise (ValueError (if decide (occurrences "=" line = 0%nat)
                         then "need more than 1 value to unpack"
                         else "too many values to unpack")).
Proof.
  assert (Hstep : ∀ line, occurrences "=" line = 1%nat →
            ∀ d : gmap string pvalue,
              is_ok (e ← read_parameter_entry line; ok (<[e.1 := e.2]> d))).
  { intros line H d. pose proof (read_parameter_entry_cases line) as Hc.
    rewrite H in Hc. destruct Hc as [e ->]. rewrite bind_ok. by eexists. }
  assert (Hbad : ∀ l1 line l2,
            Forall (λ line, occurrences "=" line = 1%nat) l1 →
            occurrences "=" line ≠ 1%nat →
            read_parameter (l1 ++ line :: l2)
            = raise (ValueError (if decide (occurrences "=" line = 0%nat)
                                 then "need more than 1 value to unpack"
                                 else "too many values to unpack"))).
  { intros l1 line l2 Hl1 Hline. unfold read_parameter.
    apply foldM_first_raise.
    - intros d y Hy. apply Hstep. by eapply Forall_forall in Hl1.
    - intros d. pose proof (read_parameter_entry_cases line) as Hc.
      destruct (occurrences "=" line) as [|[|k]]; [|done|]; by rewrite Hc. }
  split.
  - split.
    + intros [d Hd].
      destruct (decide (Forall (λ line, occurrences "=" line = 1%nat) lines))
        as [|Hno]; [done|]. exfalso.
      apply not_Forall_Exists in Hno; [|intros ?; apply _].
      apply Exists_first in Hno as (l1 & line & l2 & -> & Hline & Hl1);
        [|intros ?; apply _].
      rewrite Hbad in Hd; [discriminate| |done].
      eapply Forall_impl; [exact Hl1|]. simpl. intros l Hl.
      destruct (decide (occurrences "=" l = 1%nat)); [done|]. by destruct Hl.
    + intros Hall. apply foldM_is_ok. intros d y Hy. apply Hstep.
      by eapply Forall_forall in Hall.
  - intros l1 line l2 -> Hl1 Hline. by apply Hbad.
Qed.

(** ** The parameter file: names and values *)

Lemma lstrip_head (s : list ascii) (c : ascii) :
  head (lstrip s) = Some c → is_space c = false.
Proof.
  induction s as [|x s IH]; [done|]. simpl.
  destruct (is_space x) eqn:Hx; [done|]. simpl. by intros [= <-].
Qed.

Lemma lstrip_suffix (s : list ascii) : ∃ sp, s = sp ++ lstrip s.
Proof.
  induction s as [|x s [sp IH]]; [by exists []|]. simpl.
  destruct (is_space x); [|by exists []].
  exists (x :: sp). simpl. by rewrite <- IH.
Qed.

Lemma last_rev {A : Type} (l : list A) : last (rev l) = head l.
Proof. destruct l as [|x l]; [done|]. simpl. by rewrite last_snoc. Qed.

Lemma rstrip_last (s : list ascii) (c : ascii) :
  last (rstrip s) = Some c → is_space c = false.
Proof. unfold rstrip. rewrite last_rev. apply lstrip_head. Qed.

Lemma rstrip_prefix (s : list ascii) : ∃ sp, s = rstrip s ++ sp.
Proof.
  unfold rstrip. destruct (lstrip_suffix (rev s)) as [sp Hsp].
  exists (rev sp). rewrite <- rev_app_distr, <- Hsp. by rewrite rev_involutive.
Qed.

Lemma strip_trimmed (s : list ascii) : trimmed (strip s).
Proof.
  unfold strip. split.
  - intros c Hc. destruct (rstrip_prefix (lstrip s)) as [sp Hsp].
    apply (lstrip_head s). rewrite Hsp.
    by destruct (rstrip (lstrip s)).
  - apply rstrip_last.
Qed.

Lemma strip_subseteq (s : list ascii) (c : ascii) : c ∈ strip s → c ∈ s.
Proof.
  unfold strip. intros Hc.
  destruct (rstrip_prefix (lstrip s)) as [sp Hsp].
  destruct (lstrip_suffix s) as [sp' Hsp'].
  rewrite Hsp', Hsp. apply elem_of_app. right. apply elem_of_app. by left.
Qed.

Lemma py_words_wf (s : list ascii) :
  Forall (λ w, w ≠ [] ∧ Forall (λ c, is_space c = false) w) (py_words s).
Proof.
  induction s as [|c s IH]; [constructor|]. simpl.
  destruct (is_space c) eqn:Hc; [done|].
  destruct s as [|c' s'].
  - repeat constructor; done.
  - destruct (is_space c') eqn:Hc'.
    + constructor; [|done]. split; [done|]. by repeat constructor.
    + destruct (py_words (c' :: s')) as [|w ws].
      * repeat constructor; done.
      * apply Forall_cons in IH as [[_ Hw] Hws].
        constructor; [|done]. split; [done|]. by constructor.
Qed.

Lemma py_words_nonempty (s : list ascii) :
  (∃ c, c ∈ s ∧ is_space c = false) → py_words s ≠ [].
Proof.
  induction s as [|c s IH]; intros (x & Hx & Hsp).
  - by apply elem_of_nil in Hx.
  - simpl. destruct (is_space c) eqn:Hc.
    + apply IH. exists x. split; [|done].
      apply elem_of_cons in Hx as [->|Hx]; [congruence|done].
    + destruct s as [|c' s']; [done|].
      destruct (is_space c'); [done|].
      by destruct (py_words (c' :: s')).
Qed.

Lemma py_words_cons (c c' : ascii) (s' : list ascii) :
  is_space c = false →
  py_words (c :: c' :: s')
  = if is_space c' then [c] :: py_words (c' :: s')
    else match py_words (c' :: s') with
         | w :: ws => (c :: w) :: ws
         | [] => [[c]]
         end.
Proof. intros Hc. simpl. by rewrite Hc. Qed.

(** A trimmed string with a whitespace character has at least two words. *)
Lemma py_words_two (s : list ascii) :
  trimmed s → (∃ c, c ∈ s ∧ is_space c = true) →
  (2 ≤ length (py_words s))%nat.
Proof.
  induction s as [|c s IH]; intros [Hhead Hlast] (x & Hx & Hsp).
  - by apply elem_of_nil in Hx.
  - pose proof (Hhead c eq_refl) as Hc.
    apply elem_of_cons in Hx as [->|Hx]; [congruence|].
    destruct s as [|c' s']; [by apply elem_of_nil in Hx|].
    rewrite py_words_cons by done.
    destruct (is_space c') eqn:Hc'.
    + assert (py_words (c' :: s') ≠ []) as Hne.
      { apply py_words_nonempty.
        destruct (proj2 (last_is_Some (c' :: s'))) as [z Hz]; [done|].
        exists z. split.
        - apply last_Some in Hz as [l' ->]. apply elem_of_app. right. by left.
        - apply Hlast. by rewrite last_cons_cons. }
      destruct (py_words (c' :: s')); [done|]. simpl. lia.
    + assert (2 ≤ length (py_words (c' :: s')))%nat as Hlen.
      { apply IH.
        - split; [by intros ? [= <-]|].
          intros z Hz. apply Hlast. by rewrite last_cons_cons.
        - by exists x. }
      destruct (py_words (c' :: s')); simpl in *; lia.
Qed.

Lemma string_of_list_ascii_nonempty (w : list ascii) :
  w ≠ [] → string_of_list_ascii w ≠ EmptyString.
Proof. by destruct w. Qed.

(** The name and the value taken from a line. *)
Lemma read_parameter_entry_wf (line : string) (k : string) (v : pvalue) :
  read_parameter_entry line = ok (k, v) →
  trimmed (list_ascii_of_string k) ∧
  ("="%char ∉ list_ascii_of_string k) ∧
  pvalue_wf v.
Proof.
  unfold read_parameter_entry. intros H.
  pose proof (split_on_no_sep "=" (list_ascii_of_string line)) as Hsep.
  destruct (split_on "=" (list_ascii_of_string line))
    as [|name [|value [|c l]]]; try discriminate.
  injection H as <- <-.
  apply Forall_cons in Hsep as [Hname _].
  rewrite list_ascii_of_string_of_list_ascii.
  split; [apply strip_trimmed|]. split.
  - intros Hin. by apply Hname, strip_subseteq.
  - case_bool_decide as Hsp; simpl.
    + split.
      * rewrite length_map. apply py_words_two; [apply strip_trimmed|].
        by exists " "%char.
      * apply Forall_fmap. eapply Forall_impl; [apply py_words_wf|].
        intros w [Hne Hw]. simpl.
        rewrite list_ascii_of_string_of_list_ascii.
        split; [by apply string_of_list_ascii_nonempty|done].
    + rewrite list_ascii_of_string_of_list_ascii.
      split; [done|apply strip_trimmed].
Qed.

Lemma foldM_invariant {A B : Type} (Inv : A → Prop) (f : A → B → result A)
  (xs : list B) :
  (∀ acc x acc', Inv acc → f acc x = ok acc' → Inv acc') →
  ∀ acc r, Inv acc → foldM f acc xs = ok r → Inv r.
Proof.
  intros Hf. induction xs as [|x xs IH]; intros acc r Hacc H; simpl in H.
  - by injection H as <-.
  - inv_bind H. eapply IH; [|exact H]. by eapply Hf.
Qed.

(** X22: in the dictionary that [read_parameter] returns, a name does not
    begin or end with whitespace and holds no ["="]; a value is either a
    string without a space that does not begin or end with whitespace, or
    a list of at least two words that are not empty and hold no
    whitespace. *)
Theorem read_parameter_values (lines : list string)
  (d : gmap string pvalue) (k : string) (v : pvalue) :
  read_parameter lines = ok d →
  d !! k = Some v →
  trimmed (list_ascii_of_string k) ∧
  ("="%char ∉ list_ascii_of_string k) ∧
  pvalue_wf v.
Proof.
  intros H Hk.
  assert (Hinv : map_Forall (λ k v, trimmed (list_ascii_of_string k) ∧
                                    ("="%char ∉ list_ascii_of_string k) ∧
                                    pvalue_wf v) d).
  { unfold read_parameter in H.
    eapply (foldM_invariant _ _ lines); [|apply map_Forall_empty|exact H].
    intros acc line acc' Hacc Hstep. cbn beta in Hstep. inv_bind Hstep.
    subst acc'.
    destruct x as [k' v']. apply map_Forall_insert_2; [|done].
    by eapply read_parameter_entry_wf. }
  by apply Hinv.
Qed.

Lemma read_parameter_values_witness :
  ∃ d, read_parameter example_file = ok d ∧
       d !! "freq"%string = Some (PList ["100"; "143"]%string) ∧
       trimmed (list_ascii_of_string "freq") ∧
       ("="%char ∉ list_ascii_of_string "freq") ∧
       pvalue_wf (PList ["100"; "143"]%string).
Proof.
  eexists. split; [reflexivity|]. split; [reflexivity|].
  eapply (read_parameter_values example_file); reflexivity.
Defined.

Lemma snoc_eq_app_cons {A : Type} (l l1 l2 : list A) (x y : A) :
  l ++ [x] = l1 ++ y :: l2 →
  (l2 = [] ∧ l = l1 ∧ x = y) ∨ ∃ l2', l2 = l2' ++ [x] ∧ l = l1 ++ y :: l2'.
Proof.
  intros H. destruct l2 as [|z l2 _] using rev_ind.
  - left. apply app_inj_tail in H as [-> ->]. done.
  - right. exists l2. rewrite app_comm_cons, app_assoc in H.
    apply app_inj_tail in H as [-> ->]. done.
Qed.

(** X23: the dictionary holds, for a name, the value of the last line with
    that name: a later line overrides an earlier one. *)
Theorem read_parameter_last_wins (lines : list string)
  (d : gmap string pvalue) (k : string) (v : pvalue) :
  read_parameter lines = ok d →
  d !! k = Some v
  ↔ ∃ l1 line l2,
      lines = l1 ++ line :: l2 ∧
      read_parameter_entry line = ok (k, v) ∧
      Forall (λ l', ∀ v', read_parameter_entry l' ≠ ok (k, v')) l2.
Proof.
  unfold read_parameter. revert d.
  induction lines as [|x lines IH] using rev_ind; intros d H.
  - injection H as <-. rewrite lookup_empty. split; [done|].
    intros (l1 & line & l2 & Hl & _). by destruct l1.
  - rewrite foldM_snoc in H. inv_bind H. inv_bind H. subst d.
    destruct x1 as [k' v']. cbn [fst snd].
    specialize (IH x0 Hx).
    destruct (decide (k' = k)) as [->|Hne].
    + rewrite lookup_insert_eq. split.
      * intros [= <-]. exists lines, x, []. by repeat split.
      * intros (l1 & line & l2 & Hl & Hline & Hl2).
        apply snoc_eq_app_cons in Hl as [(-> & -> & ->)|(l2' & -> & ->)].
        -- rewrite Hx0 in Hline. by injection Hline as ->.
        -- apply Forall_app in Hl2 as [_ Hl2].
           apply Forall_cons in Hl2 as [Hl2 _]. by destruct (Hl2 v').
    + rewrite lookup_insert_ne by done. rewrite IH. split.
      * intros (l1 & line & l2 & -> & Hline & Hl2).
        exists l1, line, (l2 ++ [x]). split; [by rewrite <- app_assoc|].
        split; [done|]. apply Forall_app. split; [done|].
        constructor; [|constructor]. intros v''. rewrite Hx0.
        intros [= ? ?]. done.
      * intros (l1 & line & l2 & Hl & Hline & Hl2).
        apply snoc_eq_app_cons in Hl as [(-> & -> & ->)|(l2' & -> & ->)].
        -- rewrite Hx0 in Hline. injection Hline as ? ?. done.
        -- apply Forall_app in Hl2 as [Hl2 _]. by exists l1, line, l2'.
Qed.

Lemma read_parameter_last_wins_witness :
  ∃ d, read_parameter example_file = ok d ∧
       (d !! "map"%string = Some (PStr "6")
        ↔ ∃ l1 line l2,
            example_file = l1 ++ line :: l2 ∧
            read_parameter_entry line = ok ("map"%string, PStr "6") ∧
            Forall (λ l', ∀ v', read_parameter_entry l'
                                ≠ ok ("map"%string, v')) l2).
Proof.
  eexists. split; [reflexivity|].
  apply (read_parameter_last_wins example_file). reflexivity.
Defined.

(** ** The theory spectra *)

Lemma mapM_r_cases {A B : Type} (f : A → result B) (xs : list A) (e : exn) :
  (∀ x, x ∈ xs → f x = raise e ∨ is_ok (f x)) →
  mapM_r f xs = raise e ∨ is_ok (mapM_r f xs).
Proof.
  induction xs as [|x xs IH]; intros H; [right; by eexists|]. simpl.
  destruct (H x) as [->|[y ->]]; [left|by left|]. rewrite bind_ok.
  destruct IH as [->|[ys ->]]; [intros z Hz; apply H; by right|by left|].
  right. rewrite bind_ok. by eexists.
Qed.

Lemma to_dl_short (st : Hillipop.t) (cl_boltz : list (list Qc)) :
  ¬ theory_wf st cl_boltz → Hillipop.to_dl st cl_boltz = raise IndexError.
Proof.
  intros Hnot. unfold Hillipop.to_dl.
  destruct cl_boltz as [|r0 rs]; [done|].
  set (n := Z.to_nat (Hillipop.lmax st + 1)).
  assert (Hrow : ∀ r : list Qc,
            (mapM_r (λ l, x ← py_index r l; ok (x * Hillipop.dl_factor l)%Qc)
                    (range n) = raise IndexError ∧ (length r < n)%nat) ∨
            (is_ok (mapM_r (λ l, x ← py_index r l;
                                 ok (x * Hillipop.dl_factor l)%Qc)
                           (range n)) ∧ (n ≤ length r)%nat)).
  { intros r. destruct (decide (n ≤ length r)%nat) as [Hle|Hlt].
    - right. split; [|done]. apply mapM_r_is_ok. intros l Hl.
      apply list_elem_of_In, in_seq in Hl.
      destruct (lookup_lt_is_Some_2 r l) as [x Hx]; [lia|].
      rewrite (py_index_lookup _ _ _ Hx), bind_ok. by eexists.
    - left. split; [|lia]. apply mapM_r_raise.
      + intros l Hl. unfold py_index.
        destruct (r !! l); [right; rewrite bind_ok; by eexists|by left].
      + exists (length r). split.
        * apply list_elem_of_In, in_seq. lia.
        * unfold py_index. by rewrite lookup_ge_None_2. }
  apply mapM_r_raise.
  - intros r _. destruct (Hrow r) as [[-> _]|[Hok _]]; [by left|by right].
  - destruct (decide (Exists (λ r : list Qc, (length r < n)%nat) (r0 :: rs)))
      as [Hex|Hno].
    + apply Exists_exists in Hex as (r & Hr & Hlen). exists r.
      split; [done|]. destruct (Hrow r) as [[-> _]|[_ Hle]]; [done|lia].
    + exfalso. apply Hnot. split; [done|].
      apply Forall_forall. intros r Hr. fold n.
      destruct (decide (n ≤ length r)%nat); [done|]. exfalso. apply Hno.
      apply Exists_exists. exists r. split; [done|lia].
Qed.

(** X24: the conversion of the theory spectra returns exactly when there is
    at least one spectrum and every spectrum reaches [lmax]; otherwise
    [compute_likelihood] and [_compute_residuals] raise [IndexError],
    whatever the parameters and the modes are. *)
Theorem theory_spectra_range (st : Hillipop.t) (pars : gmap string Qc)
  (cl_boltz : list (list Qc)) :
  (is_ok (Hillipop.to_dl st cl_boltz) ↔ theory_wf st cl_boltz) ∧
  (¬ theory_wf st cl_boltz →
   Hillipop.compute_likelihood st pars cl_boltz = raise IndexError ∧
   Hillipop._compute_residuals st pars cl_boltz = raise IndexError).
Proof.
  split.
  - split.
    + intros [dlth Hdl].
      destruct (decide (cl_boltz ≠ [] ∧
                        Forall (λ r, (Z.to_nat (Hillipop.lmax st + 1)
                                      ≤ length r)%nat) cl_boltz))
        as [|Hnot]; [done|].
      rewrite (to_dl_short st cl_boltz Hnot) in Hdl. discriminate.
    + intros Hwf. destruct (to_dl_ok st cl_boltz Hwf) as (dlth & _ & -> & _).
      by eexists.
  - intros Hnot. unfold Hillipop.compute_likelihood, Hillipop._compute_residuals.
    by rewrite (to_dl_short st cl_boltz Hnot).
Qed.

(** ** The likelihood and the residuals *)

(** X25: when TT is active and the calibration factors of the two paths
    agree ([Aplanck] is zero or at most one map has a non-zero offset),
    [compute_likelihood] is the quadratic form, in the inverse covariance
    matrix, of the vector selected from what [_compute_residuals]
    returns. *)
Theorem likelihood_from_residuals (st : Hillipop.t) (pars : gmap string Qc)
  (cl_boltz : list (list Qc)) (A : Qc) (c : nat → Qc) :
  Hillipop.isTT st = true →
  pars !! "Aplanck" = Some A →
  (∀ m, (m < Hillipop.nmap st)%nat → pars !! Hillipop.cname m = Some (c m)) →
  (A = 0%Qc ∨
   ∀ m1 m2, (m1 < m2 < Hillipop.nmap st)%nat → c m1 = 0%Qc ∨ c m2 = 0%Qc) →
  Hillipop.compute_likelihood st pars cl_boltz
  = (Rl ← Hillipop._compute_residuals st pars cl_boltz;
     Xl ← Hillipop._select_spectra st Rl 0;
     y ← vec_mat Xl (Hillipop.invkll st);
     vec_dot y Xl).
Proof.
  intros HTT HA Hc Hagree.
  assert (Hillipop.cal_residuals st pars = Hillipop.cal_likelihood st pars)
    as Hcal.
  { rewrite (cal_residuals_spec st pars A c HA Hc).
    rewrite (cal_likelihood_spec st pars A c HA Hc).
    f_equal. apply map_ext_in. intros [m1 m2] Hm.
    apply list_elem_of_In, elem_of_loop_pairs in Hm. cbn [fst snd].
    apply Qc_cal_eq. destruct Hagree as [H|H]; [by left|]. right.
    apply H. lia. }
  unfold Hillipop.compute_likelihood, Hillipop._compute_residuals.
  rewrite Hcal, HTT.
  destruct (Hillipop.to_dl st cl_boltz) as [e|dlth]; [done|].
  rewrite !bind_ok.
  destruct (Hillipop.cal_likelihood st pars) as [e|cal]; [done|].
  rewrite !bind_ok.
  by destruct (Hillipop.tt_residuals st pars cal dlth).
Qed.

Lemma likelihood_from_residuals_witness :
  ∃ st, two_maps true false = ok st ∧
    Hillipop.compute_likelihood st pars_neutral (theory_dl2 1)
    = (Rl ← Hillipop._compute_residuals st pars_neutral (theory_dl2 1);
       Xl ← Hillipop._select_spectra st Rl 0;
       y ← vec_mat Xl (Hillipop.invkll st);
       vec_dot y Xl).
Proof.
  eexists. split; [reflexivity|].
  apply (likelihood_from_residuals _ pars_neutral (theory_dl2 1) 1%Qc
           (λ _, 0%Qc)).
  - reflexivity.
  - reflexivity.
  - intros m Hm. change (m < 2)%nat in Hm.
    destruct m as [|[|m]]; [reflexivity|reflexivity|lia].
  - right. intros m1 m2 _. by left.
Defined.

(** ** The name of the covariance file *)

(** X26: the suffix of the name of the covariance file determines the
    modes: two engines that read the same file have the same active
    modes. *)
Theorem covmat_ext_injective (st st' : Hillipop.t) :
  Hillipop.covmat_ext st = Hillipop.covmat_ext st' →
  Hillipop.isTT st = Hillipop.isTT st' ∧
  Hillipop.isEE st = Hillipop.isEE st' ∧
  Hillipop.isTE st = Hillipop.isTE st' ∧
  Hillipop.isET st = Hillipop.isET st'.
Proof.
  unfold Hillipop.covmat_ext.
  destruct (Hillipop.isTT st), (Hillipop.isEE st), (Hillipop.isTE st),
    (Hillipop.isET st), (Hillipop.isTT st'), (Hillipop.isEE st'),
    (Hillipop.isTE st'), (Hillipop.isET st');
    intros H; first [done | discriminate H].
Qed.

Lemma covmat_ext_injective_witness :
  ∃ st st', two_maps true false = ok st ∧ two_maps_fg true false = ok st' ∧
    Hillipop.isTT st = Hillipop.isTT st' ∧
    Hillipop.isEE st = Hillipop.isEE st' ∧
    Hillipop.isTE st = Hillipop.isTE st' ∧
    Hillipop.isET st = Hillipop.isET st'.
Proof.
  eexists _, _. split; [reflexivity|]. split; [reflexivity|].
  apply covmat_ext_injective. reflexivity.
Defined.

(** ** Bins: cutting twice *)

Lemma bins_instance_derive (b : Bins.t) :
  bins_instance b → Bins._derive_ext (Bins.lmins b) (Bins.lmaxs b) = ok b.
Proof.
  assert (∀ l1 l2 b, length l1 = length l2 →
            Bins._derive_ext l1 l2 = ok b →
            Bins._derive_ext (Bins.lmins b) (Bins.lmaxs b) = ok b) as Hd.
  { intros l1 l2 b' Hlen H.
    pose proof (derive_ext_wf _ _ _ Hlen H) as (_ & -> & ->). done. }
  intros [lmins lmaxs b' H|b0 b' lo hi Hb0 H].
  - unfold Bins.__init__ in H. case_bool_decide as Hlen; [|discriminate].
    simpl in H. eapply Hd; [|exact H]. by apply mask_select_length.
  - unfold Bins.cut_binning in H. eapply Hd; [|exact H].
    apply mask_select_length. apply (bins_instance_wf _ Hb0).
Qed.

Lemma cut_binning_within (b : Bins.t) (lo hi : Z) :
  bins_instance b → lo ≤ Bins.lmin b → Bins.lmax b ≤ hi →
  Bins.cut_binning b lo hi = ok b.
Proof.
  intros Hb Hlo Hhi. pose proof (bins_instance_wf _ Hb) as Hwf.
  unfold Bins.cut_binning.
  destruct (mask_select_filter
              (λ a z, (lo <=? a) && (z <=? hi))
              (λ p, lo ≤ p.1 ∧ p.2 ≤ hi) (Bins.lmins b) (Bins.lmaxs b))
    as [-> ->]; [|apply Hwf|].
  { intros a z. simpl. rewrite andb_true_iff, !Z.leb_le. done. }
  rewrite filter_all.
  - rewrite fst_zip, snd_zip by (rewrite (wf_length _ Hwf); lia).
    by apply bins_instance_derive.
  - apply Forall_lookup. intros i [a z] Hi.
    apply lookup_zip_with_Some in Hi as (a' & z' & [= <- <-] & Ha & Hz).
    pose proof (wf_lmin _ Hwf) as Hmin. pose proof (wf_lmax _ Hwf) as Hmax.
    eapply Forall_lookup_1 in Hmin; [|exact Ha].
    eapply Forall_lookup_1 in Hmax; [|exact Hz]. simpl in *. lia.
Qed.

(** X27: [cut_binning] with a range that contains the extent of the object
    leaves the object as it is; hence cutting a second time with the same
    range changes nothing. *)
Theorem cut_binning_idempotent (b b' : Bins.t) (lo hi : Z) :
  bins_instance b →
  (lo ≤ Bins.lmin b → Bins.lmax b ≤ hi → Bins.cut_binning b lo hi = ok b) ∧
  (Bins.cut_binning b lo hi = ok b' → Bins.cut_binning b' lo hi = ok b').
Proof.
  intros Hb. split; [by apply cut_binning_within|].
  intros Hcut.
  assert (Hb' : bins_instance b') by by eapply instance_cut.
  pose proof (bins_instance_wf _ Hb) as Hwf.
  apply cut_binning_within; [done| |].
  - (* the least lower bound is that of a bin that was kept *)
    destruct (bins_instance_bounds _ Hb') as (_ & Hin & _).
    unfold Bins.cut_binning in Hcut.
    apply derive_ext_wf in Hcut as (_ & E1 & _);
      [|apply mask_select_length, Hwf].
    rewrite E1 in Hin.
    destruct (mask_select_filter
                (λ a z, (lo <=? a) && (z <=? hi))
                (λ p, lo ≤ p.1 ∧ p.2 ≤ hi) (Bins.lmins b) (Bins.lmaxs b))
      as [E _]; [|apply Hwf|].
    { intros a z. simpl. rewrite andb_true_iff, !Z.leb_le. done. }
    rewrite E in Hin. apply list_elem_of_fmap in Hin as (p & -> & Hp).
    apply list_elem_of_filter in Hp. tauto.
  - destruct (bins_instance_bounds _ Hb') as (_ & _ & Hin).
    unfold Bins.cut_binning in Hcut.
    apply derive_ext_wf in Hcut as (_ & _ & E2);
      [|apply mask_select_length, Hwf].
    rewrite E2 in Hin.
    destruct (mask_select_filter
                (λ a z, (lo <=? a) && (z <=? hi))
                (λ p, lo ≤ p.1 ∧ p.2 ≤ hi) (Bins.lmins b) (Bins.lmaxs b))
      as [_ E]; [|apply Hwf|].
    { intros a z. simpl. rewrite andb_true_iff, !Z.leb_le. done. }
    rewrite E in Hin. apply list_elem_of_fmap in Hin as (p & -> & Hp).
    apply list_elem_of_filter in Hp. tauto.
Qed.

Lemma cut_binning_idempotent_witness :
  ∃ b b', Bins.__init__ [2; 5; 10] [4; 9; 20] = ok b ∧
          Bins.cut_binning b 2 9 = ok b' ∧
          Bins.cut_binning b' 2 9 = ok b'.
Proof.
  eexists _, _. split; [reflexivity|]. split; [reflexivity|].
  refine (proj2 (cut_binning_idempotent _ _ 2 9 _) _).
  - apply (instance_init [2; 5; 10] [4; 9; 20]). reflexivity.
  - reflexivity.
Defined.
